(** * The Krypton lexer: a shallow embedding and its specification

    The development follows the three packages of the repository:
    [file] (source positions), [token] (token types and the vocabulary
    tables) and [lexer] (the scanning engine).  Two small modules come
    first for the parts of the Go runtime the lexer leans on: machine
    integers with UTF-8 ([utf8]) and the character classes ([unicode]). *)

From Stdlib Require Import ZArith List String Ascii Bool Lia Sorted.
From stdpp Require Import gmap strings.
Import ListNotations.

Local Open Scope Z_scope.

(** ** Go scalars *)

(** A [rune] is an [int32]; every rune the lexer handles is either a
    decoded scalar value or the end marker [-1]. *)
Definition rune := Z.

(** The rune of an ASCII character constant. *)
Definition rn (c : ascii) : rune := Z.of_N (N_of_ascii c).
Arguments rn c%_char.

(** Go's [int] is taken at its 64-bit width; [p.Col++] and [Errors++]
    wrap around in two's complement. *)
Definition wrap_int (z : Z) : Z := (z + 2 ^ 63) mod 2 ^ 64 - 2 ^ 63.

Definition incr (z : Z) : Z := wrap_int (z + 1).

Module utf8.

Definition RuneError : rune := 0xFFFD.
Definition MaxRune : rune := 0x10FFFF.
Definition surrogateMin : rune := 0xD800.
Definition surrogateMax : rune := 0xDFFF.

Definition byte (z : Z) : ascii := ascii_of_N (Z.to_N (z mod 256)).

Definition ValidRune (r : rune) : bool :=
  if (0 <=? r) && (r <? surrogateMin) then true
  else if (surrogateMax <? r) && (r <=? MaxRune) then true
  else false.

Definition encode3 (r : rune) : string :=
  String (byte (Z.lor 0xE0 (Z.shiftr r 12)))
    (String (byte (Z.lor 0x80 (Z.land (Z.shiftr r 6) 0x3F)))
       (String (byte (Z.lor 0x80 (Z.land r 0x3F))) EmptyString)).

(** The conversion [string(r)]: the UTF-8 encoding of [r], and that of
    [RuneError] for a rune that is no scalar value (the end marker
    [-1] among them). *)
Definition string_of_rune (r : rune) : string :=
  if (0 <=? r) && (r <=? 0x7F) then String (byte r) EmptyString
  else if (0 <=? r) && (r <=? 0x7FF) then
    String (byte (Z.lor 0xC0 (Z.shiftr r 6)))
      (String (byte (Z.lor 0x80 (Z.land r 0x3F))) EmptyString)
  else if (r <? 0) || (MaxRune <? r) || ((surrogateMin <=? r) && (r <=? surrogateMax))
  then encode3 RuneError
  else if r <=? 0xFFFF then encode3 r
  else
    String (byte (Z.lor 0xF0 (Z.shiftr r 18)))
      (String (byte (Z.lor 0x80 (Z.land (Z.shiftr r 12) 0x3F)))
         (String (byte (Z.lor 0x80 (Z.land (Z.shiftr r 6) 0x3F)))
            (String (byte (Z.lor 0x80 (Z.land r 0x3F))) EmptyString))).

Definition code (b : ascii) : Z := Z.of_N (N_of_ascii b).

Definition continuation (b : ascii) : bool := (0x80 <=? code b) && (code b <=? 0xBF).

(** [DecodeRune] on the bytes that remain: the rune and its width, or
    [(RuneError, 1)] for a byte sequence that is not UTF-8. *)
Definition DecodeRune (p : string) : rune * Z :=
  match p with
  | EmptyString => (RuneError, 0)
  | String p0 rest =>
    let c0 := code p0 in
    if c0 <? 0x80 then (c0, 1)
    else if (c0 <? 0xC2) || (0xF4 <? c0) then (RuneError, 1)
    else
      let sz := if c0 <? 0xE0 then 2 else if c0 <? 0xF0 then 3 else 4 in
      let lo := if c0 =? 0xE0 then 0xA0 else if c0 =? 0xF0 then 0x90 else 0x80 in
      let hi := if c0 =? 0xED then 0x9F else if c0 =? 0xF4 then 0x8F else 0xBF in
      match rest with
      | EmptyString => (RuneError, 1)
      | String b1 rest1 =>
        if Z.of_nat (String.length p) <? sz then (RuneError, 1)
        else if (code b1 <? lo) || (hi <? code b1) then (RuneError, 1)
        else if sz <=? 2 then
          (Z.lor (Z.shiftl (Z.land c0 0x1F) 6) (Z.land (code b1) 0x3F), 2)
        else
          match rest1 with
          | EmptyString => (RuneError, 1)
          | String b2 rest2 =>
            if negb (continuation b2) then (RuneError, 1)
            else if sz <=? 3 then
              (Z.lor (Z.lor (Z.shiftl (Z.land c0 0x0F) 12)
                            (Z.shiftl (Z.land (code b1) 0x3F) 6))
                     (Z.land (code b2) 0x3F), 3)
            else
              match rest2 with
              | EmptyString => (RuneError, 1)
              | String b3 _ =>
                if negb (continuation b3) then (RuneError, 1)
                else
                  (Z.lor (Z.lor (Z.lor (Z.shiftl (Z.land c0 0x07) 18)
                                       (Z.shiftl (Z.land (code b1) 0x3F) 12))
                                (Z.shiftl (Z.land (code b2) 0x3F) 6))
                         (Z.land (code b3) 0x3F), 4)
              end
          end
      end
  end.

End utf8.

(** ** Character classes

    The lexer asks the [unicode] package three questions, [IsLetter],
    [IsDigit] and [IsSpace], and lowers one rune with [ToLower].  Each
    has a fixed answer on Latin-1 and consults the Unicode range
    tables above it.  The tables are data of the Go distribution, so
    the lexer is verified for whatever tables it is linked with. *)
Module unicode.

Definition MaxASCII : rune := 0x7F.
Definition MaxLatin1 : rune := 0xFF.

(** An entry of a range table covers [Lo], [Lo + Stride], ... up to [Hi];
    the bounds are unsigned. *)
Record Range := { Lo : N; Hi : N; Stride : N }.

Definition RangeTable := list Range.

Definition inRange (r : rune) (rg : Range) : bool :=
  (Z.of_N (Lo rg) <=? r) && (r <=? Z.of_N (Hi rg))
  && ((r - Z.of_N (Lo rg)) mod Z.of_N (Stride rg) =? 0).

(** Membership above Latin-1.  The bounds are unsigned, so a negative
    rune (the lexer's end marker) is in no range. *)
Definition isExcludingLatin (tab : RangeTable) (r : rune) : bool :=
  if r <? 0 then false else existsb (inRange r) tab.

(** A case range maps the runes of [Lo..Hi] by adding [Delta]; a delta
    above [MaxRune] marks an alternating upper/lower sequence. *)
Record CaseRange := { CLo : N; CHi : N; DeltaLower : Z }.

Record Tables := {
  Letter : RangeTable;
  Digit : RangeTable;
  White_Space : RangeTable;
  CaseRanges : list CaseRange
}.

Definition latin1Letter (r : rune) : bool :=
  ((0x41 <=? r) && (r <=? 0x5A)) || ((0x61 <=? r) && (r <=? 0x7A))
  || (r =? 0xAA) || (r =? 0xB5) || (r =? 0xBA)
  || ((0xC0 <=? r) && (r <=? 0xD6)) || ((0xD8 <=? r) && (r <=? 0xF6))
  || ((0xF8 <=? r) && (r <=? 0xFF)).

Definition IsLetter (T : Tables) (r : rune) : bool :=
  if (0 <=? r) && (r <=? MaxLatin1) then latin1Letter r
  else isExcludingLatin (Letter T) r.

Definition IsDigit (T : Tables) (r : rune) : bool :=
  if r <=? MaxLatin1 then (rn "0" <=? r) && (r <=? rn "9")
  else isExcludingLatin (Digit T) r.

Definition IsSpace (T : Tables) (r : rune) : bool :=
  if (0 <=? r) && (r <=? MaxLatin1) then
    (r =? 9) || (r =? 10) || (r =? 11) || (r =? 12) || (r =? 13)
    || (r =? 32) || (r =? 0x85) || (r =? 0xA0)
  else isExcludingLatin (White_Space T) r.

Definition toLower (r : rune) (cr : CaseRange) : rune :=
  if utf8.MaxRune <? DeltaLower cr
  then Z.of_N (CLo cr) + Z.lor (Z.ldiff (r - Z.of_N (CLo cr)) 1) 1
  else r + DeltaLower cr.

Definition ToLower (T : Tables) (r : rune) : rune :=
  if r <=? MaxASCII then
    if (rn "A" <=? r) && (r <=? rn "Z") then r + (rn "a" - rn "A") else r
  else
    match find (fun cr => (Z.of_N (CLo cr) <=? r) && (r <=? Z.of_N (CHi cr))) (CaseRanges T) with
    | Some cr => toLower r cr
    | None => r
    end.

End unicode.

(** ** Package [file]: source positions *)
Module file.

Record Pos := { Line : Z; Col : Z }.

Definition Origin : Pos := {| Line := 1; Col := 1 |}.

Definition NextCharacter (p : Pos) : Pos :=
  {| Line := Line p; Col := incr (Col p) |}.

Definition NextLine (p : Pos) : Pos :=
  {| Line := incr (Line p); Col := 1 |}.

End file.

(** ** Package [token]: token types and the vocabulary *)
Module token.

(** The enumeration [Type], in declaration order; the six [..Beg] and
    [..End] values delimit the bands and are no token types. *)
Inductive TokenType :=
| EOF | Illegal | Comment
| literalBeg
| Identifier | Number | Rune | String
| literalEnd
| operatorBeg
| Plus | Minus | Star | Slash | Percent
| Tilde | Amp | Bar | Caret | LessLess | MoreMore
| PlusEqual | MinusEqual | StarEqual | SlashEqual | PercentEqual
| AmpEqual | BarEqual | CaretEqual | LessLessEqual | MoreMoreEqual
| EqualEqual | Less | More | Equal | Bang
| BangEqual | LessEqual | MoreEqual
| LeftParen | LeftBrack | LeftBrace | Comma | Period
| RightParen | RightBrack | RightBrace | Semicolon | Colon
| operatorEnd
| keywordBeg
| Underscore
| For | If | Else
| Let | Const
| Func
| Break | Continue | Return | Fall
| TypeDec | Struct | Enum | Interface
| Namespace
| keywordEnd.

#[global] Instance TokenType_eq_dec : EqDecision TokenType.
Proof. solve_decision. Defined.

(** The values [0 .. len(typeToString) - 1] a [range] over the table
    visits, in order. *)
Definition typeRange : list TokenType :=
  [ EOF; Illegal; Comment; literalBeg; Identifier; Number; Rune; String;
    literalEnd; operatorBeg; Plus; Minus; Star; Slash; Percent;
    Tilde; Amp; Bar; Caret; LessLess; MoreMore;
    PlusEqual; MinusEqual; StarEqual; SlashEqual; PercentEqual;
    AmpEqual; BarEqual; CaretEqual; LessLessEqual; MoreMoreEqual;
    EqualEqual; Less; More; Equal; Bang; BangEqual; LessEqual; MoreEqual;
    LeftParen; LeftBrack; LeftBrace; Comma; Period;
    RightParen; RightBrack; RightBrace; Semicolon; Colon;
    operatorEnd; keywordBeg; Underscore; For; If; Else; Let; Const; Func;
    Break; Continue; Return; Fall; TypeDec; Struct; Enum; Interface;
    Namespace ].

(** The [iota] value of a type: its place in the declaration. *)
Definition iota (t : TokenType) : Z :=
  match list_find (fun u => u = t) (typeRange ++ [keywordEnd]) with
  | Some (i, _) => Z.of_nat i
  | None => 0
  end.

Record Token := { Type_ : TokenType; Literal : string; Pos : file.Pos }.

Record tokenInfo := { name : string; literal : string }.

Definition typeToString (t : TokenType) : tokenInfo :=
  let info := Build_tokenInfo in
  match t with
  | EOF => info "EOF" ":EOF:"
  | Illegal => info "ILLEGAL" ":ILLEGAL:"
  | Comment => info "COMMENT" ":COMMENT:"
  | Identifier => info "IDENT" ":IDENT:"
  | Number => info "NUMBER" ":NUMBER:"
  | Rune => info "RUNE" ":RUNE:"
  | String => info "STRING" ":STRING:"
  | Plus => info "PLUS" "+"
  | Minus => info "MINUS" "-"
  | Star => info "STAR" "*"
  | Slash => info "SLASH" "/"
  | Percent => info "PERCENT" "%"
  | Tilde => info "TILDE" "~"
  | Amp => info "AMPERSAND" "&"
  | Bar => info "BAR" "|"
  | Caret => info "CARET" "^"
  | LessLess => info "LESS_LESS" "<<"
  | MoreMore => info "MORE_MORE" ">>"
  | PlusEqual => info "PLUS_EQUAL" "+="
  | MinusEqual => info "MINUS_EQUAL" "-="
  | StarEqual => info "STAR_EQUAL" "*="
  | SlashEqual => info "SLASH_EQUAL" "/="
  | PercentEqual => info "PERCENT_EQUAL" "%="
  | AmpEqual => info "AMP_EQUAL" "&="
  | BarEqual => info "BAR_EQUAL" "|="
  | CaretEqual => info "CARET_EQUAL" "^="
  | LessLessEqual => info "LESS_LESS_EQUAL" "<<="
  | MoreMoreEqual => info "MORE_MORE_EQUAL" ">>="
  | EqualEqual => info "EQUAL_EQUAL" "=="
  | Less => info "LESS" "<"
  | More => info "MORE" ">"
  | Equal => info "EQUAL" "="
  | Bang => info "BANG" "!"
  | BangEqual => info "BANG_EQUAL" "!="
  | LessEqual => info "LESS_EQUAL" "<="
  | MoreEqual => info "MORE_EQUAL" ">="
  | LeftParen => info "LEFT_PAREN" "("
  | LeftBrack => info "LEFT_BRACK" "["
  | LeftBrace => info "LEFT_BRACE" "{"
  | Comma => info "COMMA" ","
  | Period => info "PERIOD" "."
  | RightParen => info "RIGHT_PAREN" ")"
  | RightBrack => info "RIGHT_BRACK" "]"
  | RightBrace => info "RIGHT_BRACE" "}"
  | Semicolon => info "SEMICOLON" ";"
  | Colon => info "COLON" ":"
  | Underscore => info "UNDERSCORE" "_"
  | For => info "FOR" "for"
  | If => info "IF" "if"
  | Else => info "ELSE" "else"
  | Let => info "LET" "let"
  | Const => info "CONST" "const"
  | Func => info "FUNC" "func"
  | Break => info "BREAK" "break"
  | Continue => info "CONTINUE" "continue"
  | Return => info "RETURN" "return"
  | Fall => info "FALLTHROUGH" "fallthrough"
  | TypeDec => info "TYPE" "type"
  | Struct => info "STRUCT" "struct"
  | Enum => info "ENUM" "enum"
  | Interface => info "INTERFACE" "interface"
  | Namespace => info "NAMESPACE" "namespace"
  | literalBeg | literalEnd | operatorBeg | operatorEnd | keywordBeg | keywordEnd =>
    info "" ""
  end.

(** [init]: every type with a literal is entered under that literal. *)
Definition stringToType : gmap string TokenType :=
  foldl (fun m t =>
           if decide (literal (typeToString t) = "") then m
           else <[literal (typeToString t) := t]> m)
        ∅ typeRange.

(** A string outside the map yields the zero value of [Type], [EOF]. *)
Definition NewTokenType (str : string) : TokenType :=
  default EOF (stringToType !! str).

Definition IsLiteral (tok : TokenType) : bool :=
  (iota literalBeg <? iota tok) && (iota tok <? iota literalEnd).

Definition IsOperatorType (tok : TokenType) : bool :=
  (iota operatorBeg <? iota tok) && (iota tok <? iota operatorEnd).

Definition IsKeyword (tok : TokenType) : bool :=
  (iota keywordBeg <? iota tok) && (iota tok <? iota keywordEnd).

Definition InsertSemiAfter (tok : TokenType) : bool :=
  if IsLiteral tok then true
  else
    match tok with
    | RightParen | RightBrack | RightBrace | Break | Continue | Return => true
    | _ => false
    end.

Definition IsOperator (s : string) : bool := IsOperatorType (NewTokenType s).

Definition Lookup (name : string) : TokenType :=
  match stringToType !! name with
  | Some tok => if IsKeyword tok then tok else Identifier
  | None => Identifier
  end.

(** [IsDigit]: is [r] a digit of the given base. *)
Definition IsDigit (r : rune) (base : Z) : bool :=
  if ((rn "A" <=? r) && (r <=? rn "F")) || ((rn "a" <=? r) && (r <=? rn "f"))
  then base =? 16
  else if (r =? rn "8") || (r =? rn "9") then 10 <=? base
  else if (rn "2" <=? r) && (r <=? rn "7") then 8 <=? base
  else if (r =? rn "0") || (r =? rn "1") then true
  else false.

End token.

(** ** Package [lexer]: the scanning engine *)
Module lexer.

Import file.

Definition eof : rune := -1.
Definition bom : rune := 0xFEFF.
Definition newline : rune := 10.
Definition dquote : rune := 34.

(** The causes the lexer reports, one constructor per message; the
    arguments are those handed to [fmt.Errorf]. *)
Inductive cause :=
| ErrUnexpectedRune (r : rune)
| ErrHexExponent (r : rune)
| ErrExpectedDigits (base : Z) (found : rune)
| ErrUnclosedRuneLit
| ErrEmptyRuneLiteral
| ErrTooManyRuneChars
| ErrUnclosedStringLit
| ErrIllegalPrefix (r : rune)
| ErrHexEscape (prefix : string) (digits : Z)
| ErrInvalidCodepoint (prefix hexDigits : string)
| ErrIllegalBOM
| ErrIllegalUTF8
| ErrRead (message : string).

Record Error := { pos : Pos; err : cause }.

(** One call of [source.ReadRune]: a rune with its width, or a
    failure other than [io.EOF].  The reader answers [io.EOF] once its
    results are used up, and keeps answering so. *)
Inductive ReadResult :=
| RuneRead (char : rune) (size : Z)
| ReadFailure (message : string).

(** The state of a [Lexer].  The channel [tokenStream] is unbuffered,
    so it is represented by the tokens sent on it so far, oldest first;
    it is closed exactly when [closed] is set.  [handled] lists the
    errors given to [errorHandler], oldest first, and [panicked] records
    a send on the closed channel, which ends the scanning goroutine. *)
Record Lexer := {
  source : list ReadResult;
  current : rune;
  tokenStream : list token.Token;
  closed : bool;
  Errors : Z;
  handled : list Error;
  insertSemi : bool;
  tokenStart : Pos;
  tokenEnd : Pos;
  tokenLiteral : string;
  panicked : bool
}.

Definition withSource (v : list ReadResult) (l : Lexer) : Lexer :=
  {| source := v; current := current l; tokenStream := tokenStream l;
     closed := closed l; Errors := Errors l; handled := handled l;
     insertSemi := insertSemi l; tokenStart := tokenStart l;
     tokenEnd := tokenEnd l; tokenLiteral := tokenLiteral l;
     panicked := panicked l |}.

Definition withCurrent (v : rune) (l : Lexer) : Lexer :=
  {| source := source l; current := v; tokenStream := tokenStream l;
     closed := closed l; Errors := Errors l; handled := handled l;
     insertSemi := insertSemi l; tokenStart := tokenStart l;
     tokenEnd := tokenEnd l; tokenLiteral := tokenLiteral l;
     panicked := panicked l |}.

Definition withInsertSemi (v : bool) (l : Lexer) : Lexer :=
  {| source := source l; current := current l; tokenStream := tokenStream l;
     closed := closed l; Errors := Errors l; handled := handled l;
     insertSemi := v; tokenStart := tokenStart l;
     tokenEnd := tokenEnd l; tokenLiteral := tokenLiteral l;
     panicked := panicked l |}.

Definition raiseAt (p : Pos) (e : cause) (l : Lexer) : Lexer :=
  {| source := source l; current := current l; tokenStream := tokenStream l;
     closed := closed l; Errors := incr (Errors l);
     handled := handled l ++ [{| pos := p; err := e |}];
     insertSemi := insertSemi l; tokenStart := tokenStart l;
     tokenEnd := tokenEnd l; tokenLiteral := tokenLiteral l;
     panicked := panicked l |}.

Definition raise (e : cause) (l : Lexer) : Lexer := raiseAt (tokenEnd l) e l.

Definition raiseAtTop (e : cause) (l : Lexer) : Lexer := raiseAt (tokenStart l) e l.

Definition HasErrors (l : Lexer) : bool := 0 <? Errors l.

Definition close (l : Lexer) : Lexer :=
  if closed l then l
  else
    {| source := source l; current := eof; tokenStream := tokenStream l;
       closed := true; Errors := Errors l; handled := handled l;
       insertSemi := insertSemi l; tokenStart := tokenStart l;
       tokenEnd := tokenEnd l; tokenLiteral := tokenLiteral l;
       panicked := panicked l |}.

(** The loop of [readRune] over the results the reader still holds. *)
Fixpoint readLoop (src : list ReadResult) (first : bool) (l : Lexer) : rune * Lexer :=
  match src with
  | [] => (eof, withSource [] l)
  | RuneRead char size :: rest =>
    if (char =? utf8.RuneError) && (size =? 1)
    then readLoop rest first (raise ErrIllegalUTF8 l)
    else if char =? bom
    then readLoop rest false (if first then l else raise ErrIllegalBOM l)
    else (char, withSource rest l)
  | ReadFailure e :: rest => (eof, close (raise (ErrRead e) (withSource rest l)))
  end.

Definition readRune (first : bool) (l : Lexer) : rune * Lexer :=
  if closed l then (eof, l) else readLoop (source l) first l.

(** [Lex] up to the start of the scanning goroutine. *)
Definition Lex (src : list ReadResult) : Lexer :=
  let lexer :=
    {| source := src; current := 0; tokenStream := []; closed := false;
       Errors := 0; handled := []; insertSemi := false;
       tokenStart := Origin; tokenEnd := Origin; tokenLiteral := "";
       panicked := false |} in
  let (r, lexer') := readRune true lexer in
  withCurrent r lexer'.

Definition discard (l : Lexer) : Lexer :=
  {| source := source l; current := current l; tokenStream := tokenStream l;
     closed := closed l; Errors := Errors l; handled := handled l;
     insertSemi := insertSemi l; tokenStart := tokenEnd l;
     tokenEnd := tokenEnd l; tokenLiteral := "";
     panicked := panicked l |}.

(** The send [tokenStream <- tok]: on the closed channel it panics. *)
Definition send (tok : token.Token) (l : Lexer) : Lexer :=
  {| source := source l; current := current l;
     tokenStream := if closed l then tokenStream l else tokenStream l ++ [tok];
     closed := closed l; Errors := Errors l; handled := handled l;
     insertSemi := insertSemi l; tokenStart := tokenStart l;
     tokenEnd := tokenEnd l; tokenLiteral := tokenLiteral l;
     panicked := closed l |}.

Definition emit (tokenType : token.TokenType) (l : Lexer) : Lexer :=
  let l1 :=
    if decide (tokenType = token.Comment) then l
    else withInsertSemi (token.InsertSemiAfter tokenType) l in
  let l2 :=
    send {| token.Type_ := tokenType; token.Literal := tokenLiteral l1;
            token.Pos := tokenStart l1 |} l1 in
  if panicked l2 then l2 else discard l2.

Definition consume (l : Lexer) : Lexer :=
  let moved := NextCharacter (tokenEnd l) in
  let l1 :=
    {| source := source l; current := current l; tokenStream := tokenStream l;
       closed := closed l; Errors := Errors l; handled := handled l;
       insertSemi := insertSemi l; tokenStart := tokenStart l;
       tokenEnd := if current l =? newline then NextLine moved else moved;
       tokenLiteral := tokenLiteral l ++ utf8.string_of_rune (current l);
       panicked := panicked l |} in
  let (r, l2) := readRune false l1 in
  withCurrent r l2.

(** The consumer's side, for a scan that has closed the channel.
    [NextToken] first reads [closed], a read that races with the
    scanning goroutine; [seesClosed] is what it read.  Otherwise it
    receives: the next token sent, or the zero [Token] of the closed
    channel when all were received.  [received] counts the earlier
    receptions. *)
Definition zeroToken : token.Token :=
  {| token.Type_ := token.EOF; token.Literal := "";
     token.Pos := {| Line := 0; Col := 0 |} |}.

Definition NextToken (seesClosed : bool) (received : nat) (l : Lexer) : token.Token :=
  if seesClosed
  then {| token.Type_ := token.EOF; token.Literal := ""; token.Pos := tokenStart l |}
  else nth received (tokenStream l) zeroToken.

Section Engine.

Variable T : unicode.Tables.

(** Every loop of the engine has the shape [for cond { consume() }] or
    consumes at least one rune per turn, so it runs at most once per
    rune still to come, and once more to see the end marker. *)
Definition turns (l : Lexer) : nat := S (S (length (source l))).

Fixpoint consumeWhile (cond : Lexer -> bool) (fuel : nat) (l : Lexer) : Lexer :=
  match fuel with
  | O => l
  | S fuel' => if cond l then consumeWhile cond fuel' (consume l) else l
  end.

Definition discardWhitespace (l : Lexer) : Lexer :=
  discard (consumeWhile (fun l => unicode.IsSpace T (current l)) (turns l) l).

Definition identifierRune (r : rune) : bool :=
  unicode.IsLetter T r || unicode.IsDigit T r || (r =? rn "_").

Definition consumeIdentifier (l : Lexer) : Lexer :=
  consumeWhile (fun l => identifierRune (current l)) (turns l) l.

Definition lexIdentifier (l : Lexer) : Lexer :=
  let l1 := consumeIdentifier l in
  emit (token.Lookup (tokenLiteral l1)) l1.

Definition consumeDigits (base : Z) (required : bool) (l : Lexer) : Lexer :=
  let l1 :=
    if negb (token.IsDigit (current l) base) && required
    then raise (ErrExpectedDigits base (current l)) l
    else l in
  consumeWhile (fun l => token.IsDigit (current l) base) (turns l1) l1.

(** The exponent of a number, from the [switch] on: [None] is the
    [default] case, which returns at once. *)
Definition exponentIndicator (base : Z) (l : Lexer) : option Lexer :=
  let lower := unicode.ToLower T (current l) in
  if ((base =? 16) && (lower =? rn "p")) || ((base =? 10) && (lower =? rn "e"))
  then Some l
  else if (base =? 10) && (lower =? rn "p")
  then Some (raise (ErrHexExponent (current l)) l)
  else None.

(** [lexNumber] up to the label [lexingNumberBase]: the base, whether
    digits are required ([cantBe0]), and the state once a prefix is
    consumed. *)
Definition numberPrefix (l : Lexer) : Z * bool * Lexer :=
  if current l =? rn "0" then
    let l' := consume l in
    let c := current l' in
    if (c =? rn "x") || (c =? rn "X") then (16, true, consume l')
    else if (c =? rn "o") || (c =? rn "O") then (8, true, consume l')
    else if (c =? rn "b") || (c =? rn "B") then (2, true, consume l')
    else (8, false, l')
  else (10, false, l).

(** [lexNumber] from the label on, up to its return. *)
Definition numberBody (base : Z) (cantBe0 : bool) (l1 : Lexer) : Lexer :=
  let l2 := consumeDigits base cantBe0 l1 in
  if base <? 10 then l2
  else
    let l3 :=
      if current l2 =? rn "." then consumeDigits base true (consume l2) else l2 in
    match exponentIndicator base l3 with
    | None => l3
    | Some l4 =>
      let l5 := consume l4 in
      let l6 :=
        if (current l5 =? rn "+") || (current l5 =? rn "-") then consume l5 else l5 in
      consumeDigits 10 true l6
    end.

(** The deferred [emit] runs on every return. *)
Definition lexNumber (l : Lexer) : Lexer :=
  let '(base, cantBe0, l1) := numberPrefix l in
  emit token.Number (numberBody base cantBe0 l1).

Definition hexValue (b : ascii) : Z :=
  let c := utf8.code b in
  if (rn "0" <=? c) && (c <=? rn "9") then c - rn "0"
  else if (rn "a" <=? c) && (c <=? rn "f") then c - rn "a" + 10
  else c - rn "A" + 10.

(** [strconv.ParseInt(s, 16, 32)] on hexadecimal digits, the error
    dropped: a value beyond [int32] comes back as the largest [int32]. *)
Definition ParseInt16 (s : string) : Z :=
  let un := fold_left (fun acc b => acc * 16 + hexValue b) (list_ascii_of_string s) 0 in
  if 2 ^ 31 <=? un then 2 ^ 31 - 1 else un.

(** The digits of a hex escape: [None] when a digit is missing, after
    the error is raised. *)
Fixpoint consumeHexDigits (prefix : string) (digits : Z) (todo : nat)
    (hexDigits : string) (l : Lexer) : option string * Lexer :=
  match todo with
  | O => (Some hexDigits, l)
  | S todo' =>
    if negb (token.IsDigit (current l) 16)
    then (None, raise (ErrHexEscape prefix digits) l)
    else consumeHexDigits prefix digits todo'
           (hexDigits ++ utf8.string_of_rune (current l)) (consume l)
  end.

Definition consumeEscape (quote : rune) (l : Lexer) : Lexer :=
  let l1 := consume l in
  let c := current l1 in
  let prefix := utf8.string_of_rune c in
  let '(digits, l2) :=
    if (c =? quote) || (c =? rn "\") || (c =? rn "v") || (c =? rn "t")
       || (c =? rn "r") || (c =? rn "n") || (c =? rn "f") || (c =? rn "b")
       || (c =? rn "a")
    then (0, l1)
    else if c =? rn "x" then (2, l1)
    else if c =? rn "u" then (4, l1)
    else if c =? rn "U" then (8, l1)
    else (0, raise (ErrIllegalPrefix c) l1) in
  let l3 := consume l2 in
  if 0 <? digits then
    match consumeHexDigits prefix digits (Z.to_nat digits) "" l3 with
    | (None, l4) => l4
    | (Some hexDigits, l4) =>
      if negb (utf8.ValidRune (ParseInt16 hexDigits))
      then raise (ErrInvalidCodepoint prefix hexDigits) l4
      else l4
    end
  else l3.

Definition consumeRune (quote : rune) (l : Lexer) : Lexer :=
  if current l =? rn "\" then consumeEscape quote l else consume l.

(** The loop of [lexRune]: [None] when the literal is not closed, after
    the error is raised; otherwise the number of characters consumed. *)
Fixpoint runeChars (fuel : nat) (charsConsumed : Z) (l : Lexer) : option Z * Lexer :=
  match fuel with
  | O => (None, l)
  | S fuel' =>
    if current l =? rn "'" then (Some charsConsumed, l)
    else if (current l =? eof) || (current l =? newline)
    then (None, raise ErrUnclosedRuneLit l)
    else runeChars fuel' (incr charsConsumed) (consumeRune (rn "'") l)
  end.

Definition lexRune (l : Lexer) : Lexer :=
  let l1 := consume l in
  match runeChars (turns l1) 0 l1 with
  | (None, l2) => l2
  | (Some charsConsumed, l2) =>
    let l3 := consume l2 in
    let l4 :=
      if 1 <? charsConsumed then raiseAtTop ErrTooManyRuneChars l3
      else if charsConsumed <? 1 then raiseAtTop ErrEmptyRuneLiteral l3
      else l3 in
    emit token.Rune l4
  end.

(** The loop of [lexString]: [false] when the literal is not closed. *)
Fixpoint stringChars (fuel : nat) (l : Lexer) : bool * Lexer :=
  match fuel with
  | O => (false, l)
  | S fuel' =>
    if current l =? dquote then (true, l)
    else if (current l =? eof) || (current l =? newline)
    then (false, raise ErrUnclosedStringLit l)
    else stringChars fuel' (consumeRune dquote l)
  end.

Definition lexString (l : Lexer) : Lexer :=
  let l1 := consume l in
  match stringChars (turns l1) l1 with
  | (false, l2) => l2
  | (true, l2) => emit token.String (consume l2)
  end.

Definition lexOperator (l : Lexer) : Lexer :=
  let l1 :=
    consumeWhile
      (fun l => token.IsOperator (tokenLiteral l ++ utf8.string_of_rune (current l)))
      (turns l) l in
  emit (token.NewTokenType (tokenLiteral l1)) l1.

Definition lexComment (l : Lexer) : Lexer :=
  emit token.Comment
    (consumeWhile (fun l => negb (current l =? newline) && negb (current l =? eof))
       (turns l) l).

(** One turn of the main loop of [lex]; the flag tells that the
    goroutine is over, by [break lexing] or by a panic. *)
Definition lexOnce (l : Lexer) : Lexer * bool :=
  let next (l' : Lexer) := (l', panicked l') in
  let c := current l in
  if unicode.IsLetter T c then next (lexIdentifier l)
  else if c =? rn "_" then next (emit token.Underscore (consume l))
  else if c =? rn "\" then
    next (emit token.Identifier (consume (consumeIdentifier (consume l))))
  else if unicode.IsDigit T c then next (lexNumber l)
  else if c =? rn "'" then next (lexRune l)
  else if c =? dquote then next (lexString l)
  else if token.IsOperator (utf8.string_of_rune c) then next (lexOperator l)
  else if c =? rn "#" then next (lexComment l)
  else if (c =? newline) && insertSemi l then next (emit token.Semicolon l)
  else if (c =? newline) || unicode.IsSpace T c then next (discardWhitespace l)
  else if c =? eof then (close l, true)
  else next (emit token.Illegal (consume (raise (ErrUnexpectedRune c) l))).

(** [lex] for at most [n] turns of its loop: the state reached, and
    whether the goroutine is over. *)
Fixpoint lex (n : nat) (l : Lexer) : Lexer * bool :=
  match n with
  | O => (l, false)
  | S n' =>
    let (l', over) := lexOnce l in
    if over then (l', true) else lex n' l'
  end.

End Engine.

(** The results of [bufio.Reader.ReadRune] over the bytes of a string
    held in memory: [utf8.DecodeRune] at each rune boundary.  [skip]
    counts the bytes of the current rune still to pass. *)
Fixpoint readRunes (skip : nat) (s : string) : list ReadResult :=
  match s with
  | EmptyString => []
  | String _ rest =>
    match skip with
    | S skip' => readRunes skip' rest
    | O =>
      let (r, size) := utf8.DecodeRune s in
      RuneRead r size :: readRunes (Z.to_nat size - 1) rest
    end
  end.

Definition NewReader (s : string) : list ReadResult := readRunes 0 s.

End lexer.

(** * Specification *)

Import lexer.

(** Strings with the two characters a Rocq string cannot spell. *)
Definition quoted (s : string) : string := String (ascii_of_nat 34) s.
Definition line (s : string) : string :=
  (s ++ String (ascii_of_nat 10) EmptyString)%string.

Definition tok (t : token.TokenType) (lit : string) (ln col : Z) : token.Token :=
  {| token.Type_ := t; token.Literal := lit;
     token.Pos := {| file.Line := ln; file.Col := col |} |}.

Definition at_ (ln col : Z) (e : cause) : Error :=
  {| pos := {| file.Line := ln; file.Col := col |}; err := e |}.

(** The terminal token: end-of-stream, with no text. *)
Definition terminal (t : token.Token) : Prop :=
  token.Type_ t = token.EOF /\ token.Literal t = "".

(** Lexicographic order on positions. *)
Definition pos_le (p q : file.Pos) : Prop :=
  file.Line p < file.Line q \/ (file.Line p = file.Line q /\ file.Col p <= file.Col q).

(** The tables with nothing above Latin-1; the instances at the end of
    the file use them on inputs that are ASCII. *)
Definition latin1Tables : unicode.Tables :=
  {| unicode.Letter := []; unicode.Digit := []; unicode.White_Space := [];
     unicode.CaseRanges := [] |}.

(** The Arabic-Indic digits, a row of the Unicode table of decimal
    digits: on the digit one of that script (bytes D9 A1) the scan goes
    on for ever. *)
Definition arabicDigits : unicode.Tables :=
  {| unicode.Letter := [];
     unicode.Digit := [{| unicode.Lo := 0x660; unicode.Hi := 0x669; unicode.Stride := 1 |}];
     unicode.White_Space := []; unicode.CaseRanges := [] |}.

Section Scan.

Variable T : unicode.Tables.

(** The scan of a string held in memory, after [n] turns of the loop. *)
Definition scan (n : nat) (input : string) : Lexer :=
  fst (lex T n (Lex (NewReader input))).

(** Whether the goroutine is over by then. *)
Definition over (n : nat) (input : string) : bool :=
  snd (lex T n (Lex (NewReader input))).

(** The types after which a newline ends the statement. *)
Definition semiAfter : list token.TokenType :=
  [ token.Identifier; token.Number; token.Rune; token.String;
    token.RightParen; token.RightBrack; token.RightBrace;
    token.Break; token.Continue; token.Return ].

(** What is left to read: the results the reader still holds, and the
    current rune unless it is the end marker. *)
Definition avail (l : Lexer) : nat :=
  if closed l then O else length (source l).

(** The runes still to be consumed, at most. *)
Definition left (l : Lexer) : nat :=
  (avail l + if (current l =? eof)%Z then 0 else 1)%nat.

(** The last byte of a string. *)
Fixpoint lastByte (s : string) : option ascii :=
  match s with
  | EmptyString => None
  | String a EmptyString => Some a
  | String _ rest => lastByte rest
  end.

(** Reading touches the reader, the current rune and the error log,
    and nothing of the token under construction. *)
Definition sameWindow (l l' : Lexer) : Prop :=
  tokenStream l' = tokenStream l /\ insertSemi l' = insertSemi l
  /\ tokenStart l' = tokenStart l /\ tokenEnd l' = tokenEnd l
  /\ tokenLiteral l' = tokenLiteral l /\ panicked l' = panicked l.

(** The move [consume] makes with the end cursor on the rune [r]. *)
Definition advance (p : file.Pos) (r : rune) : file.Pos :=
  if r =? newline then file.NextLine (file.NextCharacter p) else file.NextCharacter p.

(** A position of the source: line and column from 1. *)
Definition posOK (p : file.Pos) : Prop := 1 <= file.Line p /\ 1 <= file.Col p.

(** The largest [int]. *)
Definition MaxInt : Z := 2 ^ 63 - 1.

(** A bound on what the end cursor can still gain: each rune read
    moves it by one, and the end marker is consumed only right after a
    rune was. *)
Definition budget (l : Lexer) : Z :=
  file.Line (tokenEnd l) + file.Col (tokenEnd l)
  + 3 * Z.of_nat (avail l) + (if current l =? eof then 0 else 2).

(** The two cursors are in order, and the tokens sent so far are in
    order and not after the start cursor. *)
Definition placed (l : Lexer) : Prop :=
  posOK (tokenStart l) /\ posOK (tokenEnd l)
  /\ pos_le (tokenStart l) (tokenEnd l)
  /\ StronglySorted pos_le (map token.Pos (tokenStream l))
  /\ Forall (fun t => posOK (token.Pos t) /\ pos_le (token.Pos t) (tokenStart l))
       (tokenStream l).

(** The invariant of the scan; [c] counts the runes consumed and not
    yet accounted for. *)
Definition Inv (c : Z) (l : Lexer) : Prop :=
  0 <= c /\ placed l /\ budget l + c < MaxInt.

(** Once the engine is closed the current rune is the end marker. *)
Definition closedAtEof (c : Z) (l : Lexer) : Prop :=
  0 <= c /\ (closed l = true -> current l = eof).

(** The scanning functions send nothing. *)
Definition streamIs (ts : list token.Token) (c : Z) (l : Lexer) : Prop :=
  0 <= c /\ tokenStream l = ts.

(** Every turn ends by discarding the literal, except when a quoted
    literal is left open: then the current rune ends the line or the
    input. *)
Definition Top (l : Lexer) : Prop :=
  tokenLiteral l = EmptyString \/ current l = eof \/ current l = newline.

(** An underscore token is one underscore. *)
Definition oneUnderscore (t : token.Token) : Prop :=
  token.Type_ t = token.Underscore -> token.Literal t = "_"%string.

(** The claim on the underscore token as the specification words it:
    whenever a turn of the loop sends the underscore token, the rune
    that follows the underscore is no letter, digit or underscore. *)
Definition underscore_stands_alone : Prop :=
  forall src n l t,
    lex T n (Lex src) = (l, false) ->
    tokenStream (fst (lexOnce T l)) = tokenStream l ++ [t] ->
    token.Type_ t = token.Underscore ->
    identifierRune T (current (fst (lexOnce T l))) = false.

(** A read that [readRune] returns at once: no byte-order mark and no
    byte that fails to decode. *)
Definition plain (c : rune) (size : Z) : Prop :=
  c <> bom /\ ~ (c = utf8.RuneError /\ size = 1).

(** The state [consume] leaves when the next rune is [r] and the reader
    keeps [rest]. *)
Definition consumed (l : Lexer) (r : rune) (rest : list ReadResult) : Lexer :=
  {| source := rest; current := r; tokenStream := tokenStream l;
     closed := closed l; Errors := Errors l; handled := handled l;
     insertSemi := insertSemi l; tokenStart := tokenStart l;
     tokenEnd := advance (tokenEnd l) (current l);
     tokenLiteral := tokenLiteral l ++ utf8.string_of_rune (current l);
     panicked := panicked l |}.

(** Ordinary text inside a string literal: a rune read as it is, other
    than the closing quote, the backslash and the end of the line. *)
Definition ordinary (r : ReadResult) : Prop :=
  match r with
  | RuneRead c size =>
    plain c size /\ c <> dquote /\ c <> rn "\" /\ c <> newline /\ c <> eof
  | ReadFailure _ => False
  end.

(** A read that does not fail. *)
Definition notFailure (r : ReadResult) : Prop :=
  match r with ReadFailure _ => False | RuneRead _ _ => True end.

(** A read that belongs to the run of an identifier, and the text of
    such a run. *)
Definition identRead (r : ReadResult) : Prop :=
  match r with
  | RuneRead c size => plain c size /\ identifierRune T c = true
  | ReadFailure _ => False
  end.

Fixpoint runText (run : list ReadResult) : string :=
  match run with
  | RuneRead c _ :: rest => utf8.string_of_rune c ++ runText rest
  | _ => EmptyString
  end.

(** What follows the run: the end of the input, or a rune that is no
    part of an identifier. *)
Definition stopsRun (tail : list ReadResult) : Prop :=
  match tail with
  | [] => True
  | RuneRead c size :: _ => plain c size /\ identifierRune T c = false
  | ReadFailure _ :: _ => False
  end.

(** The rune that stops the run: the end marker at the end of the
    input. *)
Definition headRune (tail : list ReadResult) : rune :=
  match tail with
  | RuneRead c _ :: _ => c
  | _ => eof
  end.

(** ** Notions of the further properties *)

(** The types that belong to no band: the special ones and the six
    boundary values. *)
Definition bandless : list token.TokenType :=
  [ token.EOF; token.Illegal; token.Comment;
    token.literalBeg; token.literalEnd; token.operatorBeg; token.operatorEnd;
    token.keywordBeg; token.keywordEnd ].

(** [p] is a prefix of [s], and not the empty one. *)
Definition properPrefix (p s : string) : Prop :=
  p <> EmptyString /\ exists q, s = (p ++ q)%string.

(** The error counter counts the calls of the handler. *)
Definition counted (c : Z) (l : Lexer) : Prop :=
  0 <= c /\ Errors l = wrap_int (Z.of_nat (length (handled l))).

(** [l] comes after [l0]: the tokens sent and the errors handled at [l0]
    are still there, in the same places. *)
Definition growsFrom (l0 l : Lexer) : Prop :=
  (exists ts, tokenStream l = tokenStream l0 ++ ts)
  /\ (exists es, handled l = handled l0 ++ es).

Definition grown (l0 : Lexer) (c : Z) (l : Lexer) : Prop :=
  0 <= c /\ growsFrom l0 l.

(** A state from which [emit] does not panic: the channel is open and
    no read to come fails. *)
Definition sound (c : Z) (l : Lexer) : Prop :=
  0 <= c /\ closed l = false /\ panicked l = false
  /\ Forall notFailure (source l).

(** The current rune is never a byte-order mark, and is the end marker
    once the channel is closed. *)
Definition noMark (c : Z) (l : Lexer) : Prop :=
  0 <= c /\ current l <> bom /\ (closed l = true -> current l = eof).

(** What the type of a token says of its text: an operator or a keyword
    carries its own literal, the semicolon apart, which a newline may
    stand for; the text of the others is free.  The end-of-stream type
    and the boundary values fit none of the cases. *)
Definition typed (t : token.TokenType) (lit : string) : Prop :=
  token.IsLiteral t = true \/ t = token.Illegal \/ t = token.Comment
  \/ t = token.Semicolon
  \/ ((token.IsOperatorType t = true \/ token.IsKeyword t = true)
      /\ lit = token.literal (token.typeToString t)).

Definition wellTyped (tk : token.Token) : Prop :=
  typed (token.Type_ tk) (token.Literal tk).

(** A rune on which [lexNumber] advances when [lex] calls it: a decimal
    digit for [unicode.IsDigit] that is one for [token.IsDigit].  The
    ASCII digits are the only such digits. *)
Definition tame (T : unicode.Tables) (r : rune) : Prop :=
  unicode.IsDigit T r = true -> token.IsDigit r 10 = true.

Definition tameRead (T : unicode.Tables) (rd : ReadResult) : Prop :=
  match rd with RuneRead c _ => tame T c | ReadFailure _ => True end.

(** What is left of the work: two for each rune to consume, one for a
    semicolon to insert. *)
Definition toDo (l : Lexer) : nat :=
  (2 * left l + if insertSemi l then 1 else 0)%nat.

(** The invariant of the count: [c] runes were consumed since the state
    that had [K] left. *)
Definition ebbs (T : unicode.Tables) (K : Z) (c : Z) (l : Lexer) : Prop :=
  0 <= c /\ Z.of_nat (left l) + c <= K
  /\ tame T (current l) /\ Forall (tameRead T) (source l)
  /\ (panicked l = true -> closed l = true).

(** A read of a run of the class [p]: a rune of the class, returned as
    it is read. *)
Definition runOf (p : rune -> bool) (rd : ReadResult) : Prop :=
  match rd with
  | RuneRead c size => plain c size /\ p c = true
  | ReadFailure _ => False
  end.

(** What ends the run: the end of the input, or a rune outside the
    class. *)
Definition endsRun (p : rune -> bool) (tail : list ReadResult) : Prop :=
  match tail with
  | [] => True
  | RuneRead c size :: _ => plain c size /\ p c = false
  | ReadFailure _ :: _ => False
  end.

Fixpoint runes (run : list ReadResult) : list rune :=
  match run with
  | RuneRead c _ :: rest => c :: runes rest
  | _ => []
  end.

(** The end cursor once the runes [rs] are consumed. *)
Definition advanceAll (p : file.Pos) (rs : list rune) : file.Pos :=
  fold_left advance rs p.

(** The state once the current rune and the run are consumed. *)
Definition after (l : Lexer) (run tail : list ReadResult) : Lexer :=
  {| source := tl tail; current := headRune tail; tokenStream := tokenStream l;
     closed := closed l; Errors := Errors l; handled := handled l;
     insertSemi := insertSemi l; tokenStart := tokenStart l;
     tokenEnd := advanceAll (tokenEnd l) (current l :: runes run);
     tokenLiteral := tokenLiteral l ++ utf8.string_of_rune (current l) ++ runText run;
     panicked := panicked l |}.

(** The state [emit] leaves on the open channel. *)
Definition sent (t : token.TokenType) (semi : bool) (l : Lexer) : Lexer :=
  {| source := source l; current := current l;
     tokenStream := tokenStream l ++
       [{| token.Type_ := t; token.Literal := tokenLiteral l;
           token.Pos := tokenStart l |}];
     closed := false; Errors := Errors l; handled := handled l;
     insertSemi := semi; tokenStart := tokenEnd l; tokenEnd := tokenEnd l;
     tokenLiteral := ""; panicked := false |}.

(** The state once the current rune and the run are consumed and the
    next read has failed: the failure is reported at the end cursor and
    the channel closed. *)
Definition failed (l : Lexer) (run : list ReadResult) (msg : string)
    (rest : list ReadResult) : Lexer :=
  let endPos := advanceAll (tokenEnd l) (current l :: runes run) in
  {| source := rest; current := eof; tokenStream := tokenStream l;
     closed := true; Errors := incr (Errors l);
     handled := handled l ++ [{| pos := endPos; err := ErrRead msg |}];
     insertSemi := insertSemi l; tokenStart := tokenStart l;
     tokenEnd := endPos;
     tokenLiteral := tokenLiteral l ++ utf8.string_of_rune (current l) ++ runText run;
     panicked := panicked l |}.

(** What may follow a token: the end of the input, or a rune read as it
    is. *)
Definition readable (tail : list ReadResult) : Prop := endsRun (fun _ => false) tail.

Definition decimal (c : rune) : bool := token.IsDigit c 10.

(** A character of a rune literal that is no escape: a rune read as it
    is, other than the quote, the backslash and the end of the line. *)
Definition runeChar (rd : ReadResult) : Prop :=
  match rd with
  | RuneRead c size =>
    plain c size /\ c <> rn "'" /\ c <> rn "\" /\ c <> newline /\ c <> eof
  | ReadFailure _ => False
  end.

(** The counter of [lexRune] after the characters of [body]. *)
Definition countFrom (k : Z) (body : list ReadResult) : Z :=
  fold_left (fun k _ => incr k) body k.

(** What [lexRune] makes of the count. *)
Definition judged (k : Z) (l : Lexer) : Lexer :=
  if 1 <? k then raiseAtTop ErrTooManyRuneChars l
  else if k <? 1 then raiseAtTop ErrEmptyRuneLiteral l
  else l.

(** What the tokens sent ask for at the next newline: what the last of
    them that is no comment asks. *)
Definition pending (ts : list token.Token) : bool :=
  fold_left
    (fun flag tk =>
       if decide (token.Type_ tk = token.Comment) then flag
       else token.InsertSemiAfter (token.Type_ tk))
    ts false.

Definition flagged (c : Z) (l : Lexer) : Prop :=
  0 <= c /\ (panicked l = true -> closed l = true)
  /\ (panicked l = false -> insertSemi l = pending (tokenStream l)).

(** A byte that [hexValue] reads as a hexadecimal digit. *)
Definition hexByte (b : ascii) : Prop := 0 <= hexValue b <= 15.

(** The window is empty: no text is held and both cursors agree. *)
Definition settled (l : Lexer) : Prop :=
  tokenLiteral l = EmptyString /\ tokenStart l = tokenEnd l.

(** The state of a scanning function at work on the open channel: it
    sends nothing and leaves the start cursor alone. *)
Definition steady (ts : list token.Token) (p : file.Pos) (c : Z) (l : Lexer) : Prop :=
  0 <= c /\ closed l = false /\ Forall notFailure (source l)
  /\ tokenStream l = ts /\ tokenStart l = p.

(** * Proofs *)

Lemma lex_settled n m l : snd (lex T n l) = true -> lex T (n + m) l = lex T n l.
Proof.
  revert l; induction n as [|n IH]; intros l; simpl.
  - discriminate.
  - destruct (lexOnce T l) as [l' [|]]; [reflexivity | apply IH].
Qed.

Lemma NextToken_terminal seesClosed received l :
  (length (tokenStream l) <= received)%nat -> terminal (NextToken seesClosed received l).
Proof.
  intros H; unfold NextToken; destruct seesClosed; [split; reflexivity|].
  rewrite nth_overflow by exact H. split; reflexivity.
Qed.

Ltac settle := unfold scan, over; rewrite lex_settled by (vm_compute; reflexivity).

(** C4: the input [0x] gives one number token, then only the terminal
    token; the handler is called once, with the error that digits of base
    16 were expected, and the error counter ends at 1. *)
Theorem hex_prefix_without_digits :
  forall more,
    let final := scan (2 + more) "0x" in
    over (2 + more) "0x" = true
    /\ tokenStream final = [tok token.Number "0x" 1 1]
    /\ handled final = [at_ 1 3 (ErrExpectedDigits 16 eof)]
    /\ Errors final = 1
    /\ closed final = true /\ panicked final = false
    /\ forall seesClosed k, terminal (NextToken seesClosed (1 + k) final).
Proof.
  intros more final; subst final; settle.
  repeat split; try (vm_compute; reflexivity).
  - apply NextToken_terminal. vm_compute. lia.
  - apply NextToken_terminal. vm_compute. lia.
Qed.

(** C6: the input ['ab'] makes one call of the handler, with the
    too-many-characters error placed at the start of the literal (the
    opening quote, at the origin) and not at the end cursor, which stands
    at column 5; the character token is emitted all the same. *)
Theorem overlong_rune_literal :
  forall more,
    let final := scan (2 + more) "'ab'" in
    over (2 + more) "'ab'" = true
    /\ handled final = [at_ 1 1 ErrTooManyRuneChars]
    /\ Errors final = 1
    /\ tokenStart (Lex (NewReader "'ab'")) = file.Origin
    /\ tokenStream final = [tok token.Rune "'ab'" 1 1]
    /\ tokenEnd final = {| file.Line := 1; file.Col := 5 |}.
Proof.
  intros more final; subst final; settle.
  repeat split; vm_compute; reflexivity.
Qed.

(** C8: in a string literal, backslash-u with the digits 0041 raises no
    error; with the digits D800, a surrogate, it raises the invalid
    codepoint error once, the scan goes on, and the string token is
    emitted. *)
Theorem codepoint_escapes :
  (forall more,
     let final := scan (2 + more) (quoted ("\u0041" ++ quoted "")) in
     over (2 + more) (quoted ("\u0041" ++ quoted "")) = true
     /\ handled final = [] /\ Errors final = 0
     /\ tokenStream final = [tok token.String (quoted ("\u0041" ++ quoted "")) 1 1])
  /\ (forall more,
        let final := scan (2 + more) (quoted ("\uD800" ++ quoted "")) in
        over (2 + more) (quoted ("\uD800" ++ quoted "")) = true
        /\ handled final = [at_ 1 8 (ErrInvalidCodepoint "u" "D800")]
        /\ Errors final = 1
        /\ tokenStream final = [tok token.String (quoted ("\uD800" ++ quoted "")) 1 1]
        /\ closed final = true /\ panicked final = false).
Proof.
  split; intros more final; subst final; settle;
    repeat split; vm_compute; reflexivity.
Qed.

(** The input [08], evaluated: a number token [0] and then a number
    token [8], with no error. *)
Lemma scan_zero_eight :
  forall more,
    let final := scan (3 + more) "08" in
    over (3 + more) "08" = true
    /\ tokenStream final = [tok token.Number "0" 1 1; tok token.Number "8" 1 2]
    /\ handled final = [] /\ Errors final = 0.
Proof.
  intros more final; subst final; settle.
  repeat split; vm_compute; reflexivity.
Qed.

(** C2: [emit] of a comment leaves the insert-semicolon flag as it was;
    [emit] of any other type sets it exactly for the four literal types and
    for right paren, bracket and brace, [break], [continue] and [return].
    So an identifier and a newline give the identifier, a semicolon with
    no text and the end of the stream, and with a plus sign before the
    newline no semicolon is emitted. *)
Theorem semicolon_insertion_policy :
  (forall t l,
     (t = token.Comment /\ insertSemi (emit t l) = insertSemi l)
     \/ (t <> token.Comment /\ (insertSemi (emit t l) = true <-> In t semiAfter)))
  /\ (forall more,
        let final := scan (4 + more) (line "a") in
        over (4 + more) (line "a") = true
        /\ tokenStream final = [tok token.Identifier "a" 1 1; tok token.Semicolon "" 1 2]
        /\ closed final = true /\ panicked final = false
        /\ forall seesClosed k, terminal (NextToken seesClosed (2 + k) final))
  /\ (forall more,
        let final := scan (4 + more) (line "a+") in
        over (4 + more) (line "a+") = true
        /\ tokenStream final = [tok token.Identifier "a" 1 1; tok token.Plus "+" 1 2]
        /\ closed final = true /\ panicked final = false).
Proof.
  split; [|split].
  - intros t l. destruct (decide (t = token.Comment)) as [->|Hne].
    + left. split; [reflexivity|]. unfold emit; simpl. destruct (closed l); reflexivity.
    + right. split; [exact Hne|].
      assert (insertSemi (emit t l) = token.InsertSemiAfter t) as ->.
      { unfold emit. destruct (decide (t = token.Comment)); [contradiction|].
        simpl. destruct (closed l); reflexivity. }
      destruct t; vm_compute; split; intros H; try reflexivity; try discriminate;
        intuition discriminate.
  - intros more final; subst final; settle.
    repeat split; try (vm_compute; reflexivity);
      apply NextToken_terminal; vm_compute; lia.
  - intros more final; subst final; settle.
    repeat split; vm_compute; reflexivity.
Qed.

(** C1, at the input that breaks it: after an identifier, a string
    literal left open at the end of the line is abandoned without being
    discarded, and the semicolon inserted at the newline carries its text
    and its start position. *)
Theorem unclosed_literal_leaks_into_semicolon :
  forall more,
    let final := scan (5 + more) (line ("a" ++ quoted "b")) in
    over (5 + more) (line ("a" ++ quoted "b")) = true
    /\ tokenStream final =
         [tok token.Identifier "a" 1 1; tok token.Semicolon (quoted "b") 1 2]
    /\ handled final = [at_ 1 4 ErrUnclosedStringLit].
Proof.
  intros more final; subst final; settle.
  repeat split; vm_compute; reflexivity.
Qed.

(** C5, at the input that breaks it: the scan of an identifier and a
    newline reports no error and sends the identifier at (1,1) and the
    semicolon at (1,2); the end-of-stream token that [NextToken] then
    returns when it reads [closed] as not yet set, and so receives on the
    channel that the goroutine closes, is the zero token, at (0,0): below
    line 1 and column 1, and before the semicolon.  The other branch of
    [NextToken], taken when [closed] is read as set, gives the same token
    the position of the start cursor, (2,1), as the claim has it. *)
Theorem terminal_token_received_at_zero :
  forall more,
    let final := scan (4 + more) (line "a") in
    over (4 + more) (line "a") = true
    /\ handled final = [] /\ Errors final = 0
    /\ tokenStream final = [tok token.Identifier "a" 1 1; tok token.Semicolon "" 1 2]
    /\ (forall k, NextToken false (2 + k) final = tok token.EOF "" 0 0)
    /\ (forall k, NextToken true k final = tok token.EOF "" 2 1)
    /\ ~ pos_le (token.Pos (tok token.Semicolon "" 1 2))
               (token.Pos (NextToken false 2 final))
    /\ ~ 1 <= file.Line (token.Pos (NextToken false 2 final)).
Proof.
  intros more final; subst final; settle.
  assert (tokenStream (fst (lex T 4 (Lex (NewReader (line "a")))))
          = [tok token.Identifier "a" 1 1; tok token.Semicolon "" 1 2]) as Es
    by (vm_compute; reflexivity).
  split; [vm_compute; reflexivity|]. split; [vm_compute; reflexivity|].
  split; [vm_compute; reflexivity|]. split; [exact Es|]. split; [|split; [|split]].
  - intros k. unfold NextToken. rewrite Es. cbn. destruct k; reflexivity.
  - intros k. vm_compute. reflexivity.
  - unfold NextToken. rewrite Es. cbn. unfold pos_le. cbn. lia.
  - unfold NextToken. rewrite Es. cbn. lia.
Qed.

(** ** The loops never run out of turns *)

Lemma readLoop_left src : forall first l r l',
  readLoop src first l = (r, l') -> closed l = false ->
  (avail l' + (if (r =? eof)%Z then 0 else 1) <= length src)%nat.
Proof.
  induction src as [|[char size|msg] rest IH]; intros first l r l' H Hc; simpl in H.
  - inversion H; subst. unfold avail; simpl. rewrite Hc. simpl. lia.
  - destruct ((char =? utf8.RuneError) && (size =? 1)).
    { apply IH in H; [simpl; lia | exact Hc]. }
    destruct (char =? bom).
    { apply IH in H; [simpl; lia | destruct first; exact Hc]. }
    inversion H; subst. unfold avail; simpl. rewrite Hc.
    destruct (r =? eof); simpl; lia.
  - inversion H; subst. unfold avail, close; simpl. rewrite Hc. simpl. lia.
Qed.

Lemma left_consume l : (left (consume l) <= avail l)%nat.
Proof.
  unfold consume, readRune; simpl.
  destruct (closed l) eqn:Hc.
  - unfold left, avail; simpl. rewrite Hc. simpl. lia.
  - match goal with |- context [readLoop ?s ?f ?x] =>
      destruct (readLoop s f x) as [r l2] eqn:H end.
    apply readLoop_left in H; [|reflexivity].
    unfold left, avail in *; simpl in *. rewrite Hc. exact H.
Qed.

Lemma avail_left l : (avail l <= left l)%nat.
Proof. unfold left; lia. Qed.

Lemma avail_lt_left l : current l <> eof -> (avail l < left l)%nat.
Proof.
  intros H. unfold left. destruct (current l =? eof) eqn:E; [|lia].
  apply Z.eqb_eq in E. contradiction.
Qed.

Lemma left_turns l : (left l < turns l)%nat.
Proof.
  unfold left, avail, turns.
  destruct (closed l); destruct (current l =? eof); simpl; lia.
Qed.

(** A loop [for cond { consume() }] whose condition fails at the end
    marker stops on its condition, whatever turns it is given beyond
    what is left to read. *)
Lemma consumeWhile_stops cond :
  (forall l, cond l = true -> current l <> eof) ->
  forall fuel l, (left l < fuel)%nat -> cond (consumeWhile cond fuel l) = false.
Proof.
  intros Hcond; induction fuel as [|fuel IH]; intros l Hl; [lia|].
  simpl. destruct (cond l) eqn:E; [|exact E].
  apply IH. pose proof (left_consume l). pose proof (avail_lt_left l (Hcond l E)). lia.
Qed.

Lemma consumeWhile_fuel cond :
  (forall l, cond l = true -> current l <> eof) ->
  forall fuel fuel' l, (left l < fuel)%nat -> (left l < fuel')%nat ->
  consumeWhile cond fuel l = consumeWhile cond fuel' l.
Proof.
  intros Hcond; induction fuel as [|fuel IH]; intros fuel' l H H'; [lia|].
  destruct fuel' as [|fuel']; [lia|].
  simpl. destruct (cond l) eqn:E; [|reflexivity].
  pose proof (left_consume l). pose proof (avail_lt_left l (Hcond l E)).
  apply IH; lia.
Qed.

(** ** The vocabulary *)

Lemma stringToType_lookup s t :
  token.stringToType !! s = Some t -> token.literal (token.typeToString t) = s.
Proof.
  unfold token.stringToType.
  assert (forall ts (m : gmap string token.TokenType),
            (forall u, m !! s = Some u -> token.literal (token.typeToString u) = s) ->
            forall u,
              foldl (fun m t =>
                       if decide (token.literal (token.typeToString t) = EmptyString) then m
                       else <[token.literal (token.typeToString t) := t]> m) m ts !! s
              = Some u ->
              token.literal (token.typeToString u) = s) as Hgen.
  { induction ts as [|t' ts IH]; intros m Hm u; simpl; [apply Hm|].
    apply IH. intros v. destruct (decide _); [apply Hm|].
    rewrite lookup_insert_Some. intros [[E1 E2]|[_ Hv]]; [congruence | apply Hm, Hv]. }
  apply Hgen. intros u. rewrite lookup_empty. discriminate.
Qed.

Lemma IsOperator_literal s :
  token.IsOperator s = true ->
  exists t, token.IsOperatorType t = true /\ s = token.literal (token.typeToString t).
Proof.
  unfold token.IsOperator, token.NewTokenType.
  destruct (token.stringToType !! s) as [t|] eqn:E; simpl; [|discriminate].
  intros H. exists t. split; [exact H|]. symmetry. apply stringToType_lookup, E.
Qed.

Lemma lastByte_app s a rest :
  lastByte (s ++ String a rest) = lastByte (String a rest).
Proof.
  induction s as [|b s IH]; [reflexivity|].
  change (String b s ++ String a rest)%string with (String b (s ++ String a rest)%string).
  simpl lastByte at 1. destruct (s ++ String a rest)%string eqn:E; [|exact IH].
  destruct s; discriminate.
Qed.

(** No operator ends with the text of the end marker. *)
Lemma IsOperator_eof s :
  token.IsOperator (s ++ utf8.string_of_rune eof) = false.
Proof.
  destruct (token.IsOperator _) eqn:E; [|reflexivity].
  apply IsOperator_literal in E as [t [Ht E]].
  apply (f_equal lastByte) in E.
  change (utf8.string_of_rune eof) with (utf8.encode3 utf8.RuneError) in E.
  unfold utf8.encode3 in E. rewrite lastByte_app in E.
  destruct t; vm_compute in Ht; try discriminate Ht; discriminate E.
Qed.

(** The runes that start no token of their own end no loop early. *)
Lemma IsSpace_eof : unicode.IsSpace T eof = false.
Proof. reflexivity. Qed.

Lemma identifierRune_eof : identifierRune T eof = false.
Proof. reflexivity. Qed.

Lemma IsDigit_eof base : token.IsDigit eof base = false.
Proof. reflexivity. Qed.

(** Each loop of the engine stops because its condition fails, not
    for lack of turns: the rune it stops on is outside the class it
    consumes. *)
Lemma discardWhitespace_stops l :
  unicode.IsSpace T (current (discardWhitespace T l)) = false.
Proof.
  apply (consumeWhile_stops (fun l => unicode.IsSpace T (current l))).
  - intros l' H E. rewrite E in H. discriminate H.
  - apply left_turns.
Qed.

Lemma consumeIdentifier_stops l :
  identifierRune T (current (consumeIdentifier T l)) = false.
Proof.
  apply (consumeWhile_stops (fun l => identifierRune T (current l))).
  - intros l' H E. rewrite E in H. discriminate H.
  - apply left_turns.
Qed.

Lemma consumeDigits_stops base required l :
  token.IsDigit (current (consumeDigits base required l)) base = false.
Proof.
  unfold consumeDigits.
  apply (consumeWhile_stops (fun l => token.IsDigit (current l) base)).
  - intros l' H E. rewrite E, IsDigit_eof in H. discriminate H.
  - apply left_turns.
Qed.

Lemma lexOperator_longest l :
  let l1 :=
    consumeWhile
      (fun l => token.IsOperator (tokenLiteral l ++ utf8.string_of_rune (current l)))
      (turns l) l in
  token.IsOperator (tokenLiteral l1 ++ utf8.string_of_rune (current l1)) = false.
Proof.
  apply (consumeWhile_stops
           (fun l => token.IsOperator (tokenLiteral l ++ utf8.string_of_rune (current l)))).
  - intros l' H E. rewrite E, IsOperator_eof in H. discriminate H.
  - apply left_turns.
Qed.

Lemma lexComment_stops l :
  let l1 :=
    consumeWhile (fun l => negb (current l =? newline) && negb (current l =? eof))
      (turns l) l in
  current l1 = newline \/ current l1 = eof.
Proof.
  intros l1.
  assert (negb (current l1 =? newline) && negb (current l1 =? eof) = false) as H.
  { apply (consumeWhile_stops
             (fun l => negb (current l =? newline) && negb (current l =? eof))).
    - intros l' H E. rewrite E in H. discriminate H.
    - apply left_turns. }
  apply andb_false_iff in H. rewrite !negb_false_iff, !Z.eqb_eq in H. exact H.
Qed.

(** ** What [consume] changes *)

Lemma readLoop_window src : forall first l r l',
  readLoop src first l = (r, l') -> sameWindow l l'.
Proof.
  induction src as [|[char size|msg] rest IH]; intros first l r l' H; simpl in H.
  - inversion H; subst. repeat split.
  - destruct ((char =? utf8.RuneError) && (size =? 1)).
    { apply IH in H. exact H. }
    destruct (char =? bom).
    { apply IH in H. destruct first; exact H. }
    inversion H; subst. repeat split.
  - inversion H; subst. unfold close; simpl. destruct (closed l); repeat split.
Qed.

Lemma consume_window l :
  tokenStream (consume l) = tokenStream l
  /\ insertSemi (consume l) = insertSemi l
  /\ tokenStart (consume l) = tokenStart l
  /\ tokenEnd (consume l) = advance (tokenEnd l) (current l)
  /\ tokenLiteral (consume l) = (tokenLiteral l ++ utf8.string_of_rune (current l))%string
  /\ panicked (consume l) = panicked l.
Proof.
  unfold consume, readRune; simpl.
  destruct (closed l); [repeat split|].
  match goal with |- context [readLoop ?s ?f ?x] =>
    destruct (readLoop s f x) as [r l2] eqn:H end.
  apply readLoop_window in H. destruct H as (H1 & H2 & H3 & H4 & H5 & H6).
  simpl in *. repeat split; assumption.
Qed.

(** ** Positions never go back *)

Lemma pos_le_refl p : pos_le p p.
Proof. unfold pos_le; lia. Qed.

Lemma pos_le_trans p q r : pos_le p q -> pos_le q r -> pos_le p r.
Proof. unfold pos_le; lia. Qed.

Lemma incr_small z : - 2 ^ 63 <= z + 1 < 2 ^ 63 -> incr z = z + 1.
Proof.
  intros H. unfold incr, wrap_int. rewrite Z.mod_small; lia.
Qed.

Lemma advance_spec p r :
  posOK p -> file.Line p + file.Col p < MaxInt ->
  posOK (advance p r) /\ pos_le p (advance p r)
  /\ file.Line (advance p r) + file.Col (advance p r) <= file.Line p + file.Col p + 1.
Proof.
  unfold posOK, MaxInt, advance, pos_le. intros [H1 H2] H.
  destruct (r =? newline); simpl;
    rewrite ?incr_small by lia; lia.
Qed.

Lemma StronglySorted_snoc {A} (R : A -> A -> Prop) xs x :
  StronglySorted R xs -> Forall (fun y => R y x) xs -> StronglySorted R (xs ++ [x]).
Proof.
  induction 1 as [|y ys Hs IH Hy]; intros Hx; simpl.
  - constructor; constructor.
  - inversion Hx; subst. constructor; [apply IH; assumption|].
    apply Forall_app; split; [assumption | constructor; [assumption | constructor]].
Qed.

Lemma Inv_weaken c c' l : 0 <= c' <= c -> Inv c l -> Inv c' l.
Proof. unfold Inv. intros ? (? & ? & ?). split; [lia | split; [assumption | lia]]. Qed.

Lemma Inv_raiseAt c p e l : Inv c l -> Inv c (raiseAt p e l).
Proof. exact (fun H => H). Qed.

Lemma Inv_close c l : Inv c l -> Inv c (close l).
Proof.
  unfold close. destruct (closed l) eqn:Hc; [exact (fun H => H)|].
  unfold Inv, placed, budget, avail; simpl. rewrite Hc.
  intros (H0 & Hp & Hb). repeat split; try apply Hp; try lia.
  destruct (current l =? eof); lia.
Qed.

Lemma Inv_discard c l : Inv c l -> Inv c (discard l).
Proof.
  unfold Inv, placed, budget, avail; simpl.
  intros (H0 & (H1 & H2 & H3 & H4 & H5) & Hb).
  repeat split; try apply H2; try assumption; try apply pos_le_refl.
  eapply Forall_impl; [exact H5|]. simpl. intros t [Ht1 Ht2].
  split; [exact Ht1 | eapply pos_le_trans; eassumption].
Qed.

Lemma Inv_emit c t l : Inv c l -> Inv c (emit t l).
Proof.
  intros H. unfold emit.
  set (l1 := if decide (t = token.Comment) then l else _).
  assert (Inv c l1) as H1 by (subst l1; destruct (decide _); exact H).
  clearbody l1. unfold send; simpl.
  destruct (closed l1) eqn:Hc; simpl.
  - destruct H1 as (H0 & Hp & Hb). repeat split; try apply Hp; try assumption.
    unfold budget, avail in *; simpl. rewrite Hc in *. exact Hb.
  - apply Inv_discard.
    destruct H1 as (H0 & (P1 & P2 & P3 & P4 & P5) & Hb).
    unfold Inv, placed, budget, avail in *; simpl. rewrite Hc in *.
    repeat split; try assumption; try apply P1; try apply P2.
    + rewrite map_app. apply StronglySorted_snoc; [exact P4|].
      rewrite Forall_map. eapply Forall_impl; [exact P5|]. simpl. tauto.
    + apply Forall_app; split; [exact P5|].
      constructor; [|constructor]. simpl. split; [exact P1 | apply pos_le_refl].
Qed.

Lemma budget_consume l :
  3 * Z.of_nat (avail (consume l)) + (if current (consume l) =? eof then 0 else 2)
  <= 3 * Z.of_nat (avail l).
Proof.
  pose proof (left_consume l) as H. unfold left in H.
  destruct (current (consume l) =? eof); lia.
Qed.

Lemma Inv_consume c l : 0 <= c -> Inv (c + 1) l -> Inv c (consume l).
Proof.
  intros Hc (H0 & (P1 & P2 & P3 & P4 & P5) & Hb).
  destruct (consume_window l) as (W1 & W2 & W3 & W4 & W5 & W6).
  pose proof (budget_consume l) as Hcons.
  unfold budget in Hb.
  destruct (advance_spec (tokenEnd l) (current l) P2) as (A1 & A2 & A3).
  { destruct (current l =? eof); lia. }
  unfold Inv, placed, budget. rewrite W1, W3, W4.
  repeat split; try assumption; try apply P1; try apply A1.
  - eapply pos_le_trans; eassumption.
  - destruct (current l =? eof); lia.
Qed.

Lemma Inv_consume_rune c l : current l <> eof -> Inv c l -> Inv (c + 1) (consume l).
Proof.
  intros Hne (H0 & (P1 & P2 & P3 & P4 & P5) & Hb).
  destruct (consume_window l) as (W1 & W2 & W3 & W4 & W5 & W6).
  pose proof (budget_consume l) as Hcons.
  unfold budget in Hb.
  destruct (current l =? eof) eqn:E; [apply Z.eqb_eq in E; contradiction|].
  destruct (advance_spec (tokenEnd l) (current l) P2) as (A1 & A2 & A3); [lia|].
  unfold Inv, placed, budget. rewrite W1, W3, W4.
  repeat split; try assumption; try apply P1; try apply A1; try lia.
  eapply pos_le_trans; eassumption.
Qed.

Ltac not_eof H :=
  let E := fresh "E" in
  intros E; rewrite E in H; try rewrite IsOperator_eof in H; cbv in H; discriminate H.

Lemma runeChars_closed fuel : forall k l k' l2,
  runeChars fuel k l = (Some k', l2) -> current l2 = rn "'".
Proof.
  induction fuel as [|fuel IH]; intros k l k' l2; simpl; [discriminate|].
  destruct (current l =? rn "'") eqn:Eq.
  - intros E; inversion E; subst. apply Z.eqb_eq, Eq.
  - destruct (_ || _); [discriminate | apply IH].
Qed.

Lemma stringChars_closed fuel : forall l l2,
  stringChars fuel l = (true, l2) -> current l2 = dquote.
Proof.
  induction fuel as [|fuel IH]; intros l l2; simpl; [discriminate|].
  destruct (current l =? dquote) eqn:Eq.
  - intros E; inversion E; subst. apply Z.eqb_eq, Eq.
  - destruct (_ || _); [discriminate | apply IH].
Qed.

Lemma exponentIndicator_Some base l l4 :
  exponentIndicator T base l = Some l4 ->
  current l <> eof /\ (l4 = l \/ l4 = raise (ErrHexExponent (current l)) l).
Proof.
  unfold exponentIndicator. intros H.
  assert (current l <> eof) as Hne.
  { intros E. rewrite E in H.
    change (unicode.ToLower T eof) with eof in H.
    change (eof =? rn "p") with false in H. change (eof =? rn "e") with false in H.
    rewrite !andb_false_r in H. discriminate H. }
  destruct (_ || _); [inversion H; subst; auto|].
  destruct (_ && _); [|discriminate].
  inversion H; subst. auto.
Qed.

(** ** Properties kept by the whole engine

    The engine is built from five actions: [consume], [raiseAt],
    [emit], [discard] and [close].  A property that each of them keeps
    is kept by every function.  The property is indexed by a credit:
    consuming a rune earns one, and consuming whatever is current, the
    end marker included, costs one. *)
Section Scanning.

Variable P : Z -> Lexer -> Prop.

Hypothesis P_nonneg : forall c l, P c l -> 0 <= c.
Hypothesis P_weaken : forall c c' l, 0 <= c' <= c -> P c l -> P c' l.
Hypothesis P_raiseAt : forall c p e l, P c l -> P c (raiseAt p e l).
Hypothesis P_consume : forall c l, 0 <= c -> P (c + 1) l -> P c (consume l).
Hypothesis P_consume_rune : forall c l, current l <> eof -> P c l -> P (c + 1) (consume l).

Lemma kept_step c l : current l <> eof -> P c l -> P c (consume l).
Proof.
  intros Hne H. apply (P_weaken (c + 1)); [pose proof (P_nonneg _ _ H); lia|].
  apply P_consume_rune; assumption.
Qed.

Lemma kept_consumeWhile cond :
  (forall l, cond l = true -> current l <> eof) ->
  forall fuel c l, P c l -> P c (consumeWhile cond fuel l).
Proof.
  intros Hcond; induction fuel as [|fuel IH]; intros c l H; simpl; [exact H|].
  destruct (cond l) eqn:E; [|exact H].
  apply IH, kept_step; [apply Hcond, E | exact H].
Qed.

Lemma kept_consumeIdentifier c l : P c l -> P c (consumeIdentifier T l).
Proof.
  intros H. apply kept_consumeWhile; [|exact H].
  intros l' H'. not_eof H'.
Qed.

Lemma kept_consumeDigits c base required l :
  P c l -> P c (consumeDigits base required l).
Proof.
  intros H. unfold consumeDigits. apply kept_consumeWhile.
  - intros l' H'. intros E; rewrite E in H'; rewrite IsDigit_eof in H'; discriminate.
  - destruct (_ && _); [apply P_raiseAt|]; exact H.
Qed.

Lemma kept_numberPrefix c l base cantBe0 l1 :
  numberPrefix l = (base, cantBe0, l1) -> P c l -> P c l1.
Proof.
  unfold numberPrefix. intros H HI.
  destruct (current l =? rn "0") eqn:E0; [|inversion H; subst; exact HI].
  assert (P c (consume l)) as H1 by (apply kept_step; [not_eof E0 | exact HI]).
  destruct (_ || _) eqn:E1 in H.
  { inversion H; subst. apply kept_step; [not_eof E1 | exact H1]. }
  destruct (_ || _) eqn:E2 in H.
  { inversion H; subst. apply kept_step; [not_eof E2 | exact H1]. }
  destruct (_ || _) eqn:E3 in H.
  { inversion H; subst. apply kept_step; [not_eof E3 | exact H1]. }
  inversion H; subst. exact H1.
Qed.

Lemma kept_numberBody c base cantBe0 l : P c l -> P c (numberBody T base cantBe0 l).
Proof.
  intros H. unfold numberBody.
  pose proof (kept_consumeDigits c base cantBe0 l H) as H2.
  destruct (base <? 10); [exact H2|].
  set (l3 := if _ =? rn "." then _ else _).
  assert (P c l3) as H3.
  { subst l3. destruct (_ =? rn ".") eqn:E; [|exact H2].
    apply kept_consumeDigits, kept_step; [not_eof E | exact H2]. }
  clearbody l3.
  destruct (exponentIndicator T base l3) as [l4|] eqn:E4; [|exact H3].
  apply exponentIndicator_Some in E4 as [Hne H4].
  apply kept_consumeDigits.
  assert (P c (consume l4)) as H5.
  { destruct H4 as [->| ->]; apply kept_step; try exact Hne; try exact H3.
    apply P_raiseAt, H3. }
  destruct (_ || _) eqn:E5; [|exact H5].
  apply kept_step; [not_eof E5 | exact H5].
Qed.

Lemma kept_consumeHexDigits prefix digits todo : forall hexDigits c l,
  P c l -> P c (snd (consumeHexDigits prefix digits todo hexDigits l)).
Proof.
  induction todo as [|todo IH]; intros hexDigits c l H; simpl; [exact H|].
  destruct (token.IsDigit (current l) 16) eqn:E; simpl; [|apply P_raiseAt, H].
  apply IH, kept_step; [|exact H].
  intros E'. rewrite E' in E. discriminate E.
Qed.

(** The escape character may be the end marker: its [consume] is
    paid for by the backslash before it. *)
Lemma kept_consumeEscape c quote l :
  current l <> eof -> P c l -> P c (consumeEscape quote l).
Proof.
  intros Hne H. unfold consumeEscape.
  pose proof (P_consume_rune c l Hne H) as H1.
  pose proof (P_nonneg _ _ H) as Hc.
  set (l1 := consume l) in *. clearbody l1.
  set (choice := if _ || _ then _ else _).
  assert (P (c + 1) (snd choice)) as H2.
  { subst choice. repeat (destruct (_ : bool); [exact H1|]). apply P_raiseAt, H1. }
  destruct choice as [digits l2]. simpl in H2.
  pose proof (P_consume c l2 Hc H2) as H3.
  destruct (0 <? digits); [|exact H3].
  pose proof (kept_consumeHexDigits (utf8.string_of_rune (current l1)) digits
                (Z.to_nat digits) EmptyString c (consume l2) H3) as H4.
  destruct (consumeHexDigits _ _ _ _ _) as [[hexDigits|] l4]; simpl in H4; [|exact H4].
  destruct (negb _); [apply P_raiseAt|]; exact H4.
Qed.

Lemma kept_consumeRune c quote l :
  current l <> eof -> P c l -> P c (consumeRune quote l).
Proof.
  intros Hne H. unfold consumeRune.
  destruct (_ =? _); [apply kept_consumeEscape | apply kept_step]; assumption.
Qed.

Lemma kept_runeChars fuel : forall k c l,
  P c l -> P c (snd (runeChars fuel k l)).
Proof.
  induction fuel as [|fuel IH]; intros k c l H; simpl; [exact H|].
  destruct (_ =? rn "'"); [exact H|].
  destruct (_ || _) eqn:E; simpl; [apply P_raiseAt, H|].
  apply IH, kept_consumeRune; [|exact H].
  intros E'. rewrite E' in E. discriminate E.
Qed.

Lemma kept_stringChars fuel : forall c l,
  P c l -> P c (snd (stringChars fuel l)).
Proof.
  induction fuel as [|fuel IH]; intros c l H; simpl; [exact H|].
  destruct (_ =? dquote); [exact H|].
  destruct (_ || _) eqn:E; simpl; [apply P_raiseAt, H|].
  apply IH, kept_consumeRune; [|exact H].
  intros E'. rewrite E' in E. discriminate E.
Qed.

Section Lexing.

Hypothesis P_close : forall c l, P c l -> P c (close l).
Hypothesis P_discard : forall c l, P c l -> P c (discard l).
Hypothesis P_emit : forall c t l, P c l -> P c (emit t l).

Lemma kept_discardWhitespace c l : P c l -> P c (discardWhitespace T l).
Proof.
  intros H. apply P_discard, kept_consumeWhile; [|exact H].
  intros l' H'. not_eof H'.
Qed.

Lemma kept_lexNumber c l : P c l -> P c (lexNumber T l).
Proof.
  intros H. unfold lexNumber.
  destruct (numberPrefix l) as [[base cantBe0] l1] eqn:E.
  apply P_emit, kept_numberBody. eapply kept_numberPrefix; eassumption.
Qed.

Lemma kept_lexRune c l : current l <> eof -> P c l -> P c (lexRune l).
Proof.
  intros Hne H. unfold lexRune.
  pose proof (kept_runeChars (turns (consume l)) 0 c (consume l) (kept_step c l Hne H)) as H2.
  destruct (runeChars _ _ _) as [[k|] l2] eqn:E; simpl in H2; [|exact H2].
  apply P_emit.
  assert (current l2 <> eof) as Hq.
  { apply runeChars_closed in E. rewrite E. discriminate. }
  pose proof (kept_step c l2 Hq H2) as H3.
  destruct (1 <? k); [apply P_raiseAt, H3|].
  destruct (k <? 1); [apply P_raiseAt, H3 | exact H3].
Qed.

Lemma kept_lexString c l : current l <> eof -> P c l -> P c (lexString l).
Proof.
  intros Hne H. unfold lexString.
  pose proof (kept_stringChars (turns (consume l)) c (consume l) (kept_step c l Hne H)) as H2.
  destruct (stringChars _ _) as [[|] l2] eqn:E; simpl in H2; [|exact H2].
  apply P_emit, kept_step; [|exact H2].
  apply stringChars_closed in E. rewrite E. discriminate.
Qed.

Lemma kept_lexOperator c l : P c l -> P c (lexOperator l).
Proof.
  intros H. apply P_emit, kept_consumeWhile; [|exact H].
  intros l' H'. not_eof H'.
Qed.

Lemma kept_lexComment c l : P c l -> P c (lexComment l).
Proof.
  intros H. apply P_emit, kept_consumeWhile; [|exact H].
  intros l' H' E. rewrite E in H'. discriminate H'.
Qed.

Lemma kept_lexIdentifier c l : P c l -> P c (lexIdentifier T l).
Proof. intros H. apply P_emit, kept_consumeIdentifier, H. Qed.

Lemma kept_lexOnce c l : P c l -> P c (fst (lexOnce T l)).
Proof.
  intros H. pose proof (P_nonneg _ _ H) as Hc.
  unfold lexOnce.
  destruct (unicode.IsLetter T (current l)); [apply kept_lexIdentifier, H|].
  destruct (current l =? rn "_") eqn:E1.
  { apply P_emit, kept_step; [not_eof E1 | exact H]. }
  destruct (current l =? rn "\") eqn:E2.
  { simpl. apply P_emit, P_consume; [exact Hc|].
    apply kept_consumeIdentifier, P_consume_rune; [not_eof E2 | exact H]. }
  destruct (unicode.IsDigit T (current l)); [apply kept_lexNumber, H|].
  destruct (current l =? rn "'") eqn:E3.
  { apply kept_lexRune; [not_eof E3 | exact H]. }
  destruct (current l =? dquote) eqn:E4.
  { apply kept_lexString; [not_eof E4 | exact H]. }
  destruct (token.IsOperator _); [apply kept_lexOperator, H|].
  destruct (current l =? rn "#"); [apply kept_lexComment, H|].
  destruct (_ && _); [apply P_emit, H|].
  destruct (_ || _); [apply kept_discardWhitespace, H|].
  destruct (current l =? eof) eqn:E5; [apply P_close, H|].
  apply P_emit, kept_step; [|apply P_raiseAt, H].
  simpl. intros E. rewrite E in E5. discriminate E5.
Qed.

Lemma kept_lex n : forall c l, P c l -> P c (fst (lex T n l)).
Proof.
  induction n as [|n IH]; intros c l H; simpl; [exact H|].
  pose proof (kept_lexOnce c l H) as H1.
  destruct (lexOnce T l) as [l' [|]]; [exact H1 | apply IH, H1].
Qed.

End Lexing.

End Scanning.

Lemma Inv_nonneg c l : Inv c l -> 0 <= c.
Proof. intros H; apply H. Qed.

Lemma Inv_lex n c l : Inv c l -> Inv c (fst (lex T n l)).
Proof.
  apply (kept_lex Inv Inv_nonneg Inv_weaken Inv_raiseAt Inv_consume Inv_consume_rune
           Inv_close Inv_discard Inv_emit).
Qed.

Lemma Lex_window src :
  tokenStream (Lex src) = [] /\ tokenStart (Lex src) = file.Origin
  /\ tokenEnd (Lex src) = file.Origin
  /\ (avail (Lex src) + (if (current (Lex src) =? eof)%Z then 0 else 1) <= length src)%nat.
Proof.
  unfold Lex, readRune; simpl.
  match goal with |- context [readLoop ?s ?f ?x] =>
    destruct (readLoop s f x) as [r l2] eqn:H end.
  pose proof (readLoop_window _ _ _ _ _ H) as (W1 & W2 & W3 & W4 & W5 & W6).
  apply readLoop_left in H; [|reflexivity].
  simpl in *. repeat split; assumption.
Qed.

Lemma Inv_Lex src : Z.of_nat (length src) < 2 ^ 61 -> Inv 0 (Lex src).
Proof.
  intros Hlen. destruct (Lex_window src) as (W1 & W2 & W3 & W4).
  unfold Inv, placed, budget, MaxInt. rewrite W1, W2, W3. simpl.
  repeat split; try lia; try (unfold pos_le; simpl; lia); try constructor.
  destruct (current (Lex src) =? eof); lia.
Qed.

(** X26: whether the scan reports errors or not, the positions of the
    tokens sent by [emit] are non-decreasing in the order they are sent,
    lexicographically on (line, column), every one has line and column at
    least 1, and both cursors start from the origin (1,1).  The
    end-of-stream token that [NextToken] builds when it reads [closed] as
    set comes after all of them.  The columns are 64-bit counters, so the
    input is taken to hold fewer than [2^61] runes. *)
Theorem positions_never_decrease :
  forall src n,
    Z.of_nat (length src) < 2 ^ 61 ->
    let l := fst (lex T n (Lex src)) in
    tokenStart (Lex src) = file.Origin /\ tokenEnd (Lex src) = file.Origin
    /\ StronglySorted pos_le (map token.Pos (tokenStream l))
    /\ Forall (fun t => 1 <= file.Line (token.Pos t) /\ 1 <= file.Col (token.Pos t))
         (tokenStream l)
    /\ forall k t, In t (tokenStream l) ->
                   pos_le (token.Pos t) (token.Pos (NextToken true k l)).
Proof.
  intros src n Hlen l.
  destruct (Lex_window src) as (_ & W2 & W3 & _).
  pose proof (Inv_lex n 0 (Lex src) (Inv_Lex src Hlen)) as (_ & (P1 & P2 & P3 & P4 & P5) & _).
  fold l in P1, P2, P3, P4, P5.
  split; [exact W2|]. split; [exact W3|]. split; [exact P4|]. split.
  - eapply Forall_impl; [exact P5|]. simpl. unfold posOK. tauto.
  - intros k t Ht. simpl.
    rewrite Forall_forall in P5. apply P5. apply list_elem_of_In, Ht.
Qed.

(** ** The literal loops stop on their own *)

Lemma left_consumeHexDigits prefix digits todo : forall hexDigits l,
  (left (snd (consumeHexDigits prefix digits todo hexDigits l)) <= left l)%nat.
Proof.
  induction todo as [|todo IH]; intros hexDigits l; simpl; [lia|].
  destruct (negb _); simpl; [unfold left, avail; simpl; lia|].
  etransitivity; [apply IH|].
  pose proof (left_consume l). pose proof (avail_left l). lia.
Qed.

Lemma left_consumeEscape quote l : (left (consumeEscape quote l) <= avail l)%nat.
Proof.
  unfold consumeEscape.
  pose proof (left_consume l) as H1.
  set (l1 := consume l) in *. clearbody l1.
  set (choice := if _ || _ then _ else _).
  assert (left (snd choice) = left l1) as H2.
  { subst choice. repeat (destruct (_ : bool); [reflexivity|]). reflexivity. }
  destruct choice as [digits l2]. simpl in H2.
  pose proof (left_consume l2) as H3. pose proof (avail_left l2) as H3'.
  destruct (0 <? digits); [|lia].
  pose proof (left_consumeHexDigits (utf8.string_of_rune (current l1)) digits
                (Z.to_nat digits) EmptyString (consume l2)) as H4.
  destruct (consumeHexDigits _ _ _ _ _) as [[hexDigits|] l4]; simpl in H4; [|lia].
  destruct (negb _); [unfold left, avail in *; simpl; lia | lia].
Qed.

Lemma left_consumeRune quote l : (left (consumeRune quote l) <= avail l)%nat.
Proof.
  unfold consumeRune. destruct (_ =? _); [apply left_consumeEscape | apply left_consume].
Qed.

(** With the turns it is given, the loop of [lexRune] ends on the
    closing quote or on the end of the line, never for lack of turns. *)
Lemma runeChars_open fuel : forall k l l2,
  (left l < fuel)%nat -> runeChars fuel k l = (None, l2) ->
  exists l', l2 = raise ErrUnclosedRuneLit l'
             /\ (current l' = eof \/ current l' = newline).
Proof.
  induction fuel as [|fuel IH]; intros k l l2 Hl; simpl; [lia|].
  destruct (current l =? rn "'"); [discriminate|].
  destruct (_ || _) eqn:E.
  - intros H; inversion H; subst. exists l. split; [reflexivity|].
    apply orb_true_iff in E. rewrite !Z.eqb_eq in E. exact E.
  - apply IH. pose proof (left_consumeRune (rn "'") l).
    assert (current l <> eof) as Hne by (intros E'; rewrite E' in E; discriminate E).
    pose proof (avail_lt_left l Hne). lia.
Qed.

Lemma runeChars_fuel fuel : forall fuel' k l,
  (left l < fuel)%nat -> (left l < fuel')%nat ->
  runeChars fuel k l = runeChars fuel' k l.
Proof.
  induction fuel as [|fuel IH]; intros fuel' k l H H'; [lia|].
  destruct fuel' as [|fuel']; [lia|]. simpl.
  destruct (current l =? rn "'"); [reflexivity|].
  destruct (_ || _) eqn:E; [reflexivity|].
  pose proof (left_consumeRune (rn "'") l).
  assert (current l <> eof) as Hne by (intros E'; rewrite E' in E; discriminate E).
  pose proof (avail_lt_left l Hne). apply IH; lia.
Qed.

Lemma stringChars_open fuel : forall l l2,
  (left l < fuel)%nat -> stringChars fuel l = (false, l2) ->
  exists l', l2 = raise ErrUnclosedStringLit l'
             /\ (current l' = eof \/ current l' = newline).
Proof.
  induction fuel as [|fuel IH]; intros l l2 Hl; simpl; [lia|].
  destruct (current l =? dquote); [discriminate|].
  destruct (_ || _) eqn:E.
  - intros H; inversion H; subst. exists l. split; [reflexivity|].
    apply orb_true_iff in E. rewrite !Z.eqb_eq in E. exact E.
  - apply IH. pose proof (left_consumeRune dquote l).
    assert (current l <> eof) as Hne by (intros E'; rewrite E' in E; discriminate E).
    pose proof (avail_lt_left l Hne). lia.
Qed.

Lemma stringChars_fuel fuel : forall fuel' l,
  (left l < fuel)%nat -> (left l < fuel')%nat ->
  stringChars fuel l = stringChars fuel' l.
Proof.
  induction fuel as [|fuel IH]; intros fuel' l H H'; [lia|].
  destruct fuel' as [|fuel']; [lia|]. simpl.
  destruct (current l =? dquote); [reflexivity|].
  destruct (_ || _) eqn:E; [reflexivity|].
  pose proof (left_consumeRune dquote l).
  assert (current l <> eof) as Hne by (intros E'; rewrite E' in E; discriminate E).
  pose proof (avail_lt_left l Hne). apply IH; lia.
Qed.

(** ** Once closed, the current rune is the end marker *)

Lemma readLoop_closed src : forall first l r l',
  readLoop src first l = (r, l') -> closed l = false -> closed l' = true -> r = eof.
Proof.
  induction src as [|[char size|msg] rest IH]; intros first l r l' H Hc Hc'; simpl in H.
  - inversion H; subst. reflexivity.
  - destruct ((char =? utf8.RuneError) && (size =? 1)).
    { eapply IH; [exact H | exact Hc | exact Hc']. }
    destruct (char =? bom).
    { eapply IH; [exact H | destruct first; exact Hc | exact Hc']. }
    inversion H; subst. simpl in Hc'. congruence.
  - inversion H; subst. reflexivity.
Qed.

Lemma consume_closed l : closed (consume l) = true -> current (consume l) = eof.
Proof.
  unfold consume, readRune; simpl.
  destruct (closed l) eqn:Hc; [reflexivity|].
  match goal with |- context [readLoop ?s ?f ?x] =>
    destruct (readLoop s f x) as [r l2] eqn:H end.
  simpl. apply (readLoop_closed _ _ _ _ _ H). reflexivity.
Qed.

Lemma closedAtEof_lex n l :
  (closed l = true -> current l = eof) ->
  closed (fst (lex T n l)) = true -> current (fst (lex T n l)) = eof.
Proof.
  intros H.
  assert (closedAtEof 0 (fst (lex T n l))) as [_ H']; [|exact H'].
  apply (kept_lex closedAtEof); try (split; [lia | exact H]).
  - intros c l0 [H0 _]; exact H0.
  - intros c c' l0 Hc [_ H0]. split; [lia | exact H0].
  - intros c p e l0 H0. exact H0.
  - intros c l0 Hc _. split; [exact Hc | apply consume_closed].
  - intros c l0 _ [Hc _]. split; [lia | apply consume_closed].
  - intros c l0 [Hc H0]. split; [exact Hc|]. unfold close.
    destruct (closed l0) eqn:E; [rewrite E; exact H0 | reflexivity].
  - intros c l0 H0. exact H0.
  - intros c t l0 [Hc H0]. split; [exact Hc|]. unfold emit.
    destruct (decide _); simpl; destruct (closed l0) eqn:E; simpl;
      rewrite ?E; auto; discriminate.
Qed.

(** ** What a turn of the loop sends *)

Lemma emit_stream t l :
  tokenStream (emit t l) =
  if closed l then tokenStream l
  else tokenStream l ++ [{| token.Type_ := t; token.Literal := tokenLiteral l;
                            token.Pos := tokenStart l |}].
Proof.
  unfold emit, send. destruct (decide _); simpl; destruct (closed l); reflexivity.
Qed.

Lemma emit_literal t l : panicked (emit t l) = false -> tokenLiteral (emit t l) = EmptyString.
Proof.
  unfold emit, send. destruct (decide _); simpl; destruct (closed l) eqn:E; simpl;
    rewrite ?E; simpl; intros H; try discriminate H; reflexivity.
Qed.

Lemma streamIs_consume ts c l : 0 <= c -> streamIs ts (c + 1) l -> streamIs ts c (consume l).
Proof.
  intros Hc [_ H]. split; [exact Hc|].
  destruct (consume_window l) as (W1 & _). congruence.
Qed.

Lemma streamIs_consume_rune ts c l :
  current l <> eof -> streamIs ts c l -> streamIs ts (c + 1) (consume l).
Proof.
  intros _ [Hc H]. split; [lia|].
  destruct (consume_window l) as (W1 & _). congruence.
Qed.

Lemma stream_consume l : tokenStream (consume l) = tokenStream l.
Proof. apply consume_window. Qed.

Section Streams.

Variable ts : list token.Token.

Let sn : forall c l, streamIs ts c l -> 0 <= c := fun c l H => proj1 H.
Let sw : forall c c' l, 0 <= c' <= c -> streamIs ts c l -> streamIs ts c' l :=
  fun c c' l Hc H => conj (proj1 Hc) (proj2 H).
Let sr : forall c p e l, streamIs ts c l -> streamIs ts c (raiseAt p e l) :=
  fun c p e l H => H.
Let sc := streamIs_consume ts.
Let su := streamIs_consume_rune ts.

Lemma stream_consumeWhile cond fuel l :
  (forall l, cond l = true -> current l <> eof) ->
  tokenStream l = ts -> tokenStream (consumeWhile cond fuel l) = ts.
Proof.
  intros Hcond H.
  exact (proj2 (kept_consumeWhile _ sn sw su cond Hcond fuel 0 l (conj (Z.le_refl 0) H))).
Qed.

Lemma stream_consumeIdentifier l :
  tokenStream l = ts -> tokenStream (consumeIdentifier T l) = ts.
Proof.
  intros H.
  exact (proj2 (kept_consumeIdentifier _ sn sw su 0 l (conj (Z.le_refl 0) H))).
Qed.

Lemma stream_number l base cantBe0 l1 :
  numberPrefix l = (base, cantBe0, l1) ->
  tokenStream l = ts -> tokenStream (numberBody T base cantBe0 l1) = ts.
Proof.
  intros E H.
  apply (kept_numberBody _ sn sw sr su 0).
  exact (kept_numberPrefix _ sn sw su 0 l _ _ _ E (conj (Z.le_refl 0) H)).
Qed.

Lemma stream_runeChars fuel k l :
  tokenStream l = ts -> tokenStream (snd (runeChars fuel k l)) = ts.
Proof.
  intros H.
  exact (proj2 (kept_runeChars _ sn sw sr sc su fuel k 0 l (conj (Z.le_refl 0) H))).
Qed.

Lemma stream_stringChars fuel l :
  tokenStream l = ts -> tokenStream (snd (stringChars fuel l)) = ts.
Proof.
  intros H.
  exact (proj2 (kept_stringChars _ sn sw sr sc su fuel 0 l (conj (Z.le_refl 0) H))).
Qed.

End Streams.

(** ** The state at the top of the loop *)

Lemma Top_emit t l : panicked (emit t l) = false -> Top (emit t l).
Proof. intros H. left. apply emit_literal, H. Qed.

Lemma Top_lexOnce l l' : lexOnce T l = (l', false) -> Top l'.
Proof.
  assert (forall x : Lexer, (x, panicked x) = (l', false) -> panicked x = false /\ x = l')
    as Hnext by (intros x H; inversion H; subst; auto).
  assert (forall t x, (emit t x, panicked (emit t x)) = (l', false) -> Top l') as Hemit.
  { intros t x H. apply Hnext in H as [H <-]. apply Top_emit, H. }
  unfold lexOnce.
  destruct (unicode.IsLetter T (current l)); [apply Hemit|].
  destruct (current l =? rn "_"); [apply Hemit|].
  destruct (current l =? rn "\"); [apply Hemit|].
  destruct (unicode.IsDigit T (current l)).
  { unfold lexNumber. destruct (numberPrefix l) as [[base cantBe0] l1]. apply Hemit. }
  destruct (current l =? rn "'").
  { intros H; apply Hnext in H as [H <-]. unfold lexRune in *.
    destruct (runeChars _ _ _) as [[k|] l2] eqn:E; [apply Top_emit, H|].
    right. destruct (runeChars_open _ _ _ _ (left_turns _) E) as (l3 & -> & Hcur).
    exact Hcur. }
  destruct (current l =? dquote).
  { intros H; apply Hnext in H as [H <-]. unfold lexString in *.
    destruct (stringChars _ _) as [[|] l2] eqn:E; [apply Top_emit, H|].
    right. destruct (stringChars_open _ _ _ (left_turns _) E) as (l3 & -> & Hcur).
    exact Hcur. }
  destruct (token.IsOperator _); [apply Hemit|].
  destruct (current l =? rn "#"); [apply Hemit|].
  destruct (_ && _); [apply Hemit|].
  destruct (_ || _).
  { intros H; apply Hnext in H as [H <-]. left. reflexivity. }
  destruct (current l =? eof); [discriminate|].
  apply Hemit.
Qed.

Lemma Top_Lex src : Top (Lex src).
Proof.
  left. unfold Lex, readRune; simpl.
  match goal with |- context [readLoop ?s ?f ?x] =>
    destruct (readLoop s f x) as [r l2] eqn:H end.
  apply readLoop_window in H. simpl. apply H.
Qed.

(** ** The underscore token *)

Lemma Lookup_Underscore s : token.Lookup s = token.Underscore -> s = "_"%string.
Proof.
  unfold token.Lookup. destruct (token.stringToType !! s) as [t|] eqn:E; [|discriminate].
  destruct (token.IsKeyword t); [|discriminate].
  intros ->. apply stringToType_lookup in E. symmetry. exact E.
Qed.

Lemma NewTokenType_Underscore s :
  token.NewTokenType s = token.Underscore -> s = "_"%string.
Proof.
  unfold token.NewTokenType. destruct (token.stringToType !! s) as [t|] eqn:E; [|discriminate].
  simpl. intros ->. apply stringToType_lookup in E. symmetry. exact E.
Qed.

Lemma oneUnderscore_emit t l :
  (t = token.Underscore -> tokenLiteral l = "_"%string) ->
  Forall oneUnderscore (tokenStream l) -> Forall oneUnderscore (tokenStream (emit t l)).
Proof.
  intros Ht H. rewrite emit_stream. destruct (closed l); [exact H|].
  apply Forall_app; split; [exact H|]. constructor; [|constructor]. exact Ht.
Qed.

Lemma oneUnderscore_lexOnce l :
  Top l -> Forall oneUnderscore (tokenStream l) ->
  Forall oneUnderscore (tokenStream (fst (lexOnce T l))).
Proof.
  intros HT H. unfold lexOnce.
  destruct (unicode.IsLetter T (current l)).
  { apply oneUnderscore_emit; [apply Lookup_Underscore|].
    rewrite (stream_consumeIdentifier _ l eq_refl). exact H. }
  destruct (current l =? rn "_") eqn:E1.
  { apply Z.eqb_eq in E1. apply oneUnderscore_emit; [|rewrite stream_consume; exact H].
    intros _. destruct (consume_window l) as (_ & _ & _ & _ & W5 & _).
    rewrite W5, E1. destruct HT as [-> | [HT | HT]]; [reflexivity | |];
      rewrite E1 in HT; discriminate HT. }
  destruct (current l =? rn "\").
  { apply oneUnderscore_emit; [discriminate|].
    rewrite stream_consume, (stream_consumeIdentifier _ _ (stream_consume l)). exact H. }
  destruct (unicode.IsDigit T (current l)).
  { simpl. unfold lexNumber.
    destruct (numberPrefix l) as [[base cantBe0] l1] eqn:E.
    apply oneUnderscore_emit; [discriminate|].
    rewrite (stream_number _ _ _ _ _ E eq_refl). exact H. }
  destruct (current l =? rn "'").
  { simpl. unfold lexRune.
    pose proof (stream_runeChars _ (turns (consume l)) 0 _ (stream_consume l)) as Hs.
    destruct (runeChars _ _ _) as [[k|] l2]; simpl in Hs; [|rewrite Hs; exact H].
    apply oneUnderscore_emit; [discriminate|].
    repeat (destruct (_ <? _); [simpl; rewrite stream_consume, Hs; exact H|]).
    rewrite stream_consume, Hs; exact H. }
  destruct (current l =? dquote).
  { simpl. unfold lexString.
    pose proof (stream_stringChars _ (turns (consume l)) _ (stream_consume l)) as Hs.
    destruct (stringChars _ _) as [[|] l2]; simpl in Hs; [|rewrite Hs; exact H].
    apply oneUnderscore_emit; [discriminate|].
    rewrite stream_consume, Hs; exact H. }
  destruct (token.IsOperator _).
  { apply oneUnderscore_emit; [apply NewTokenType_Underscore|].
    rewrite (stream_consumeWhile (tokenStream l) _ _ l); [exact H | | reflexivity].
    intros l' H'. not_eof H'. }
  destruct (current l =? rn "#").
  { apply oneUnderscore_emit; [discriminate|].
    rewrite (stream_consumeWhile (tokenStream l) _ _ l); [exact H | | reflexivity].
    intros l' H' E. rewrite E in H'. discriminate H'. }
  destruct (_ && _).
  { apply oneUnderscore_emit; [discriminate | exact H]. }
  destruct (_ || _).
  { change (Forall oneUnderscore
              (tokenStream (consumeWhile (fun l0 => unicode.IsSpace T (current l0))
                              (turns l) l))).
    rewrite (stream_consumeWhile (tokenStream l) _ _ l); [exact H | | reflexivity].
    intros l' H'. not_eof H'. }
  destruct (current l =? eof).
  { simpl. unfold close. destruct (closed l); exact H. }
  apply oneUnderscore_emit; [discriminate|].
  rewrite stream_consume. exact H.
Qed.

Lemma oneUnderscore_lex n : forall l,
  Top l -> Forall oneUnderscore (tokenStream l) ->
  Forall oneUnderscore (tokenStream (fst (lex T n l))).
Proof.
  induction n as [|n IH]; intros l HT H; simpl; [exact H|].
  pose proof (oneUnderscore_lexOnce l HT H) as H1.
  destruct (lexOnce T l) as [l' [|]] eqn:E; [exact H1|].
  apply IH; [eapply Top_lexOnce; exact E | exact H1].
Qed.

Lemma underscore_before_letter : ~ underscore_stands_alone.
Proof.
  intros H.
  pose proof (H (NewReader ("_a"%string)) O _
                (tok token.Underscore "_" 1 1)
                eq_refl eq_refl eq_refl) as C.
  vm_compute in C. discriminate C.
Qed.

(** C3, amended: every underscore token the engine emits is exactly one
    underscore; a dispatch on an underscore consumes that rune and emits,
    whatever rune follows; and an underscore before a letter gives the
    underscore token and then an identifier. *)
Theorem underscore_token :
  (forall src n, Forall oneUnderscore (tokenStream (fst (lex T n (Lex src)))))
  /\ (forall l,
        let l0 := withCurrent (rn "_") l in
        lexOnce T l0 =
        (emit token.Underscore (consume l0), panicked (emit token.Underscore (consume l0))))
  /\ (forall more,
        let final := scan (3 + more) ("_a"%string) in
        over (3 + more) ("_a"%string) = true
        /\ tokenStream final =
             [tok token.Underscore "_" 1 1;
              tok token.Identifier "a" 1 2]
        /\ handled final = []).
Proof.
  split; [|split].
  - intros src n. apply oneUnderscore_lex; [apply Top_Lex|].
    destruct (Lex_window src) as (-> & _). constructor.
  - intros l. reflexivity.
  - intros more final; subst final; settle.
    repeat split; vm_compute; reflexivity.
Qed.

(** ** Dispatch *)

Ltac dispatch :=
  repeat match goal with
         | |- (if ?b then _ else _) = _ =>
           let v := eval vm_compute in b in
           replace b with v by (vm_compute; reflexivity); cbv iota
         end.

Lemma lexOnce_eof l : current l = eof -> lexOnce T l = (close l, true).
Proof.
  intros H. unfold lexOnce. cbv zeta. rewrite H. dispatch. reflexivity.
Qed.

Lemma lexOnce_dquote l :
  current l = dquote -> lexOnce T l = (lexString l, panicked (lexString l)).
Proof.
  intros H. unfold lexOnce. cbv zeta. rewrite H. dispatch. reflexivity.
Qed.

Lemma lexOnce_backslash l :
  current l = rn "\" ->
  lexOnce T l =
  (emit token.Identifier (consume (consumeIdentifier T (consume l))),
   panicked (emit token.Identifier (consume (consumeIdentifier T (consume l))))).
Proof.
  intros H. unfold lexOnce. cbv zeta. rewrite H. dispatch. reflexivity.
Qed.

(** ** Reading runes the reader hands over as they are *)

Lemma readLoop_plain c size rest first l :
  plain c size -> readLoop (RuneRead c size :: rest) first l = (c, withSource rest l).
Proof.
  intros [Hb He]. simpl.
  destruct ((c =? utf8.RuneError) && (size =? 1)) eqn:E1.
  { apply andb_true_iff in E1. rewrite !Z.eqb_eq in E1. contradiction. }
  destruct (c =? bom) eqn:E2; [apply Z.eqb_eq in E2; contradiction | reflexivity].
Qed.

Lemma consume_plain l c size rest :
  closed l = false -> source l = RuneRead c size :: rest -> plain c size ->
  consume l = consumed l c rest.
Proof.
  intros Hc Hs Hp. unfold consume, readRune; simpl.
  rewrite Hc, Hs, (readLoop_plain _ _ _ _ _ Hp).
  unfold consumed, withCurrent, withSource, advance; simpl. rewrite Hc. reflexivity.
Qed.

Lemma consume_end l :
  closed l = false -> source l = [] -> consume l = consumed l eof [].
Proof.
  intros Hc Hs. unfold consume, readRune; simpl. rewrite Hc, Hs. simpl.
  unfold consumed, withCurrent, withSource, advance; simpl. rewrite Hc. reflexivity.
Qed.

Lemma Lex_plain c size rest :
  plain c size ->
  Lex (RuneRead c size :: rest) =
  {| source := rest; current := c; tokenStream := []; closed := false;
     Errors := 0; handled := []; insertSemi := false;
     tokenStart := file.Origin; tokenEnd := file.Origin;
     tokenLiteral := EmptyString; panicked := false |}.
Proof.
  intros Hp. unfold Lex, readRune. cbn [closed source].
  rewrite (readLoop_plain _ _ _ _ _ Hp). reflexivity.
Qed.

Lemma lex_S n l :
  lex T (S n) l = let (l', over) := lexOnce T l in if over then (l', true) else lex T n l'.
Proof. reflexivity. Qed.

(** ** A string literal left open at the end of the input *)

Lemma stringChars_at_eof fuel l :
  current l = eof ->
  stringChars (S fuel) l = (false, raise ErrUnclosedStringLit l).
Proof. intros H. simpl. rewrite H. reflexivity. Qed.

Lemma stringChars_ordinary text : forall l fuel,
  closed l = false -> source l = text -> Forall ordinary text ->
  current l <> dquote -> current l <> rn "\" -> current l <> newline -> current l <> eof ->
  (length text + 1 < fuel)%nat ->
  exists l2,
    stringChars fuel l = (false, raise ErrUnclosedStringLit l2)
    /\ tokenStream l2 = tokenStream l /\ handled l2 = handled l
    /\ Errors l2 = Errors l /\ closed l2 = false /\ panicked l2 = panicked l
    /\ current l2 = eof.
Proof.
  induction text as [|[c size|msg] rest IH];
    intros l fuel Hc Hs Hall N1 N2 N3 N4 Hf;
    (destruct fuel as [|fuel]; [simpl in Hf; lia|]);
    simpl stringChars;
    apply Z.eqb_neq in N1, N2, N3, N4; rewrite N1, N3, N4; simpl orb; cbv iota;
    unfold consumeRune; rewrite N2.
  - rewrite (consume_end l Hc Hs).
    destruct fuel as [|fuel]; [simpl in Hf; lia|].
    rewrite stringChars_at_eof by reflexivity.
    eexists; split; [reflexivity|]. simpl. repeat split; assumption.
  - inversion Hall as [|? ? Ho Hrest]; subst.
    destruct Ho as (Hp & O1 & O2 & O3 & O4).
    rewrite (consume_plain l c size rest Hc Hs Hp).
    destruct (IH (consumed l c rest) fuel) as (l2 & E & F1 & F2 & F3 & F4 & F5 & F6);
      try assumption; try reflexivity; [simpl in Hf; lia|].
    exists l2. split; [exact E|]. simpl in *. repeat split; assumption.
  - inversion Hall as [|? ? Ho ?]. destruct Ho.
Qed.

(** C7: a double quote, ordinary text and then the end of the input: the
    scan reports the unterminated string once and nothing else, emits no
    token, ends with the engine closed and without a panic, and every
    [NextToken] then returns the terminal token. *)
Theorem unterminated_string :
  forall size text more,
    Forall ordinary text ->
    let run := lex T (2 + more) (Lex (RuneRead dquote size :: text)) in
    snd run = true
    /\ (exists p, handled (fst run) = [{| pos := p; err := ErrUnclosedStringLit |}])
    /\ Errors (fst run) = 1
    /\ tokenStream (fst run) = []
    /\ closed (fst run) = true /\ panicked (fst run) = false
    /\ forall seesClosed k, terminal (NextToken seesClosed k (fst run)).
Proof.
  intros size text more Hall run. subst run.
  assert (plain dquote size) as Hq.
  { split; [discriminate|]. intros [E _]. discriminate E. }
  rewrite (Lex_plain _ _ _ Hq).
  set (l0 := {| source := text |}).
  assert (exists l2,
             lexString l0 = raise ErrUnclosedStringLit l2
             /\ tokenStream l2 = [] /\ handled l2 = [] /\ Errors l2 = 0
             /\ closed l2 = false /\ panicked l2 = false /\ current l2 = eof)
    as (l2 & E & F1 & F2 & F3 & F4 & F5 & F6).
  { unfold lexString. destruct text as [|[c sz|msg] rest].
    - rewrite (consume_end l0 eq_refl eq_refl).
      exists (consumed l0 eof []). split; [reflexivity|]. repeat split.
    - inversion Hall as [|? ? Ho Hrest]; subst.
      destruct Ho as (Hp & O1 & O2 & O3 & O4).
      rewrite (consume_plain l0 c sz rest eq_refl eq_refl Hp).
      destruct (stringChars_ordinary rest (consumed l0 c rest)
                  (turns (consumed l0 c rest)))
        as (l2 & E & G1 & G2 & G3 & G4 & G5 & G6);
        try assumption; try reflexivity; [unfold turns; simpl; lia|].
      rewrite E. exists l2. split; [reflexivity|]. repeat split; assumption.
    - inversion Hall as [|? ? Ho ?]. destruct Ho. }
  change (2 + more)%nat with (S (S more)).
  rewrite lex_S, (lexOnce_dquote l0 eq_refl), E.
  cbn [panicked raise raiseAt]. rewrite F5.
  rewrite lex_S, lexOnce_eof by exact F6.
  cbn [fst snd].
  assert (tokenStream (close (raise ErrUnclosedStringLit l2)) = []) as S1.
  { unfold close, raise, raiseAt; simpl. rewrite F4. exact F1. }
  repeat split.
  - exists (tokenEnd l2). unfold close, raise, raiseAt; simpl. rewrite F4; simpl.
    rewrite F2. reflexivity.
  - unfold close, raise, raiseAt; simpl. rewrite F4; simpl. rewrite F3. reflexivity.
  - exact S1.
  - unfold close, raise, raiseAt; simpl. rewrite F4. reflexivity.
  - unfold close, raise, raiseAt; simpl. rewrite F4. exact F5.
  - apply NextToken_terminal. rewrite S1. simpl. lia.
  - apply NextToken_terminal. rewrite S1. simpl. lia.
Qed.

(** ** Escaped identifiers *)

Lemma append_assoc (s1 s2 s3 : string) :
  ((s1 ++ s2) ++ s3 = s1 ++ (s2 ++ s3))%string.
Proof.
  induction s1 as [|a s1 IH]; [reflexivity|].
  change (String a ((s1 ++ s2) ++ s3) = String a (s1 ++ (s2 ++ s3)))%string.
  f_equal; exact IH.
Qed.

Lemma append_nil_r (s : string) : (s ++ EmptyString)%string = s.
Proof.
  induction s as [|a s IH]; [reflexivity|].
  change (String a (s ++ EmptyString)%string = String a s). f_equal; exact IH.
Qed.

Lemma readLoop_no_failure src : forall first l,
  Forall notFailure src -> closed l = false ->
  closed (snd (readLoop src first l)) = false.
Proof.
  induction src as [|[c size|msg] rest IH]; intros first l Hall Hc; simpl.
  - exact Hc.
  - inversion Hall; subst.
    destruct (_ && _); [apply IH; assumption|].
    destruct (c =? bom); [apply IH; [assumption | destruct first; exact Hc] | exact Hc].
  - inversion Hall as [|? ? Hf ?]. destruct Hf.
Qed.

Lemma consume_no_failure l :
  Forall notFailure (source l) -> closed l = false -> closed (consume l) = false.
Proof.
  intros Hall Hc. unfold consume, readRune; simpl. rewrite Hc.
  match goal with |- context [readLoop ?s ?f ?x] =>
    pose proof (readLoop_no_failure s f x Hall eq_refl) as H;
    destruct (readLoop s f x) as [r l2] end.
  exact H.
Qed.

(** Reading the rune that stops the run. *)
Lemma consume_stop l tail :
  closed l = false -> source l = tail -> stopsRun tail ->
  consume l = consumed l (headRune tail) (tl tail).
Proof.
  intros Hc Hs Hstop. destruct tail as [|[c size|msg] rest]; simpl in *.
  - apply consume_end; assumption.
  - eapply consume_plain; [exact Hc | exact Hs | apply Hstop].
  - destruct Hstop.
Qed.

Lemma headRune_stops tail : stopsRun tail -> identifierRune T (headRune tail) = false.
Proof.
  destruct tail as [|[c size|msg] rest]; simpl; [reflexivity | tauto | reflexivity].
Qed.

Lemma consumeIdentifier_run tail : forall run l fuel,
  closed l = false -> source l = run ++ tail ->
  Forall identRead run -> stopsRun tail ->
  identifierRune T (current l) = true ->
  (length run < fuel)%nat ->
  let l2 := consumeWhile (fun l => identifierRune T (current l)) fuel l in
  current l2 = headRune tail
  /\ tokenLiteral l2 = (tokenLiteral l ++ utf8.string_of_rune (current l) ++ runText run)%string
  /\ source l2 = tl tail /\ closed l2 = false
  /\ tokenStream l2 = tokenStream l /\ tokenStart l2 = tokenStart l.
Proof.
  induction run as [|[c size|msg] run IH]; intros l fuel Hc Hs Hrun Hstop Hid Hf;
    (destruct fuel as [|fuel]; [simpl in Hf; lia|]); simpl consumeWhile; rewrite Hid.
  - rewrite (consume_stop l tail Hc Hs Hstop).
    assert (consumeWhile (fun l => identifierRune T (current l)) fuel
              (consumed l (headRune tail) (tl tail))
            = consumed l (headRune tail) (tl tail)) as ->.
    { destruct fuel; simpl; [reflexivity|]. rewrite headRune_stops by exact Hstop.
      reflexivity. }
    simpl. repeat split; try assumption.
    rewrite append_nil_r. reflexivity.
  - inversion Hrun as [|? ? Hr Hrest]; subst. destruct Hr as [Hp Hi].
    rewrite (consume_plain l c size (run ++ tail) Hc Hs Hp).
    destruct (IH (consumed l c (run ++ tail)) fuel) as (E1 & E2 & E3 & E4 & E5 & E6);
      try assumption; try reflexivity; [simpl in Hf; lia|].
    simpl in *. repeat split; try assumption.
    rewrite E2, append_assoc. reflexivity.
  - inversion Hrun as [|? ? Hr ?]. destruct Hr.
Qed.

(** C10: on a backslash the engine consumes it, then the longest run of
    letters, digits and underscores, then one more rune whatever it is
    (the end marker when the input ends there), and emits one identifier
    token whose literal is the backslash, the run and that last rune; so
    a backslash, [ab] and a star give one identifier with that very text.
    The reads are taken not to fail. *)
Theorem escaped_identifier :
  (forall l run tail,
      current l = rn "\" -> closed l = false ->
      source l = run ++ tail ->
      Forall identRead run -> stopsRun tail -> Forall notFailure tail ->
      tokenStream (fst (lexOnce T l)) =
      tokenStream l ++
        [{| token.Type_ := token.Identifier;
            token.Literal :=
              (tokenLiteral l ++ utf8.string_of_rune (rn "\") ++ runText run
                 ++ utf8.string_of_rune (headRune tail))%string;
            token.Pos := tokenStart l |}])
  /\ (forall more,
        let final := scan (2 + more) "\ab*" in
        over (2 + more) "\ab*" = true
        /\ tokenStream final = [tok token.Identifier "\ab*" 1 1]
        /\ handled final = []).
Proof.
  split.
  - intros l run tail Hcur Hc Hs Hrun Hstop Hnf.
    rewrite (lexOnce_backslash l Hcur). cbn [fst]. rewrite emit_stream.
    assert (Forall notFailure (tl tail)) as Hnf'.
    { destruct tail; [constructor | inversion Hnf; assumption]. }
    assert (exists l2,
               consumeIdentifier T (consume l) = l2
               /\ current l2 = headRune tail
               /\ tokenLiteral l2 =
                    (tokenLiteral l ++ utf8.string_of_rune (rn "\") ++ runText run)%string
               /\ source l2 = tl tail /\ closed l2 = false
               /\ tokenStream l2 = tokenStream l /\ tokenStart l2 = tokenStart l)
      as (l2 & -> & E1 & E2 & E3 & E4 & E5 & E6).
    { eexists; split; [reflexivity|]. unfold consumeIdentifier.
      destruct run as [|[c size|msg] run].
      - rewrite (consume_stop l tail Hc Hs Hstop).
        cbn [turns consumeWhile current consumed].
        rewrite headRune_stops by exact Hstop. simpl.
        rewrite Hcur, append_nil_r. repeat split; assumption.
      - inversion Hrun as [|? ? Hr Hrest]; subst. destruct Hr as [Hp Hi].
        rewrite (consume_plain l c size (run ++ tail) Hc Hs Hp).
        destruct (consumeIdentifier_run tail run (consumed l c (run ++ tail))
                    (turns (consumed l c (run ++ tail))))
          as (F1 & F2 & F3 & F4 & F5 & F6);
          try assumption; try reflexivity.
        { unfold turns; simpl. rewrite length_app. lia. }
        simpl in *. repeat split; try assumption.
        rewrite F2, Hcur, append_assoc. reflexivity.
      - inversion Hrun as [|? ? Hr ?]. destruct Hr. }
    destruct (consume_window l2) as (W1 & _ & W3 & _ & W5 & _).
    rewrite consume_no_failure; [|rewrite E3; exact Hnf' | exact E4].
    rewrite W1, W3, W5, E1, E2, E5, E6, !append_assoc. reflexivity.
  - intros more final; subst final; settle.
    repeat split; vm_compute; reflexivity.
Qed.

(** ** The loop need not end

    [lex] starts a number on any rune of the Unicode class of decimal
    digits, while [lexNumber] consumes the ASCII digits only.  On a
    digit of another script nothing is consumed, a number token with no
    text is emitted, and the next turn meets the same rune again.  This
    is why the theorems on the whole scan speak of the state after any
    number of turns. *)
Lemma lexOnce_foreign_digit l :
  unicode.MaxLatin1 < current l ->
  unicode.IsLetter T (current l) = false ->
  unicode.IsDigit T (current l) = true ->
  unicode.ToLower T (current l) <> rn "e" ->
  unicode.ToLower T (current l) <> rn "p" ->
  lexOnce T l = (emit token.Number l, closed l).
Proof.
  intros Hd HL HD He Hp. unfold unicode.MaxLatin1 in Hd.
  assert (forall a : ascii, (current l =? rn a) = false) as Hne.
  { intros a. apply Z.eqb_neq. unfold rn.
    pose proof (N_ascii_bounded a). lia. }
  assert (forall base, token.IsDigit (current l) base = false) as Hnd.
  { intros base. unfold token.IsDigit.
    replace (rn "A" <=? current l) with true
      by (symmetry; apply Z.leb_le; change (rn "A") with 65; lia).
    replace (current l <=? rn "F") with false
      by (symmetry; apply Z.leb_gt; change (rn "F") with 70; lia).
    replace (current l <=? rn "f") with false
      by (symmetry; apply Z.leb_gt; change (rn "f") with 102; lia).
    replace (current l <=? rn "7") with false
      by (symmetry; apply Z.leb_gt; change (rn "7") with 55; lia).
    rewrite !Hne, !andb_false_r. reflexivity. }
  unfold lexOnce. cbv zeta. rewrite HL, !Hne, HD.
  unfold lexNumber, numberPrefix. rewrite Hne.
  unfold numberBody, consumeDigits. rewrite !Hnd. cbn [negb andb turns consumeWhile].
  rewrite Hnd. change (10 <? 10) with false. cbv iota. rewrite Hne.
  unfold exponentIndicator.
  apply Z.eqb_neq in He, Hp. rewrite He, Hp, !andb_false_r. cbn [orb].
  f_equal. unfold emit, send. destruct (decide _); [discriminate|]. simpl.
  destruct (closed l); reflexivity.
Qed.

Lemma lex_foreign_digit n : forall l,
  unicode.MaxLatin1 < current l ->
  unicode.IsLetter T (current l) = false ->
  unicode.IsDigit T (current l) = true ->
  unicode.ToLower T (current l) <> rn "e" ->
  unicode.ToLower T (current l) <> rn "p" ->
  closed l = false ->
  snd (lex T n l) = false
  /\ tokenStream (fst (lex T n l)) =
     tokenStream l ++
       match n with
       | O => []
       | S n' =>
         {| token.Type_ := token.Number; token.Literal := tokenLiteral l;
            token.Pos := tokenStart l |}
         :: repeat {| token.Type_ := token.Number; token.Literal := "";
                      token.Pos := tokenEnd l |} n'
       end.
Proof.
  induction n as [|n IH]; intros l Hd HL HD He Hp Hc.
  - simpl. rewrite app_nil_r. split; reflexivity.
  - rewrite lex_S, (lexOnce_foreign_digit l Hd HL HD He Hp), Hc.
    assert (emit token.Number l =
            discard (withInsertSemi true
                       {| source := source l; current := current l;
                          tokenStream := tokenStream l ++
                            [{| token.Type_ := token.Number;
                                token.Literal := tokenLiteral l;
                                token.Pos := tokenStart l |}];
                          closed := closed l; Errors := Errors l; handled := handled l;
                          insertSemi := insertSemi l; tokenStart := tokenStart l;
                          tokenEnd := tokenEnd l; tokenLiteral := tokenLiteral l;
                          panicked := false |})) as E.
    { unfold emit, send. destruct (decide _); [discriminate|]. simpl. rewrite Hc.
      reflexivity. }
    rewrite E. clear E.
    match goal with |- context [lex T n ?x] => destruct (IH x) as [I1 I2]; try assumption end.
    split; [exact I1|]. rewrite I2. simpl. rewrite <- app_assoc. simpl.
    destruct n; reflexivity.
Qed.

End Scan.

(** * Instances

    The theorems above hold for every table of the character classes.
    The instances below take the tables with nothing above Latin-1,
    which the inputs used here never reach. *)
(** The claim on the underscore token, as worded, fails whatever the
    tables are: an underscore before a letter is emitted as the
    underscore token. *)
Lemma underscore_stands_alone_refuted : ~ (exists T, underscore_stands_alone T).
Proof. intros [T H]. exact (underscore_before_letter T H). Qed.

Lemma positions_never_decrease_witness :
  let src := NewReader (line "a") in
  let l := fst (lex latin1Tables 4 (Lex src)) in
  Z.of_nat (length src) < 2 ^ 61
  /\ StronglySorted pos_le (map token.Pos (tokenStream l))
  /\ tokenStream l = [tok token.Identifier "a" 1 1; tok token.Semicolon "" 1 2].
Proof.
  intros src l.
  assert (Z.of_nat (length src) < 2 ^ 61) as H1 by (vm_compute; reflexivity).
  split; [exact H1|]. split.
  - exact (proj1 (proj2 (proj2 (positions_never_decrease latin1Tables src 4 H1)))).
  - vm_compute. reflexivity.
Defined.

Lemma unterminated_string_witness :
  let text := NewReader "unterminated" in
  let run := lex latin1Tables 2 (Lex (RuneRead dquote 1 :: text)) in
  Forall ordinary text
  /\ snd run = true /\ Errors (fst run) = 1 /\ tokenStream (fst run) = []
  /\ closed (fst run) = true.
Proof.
  intros text run.
  assert (Forall ordinary text) as H.
  { subst text. vm_compute.
    repeat (constructor;
            [repeat split; try discriminate; intros [E _]; discriminate E|]).
    constructor. }
  split; [exact H|].
  destruct (unterminated_string latin1Tables 1 text 0 H) as (R1 & _ & R3 & R4 & R5 & _).
  repeat split; assumption.
Defined.

Lemma escaped_identifier_witness :
  let l := Lex (NewReader "\ab*") in
  let run := [RuneRead (rn "a") 1; RuneRead (rn "b") 1] in
  let tail := [RuneRead (rn "*") 1] in
  current l = rn "\" /\ closed l = false /\ source l = run ++ tail
  /\ Forall (identRead latin1Tables) run /\ stopsRun latin1Tables tail
  /\ Forall notFailure tail
  /\ tokenStream (fst (lexOnce latin1Tables l)) = [tok token.Identifier "\ab*" 1 1].
Proof.
  intros l run tail.
  assert (current l = rn "\") as H1 by reflexivity.
  assert (closed l = false) as H2 by reflexivity.
  assert (source l = run ++ tail) as H3 by reflexivity.
  assert (Forall (identRead latin1Tables) run) as H4.
  { repeat (constructor;
            [split; [split; [discriminate | intros [E _]; discriminate E] | reflexivity]|]).
    constructor. }
  assert (stopsRun latin1Tables tail) as H5.
  { split; [split; [discriminate | intros [E _]; discriminate E] | reflexivity]. }
  assert (Forall notFailure tail) as H6 by (repeat constructor).
  repeat (split; [assumption|]).
  exact (proj1 (escaped_identifier latin1Tables) l run tail H1 H2 H3 H4 H5 H6).
Defined.

Lemma scan_of_arabic_digit_goes_on n :
  snd (lex arabicDigits n
         (Lex (NewReader (String (ascii_of_nat 217) (String (ascii_of_nat 161) "")))))
  = false.
Proof.
  apply lex_foreign_digit; try (vm_compute; reflexivity); vm_compute; discriminate.
Qed.

(** * Further properties

    What follows goes beyond the claims of the specification: properties
    of the vocabulary of package [token] and of the engine, read off the
    code. *)

(** ** The vocabulary, both ways *)

Lemma lookup_literal t :
  token.stringToType !! token.literal (token.typeToString t) =
  if decide (token.literal (token.typeToString t) = EmptyString) then None else Some t.
Proof. destruct t; vm_compute; reflexivity. Qed.

Lemma append_cons a p q : (String a p ++ q)%string = String a (p ++ q)%string.
Proof. reflexivity. Qed.

Ltac peel :=
  match goal with
  | H : _ = (?p ++ _)%string |- _ =>
    destruct p;
    [ vm_compute; reflexivity
    | rewrite append_cons in H;
      first [discriminate H | (inversion H; subst; clear H; peel)] ]
  end.

(** X1: every type lies in exactly one of the three bands, except the
    special types and the boundary values, which lie in none. *)
Theorem bands_partition :
  forall t,
    (Nat.b2n (token.IsLiteral t) + Nat.b2n (token.IsOperatorType t)
     + Nat.b2n (token.IsKeyword t))%nat
    = if bool_decide (t ∈ bandless) then 0%nat else 1%nat.
Proof. destruct t; vm_compute; reflexivity. Qed.

(** X2: [stringToType] inverts [typeToString]: the type of the literal of
    a type is that type (and [EOF], the zero value, for a boundary value,
    which has no literal); and a string found in the map is the literal of
    the type found, and is not empty. *)
Theorem vocabulary_round_trip :
  (forall t,
      token.NewTokenType (token.literal (token.typeToString t)) =
      if decide (token.literal (token.typeToString t) = EmptyString)
      then token.EOF else t)
  /\ (forall s t,
         token.stringToType !! s = Some t <->
         s <> EmptyString /\ t <> token.keywordEnd
         /\ token.literal (token.typeToString t) = s).
Proof.
  split.
  - intros t. unfold token.NewTokenType. rewrite lookup_literal.
    destruct (decide _); reflexivity.
  - intros s t. split.
    + intros H. pose proof (stringToType_lookup s t H) as E. subst s.
      rewrite lookup_literal in H. destruct (decide _) as [Hd|Hd]; [discriminate|].
      repeat split; [exact Hd|]. intros ->. apply Hd. reflexivity.
    + intros (Hs & _ & <-). rewrite lookup_literal.
      destruct (decide _); [contradiction | reflexivity].
Qed.

(** X3: [Lookup] answers a keyword exactly on the literal of that
    keyword, and [Identifier] on every other name, the literals of the
    operators among them. *)
Theorem Lookup_keyword_or_identifier :
  forall name,
    (token.IsKeyword (token.Lookup name) = true
     /\ token.literal (token.typeToString (token.Lookup name)) = name)
    \/ (token.Lookup name = token.Identifier
        /\ forall k, token.IsKeyword k = true ->
                     token.literal (token.typeToString k) <> name).
Proof.
  intros name. unfold token.Lookup.
  destruct (token.stringToType !! name) as [t|] eqn:E.
  - destruct (token.IsKeyword t) eqn:Ek.
    + left. split; [exact Ek | apply stringToType_lookup, E].
    + right. split; [reflexivity|]. intros k Hk Hn. subst name.
      rewrite lookup_literal in E. destruct (decide _); [discriminate|].
      inversion E; subst. congruence.
  - right. split; [reflexivity|]. intros k Hk Hn. subst name.
    rewrite lookup_literal in E. destruct (decide _) as [Hd|]; [|discriminate].
    destruct k; vm_compute in Hk; try discriminate Hk; discriminate Hd.
Qed.

(** X4: the rule the table of literals is written under: every prefix of
    an operator, the empty one apart, is an operator. *)
Theorem operator_prefix_closed :
  forall s p, token.IsOperator s = true -> properPrefix p s -> token.IsOperator p = true.
Proof.
  intros s p Hop [Hne [q Hq]].
  apply IsOperator_literal in Hop as [t [Ht E]].
  destruct p as [|a p]; [contradiction|].
  destruct t; vm_compute in Ht; try discriminate Ht;
    cbn [token.typeToString token.literal] in E; subst s;
    rewrite append_cons in Hq; inversion Hq; subst; clear Hq; peel.
Qed.

(** The digits of the four bases the lexer uses, as ranges. *)
Lemma IsDigit_ranges :
  forall r,
    (token.IsDigit r 2 = (r =? rn "0") || (r =? rn "1"))
    /\ (token.IsDigit r 8 = (rn "0" <=? r) && (r <=? rn "7"))
    /\ (token.IsDigit r 10 = (rn "0" <=? r) && (r <=? rn "9"))
    /\ (token.IsDigit r 16 =
        (rn "0" <=? r) && (r <=? rn "9")
        || (rn "a" <=? r) && (r <=? rn "f")
        || (rn "A" <=? r) && (r <=? rn "F")).
Proof.
  intros r. unfold token.IsDigit.
  change (rn "0") with 48. change (rn "1") with 49. change (rn "2") with 50.
  change (rn "7") with 55. change (rn "8") with 56. change (rn "9") with 57.
  change (rn "A") with 65. change (rn "F") with 70.
  change (rn "a") with 97. change (rn "f") with 102.
  change (2 =? 16) with false. change (8 =? 16) with false.
  change (10 =? 16) with false. change (16 =? 16) with true.
  change (10 <=? 2) with false. change (8 <=? 2) with false.
  change (10 <=? 8) with false. change (8 <=? 8) with true.
  change (10 <=? 10) with true. change (8 <=? 10) with true.
  change (10 <=? 16) with true. change (8 <=? 16) with true.
  repeat split;
    repeat match goal with
           | |- context [?a <=? ?b] => destruct (Z.leb_spec a b)
           | |- context [?a =? ?b] => destruct (Z.eqb_spec a b)
           end; simpl; try reflexivity; lia.
Qed.

(** X5: a digit of a base is a digit of every larger base up to 16, the
    digits 0 and 1 are digits of every base whatever, and a digit of base
    10 is a decimal digit for [unicode.IsDigit], on which [lex] starts a
    number. *)
Theorem IsDigit_nested :
  (forall r base base',
      token.IsDigit r base = true -> base <= base' <= 16 ->
      token.IsDigit r base' = true)
  /\ (forall base, token.IsDigit (rn "0") base = true /\ token.IsDigit (rn "1") base = true)
  /\ (forall T r, token.IsDigit r 10 = true -> unicode.IsDigit T r = true).
Proof.
  split; [|split].
  - intros r base base'. unfold token.IsDigit.
    repeat match goal with
           | |- context [if ?c then _ else _] => destruct c
           end; rewrite ?Z.eqb_eq, ?Z.leb_le; try discriminate; try reflexivity; lia.
  - intros base. split; reflexivity.
  - intros T r. destruct (IsDigit_ranges r) as (_ & _ & -> & _).
    unfold unicode.IsDigit, unicode.MaxLatin1.
    change (rn "0") with 48. change (rn "9") with 57.
    intros H. apply andb_true_iff in H. rewrite !Z.leb_le in H.
    replace (r <=? 255) with true by (symmetry; apply Z.leb_le; lia).
    apply andb_true_iff. rewrite !Z.leb_le. exact H.
Qed.

Lemma IsDigit_nested_witness :
  token.IsDigit (rn "7") 8 = true /\ 8 <= 10 <= 16 /\ token.IsDigit (rn "7") 10 = true.
Proof.
  assert (token.IsDigit (rn "7") 8 = true) as H1 by reflexivity.
  assert (8 <= 10 <= 16) as H2 by lia.
  split; [exact H1|]. split; [exact H2|].
  exact (proj1 IsDigit_nested (rn "7") 8 10 H1 H2).
Defined.

Lemma operator_prefix_closed_witness :
  token.IsOperator "<<=" = true /\ properPrefix "<<" "<<="
  /\ token.IsOperator "<<" = true.
Proof.
  assert (token.IsOperator "<<=" = true) as H1 by (vm_compute; reflexivity).
  assert (properPrefix "<<" "<<=") as H2.
  { split; [discriminate | exists "="%string; reflexivity]. }
  split; [exact H1|]. split; [exact H2|].
  exact (operator_prefix_closed "<<=" "<<" H1 H2).
Defined.

(** ** Invariants of the engine *)

Section Invariants.

Variable T : unicode.Tables.

Lemma wrap_incr z : incr (wrap_int z) = wrap_int (z + 1).
Proof.
  unfold incr, wrap_int.
  replace ((z + 2 ^ 63) mod 2 ^ 64 - 2 ^ 63 + 1 + 2 ^ 63)
    with ((z + 2 ^ 63) mod 2 ^ 64 + 1) by lia.
  rewrite Zplus_mod_idemp_l. f_equal. f_equal. lia.
Qed.

Lemma counted_raiseAt c p e l : counted c l -> counted c (raiseAt p e l).
Proof.
  intros [Hc H]. split; [exact Hc|]. unfold raiseAt; simpl.
  rewrite H, wrap_incr, length_app. simpl. f_equal. lia.
Qed.

Lemma counted_readLoop src : forall first l,
  Errors l = wrap_int (Z.of_nat (length (handled l))) ->
  Errors (snd (readLoop src first l))
  = wrap_int (Z.of_nat (length (handled (snd (readLoop src first l))))).
Proof.
  induction src as [|[c size|msg] rest IH]; intros first l H; simpl.
  - exact H.
  - destruct (_ && _); [apply IH, (counted_raiseAt 0), (conj (Z.le_refl 0) H)|].
    destruct (c =? bom); [|exact H].
    apply IH. destruct first; [exact H|].
    apply (counted_raiseAt 0), (conj (Z.le_refl 0) H).
  - pose proof (proj2 (counted_raiseAt 0 (tokenEnd l) (ErrRead msg) (withSource rest l)
                         (conj (Z.le_refl 0) H))) as H'.
    unfold close. destruct (closed _); exact H'.
Qed.

Lemma counted_consume l :
  Errors l = wrap_int (Z.of_nat (length (handled l))) ->
  Errors (consume l) = wrap_int (Z.of_nat (length (handled (consume l)))).
Proof.
  intros H. unfold consume, readRune; simpl.
  destruct (closed l); [exact H|].
  match goal with |- context [readLoop ?s ?f ?x] =>
    pose proof (counted_readLoop s f x H) as H'; destruct (readLoop s f x) as [r l2] end.
  exact H'.
Qed.

Lemma counted_emit c t l : counted c l -> counted c (emit t l).
Proof.
  intros [Hc H]. split; [exact Hc|]. unfold emit, send.
  destruct (decide _); simpl; destruct (closed l); exact H.
Qed.

Lemma counted_lex n src : counted 0 (fst (lex T n (Lex src))).
Proof.
  apply (kept_lex T counted).
  - intros c l H; apply H.
  - intros c c' l Hc [_ H]. split; [lia | exact H].
  - apply counted_raiseAt.
  - intros c l Hc [_ H]. split; [exact Hc | apply counted_consume, H].
  - intros c l _ [Hc H]. split; [lia | apply counted_consume, H].
  - intros c l [Hc H]. split; [exact Hc|]. unfold close. destruct (closed l); exact H.
  - intros c l H. exact H.
  - apply counted_emit.
  - split; [lia|]. unfold Lex, readRune. cbn [closed source].
    match goal with |- context [readLoop ?s ?f ?x] =>
      pose proof (counted_readLoop s f x eq_refl) as H';
      destruct (readLoop s f x) as [r l2] end.
    exact H'.
Qed.

Lemma wrap_small z : - 2 ^ 63 <= z < 2 ^ 63 -> wrap_int z = z.
Proof. intros H. unfold wrap_int. rewrite Z.mod_small; lia. Qed.

(** X6: at every point of the scan the error counter is the number of
    calls of the handler, as a 64-bit integer; below [2^63] calls,
    [HasErrors] tells whether the handler was called. *)
Theorem errors_counted :
  forall src n,
    let l := fst (lex T n (Lex src)) in
    Errors l = wrap_int (Z.of_nat (length (handled l)))
    /\ (Z.of_nat (length (handled l)) < 2 ^ 63 ->
        Errors l = Z.of_nat (length (handled l))
        /\ (HasErrors l = true <-> handled l <> [])).
Proof.
  intros src n l. destruct (counted_lex n src) as [_ H]. fold l in H.
  split; [exact H|]. intros Hlen.
  rewrite wrap_small in H by lia. split; [exact H|].
  unfold HasErrors. rewrite H, Z.ltb_lt.
  destruct (handled l); simpl; split; intros H'; try lia; try discriminate.
  contradiction.
Qed.

(** *** Nothing sent or reported is taken back *)

Lemma growsFrom_refl l : growsFrom l l.
Proof. split; exists []; rewrite app_nil_r; reflexivity. Qed.

Lemma growsFrom_trans l0 l1 l2 : growsFrom l0 l1 -> growsFrom l1 l2 -> growsFrom l0 l2.
Proof.
  intros [[ts1 H1] [es1 G1]] [[ts2 H2] [es2 G2]]. split.
  - exists (ts1 ++ ts2). rewrite H2, H1, app_assoc. reflexivity.
  - exists (es1 ++ es2). rewrite G2, G1, app_assoc. reflexivity.
Qed.

Lemma growsFrom_readLoop src : forall first l,
  growsFrom l (snd (readLoop src first l)).
Proof.
  assert (forall e l, growsFrom l (raise e l)) as Hr.
  { intros e l. split; [exists []; simpl; rewrite app_nil_r; reflexivity|].
    eexists; reflexivity. }
  assert (forall s l, growsFrom l (withSource s l)) as Hs.
  { intros s l. split; exists []; simpl; rewrite app_nil_r; reflexivity. }
  induction src as [|[c size|msg] rest IH]; intros first l; simpl.
  - apply Hs.
  - destruct (_ && _); [eapply growsFrom_trans; [apply Hr | apply IH]|].
    destruct (c =? bom); [|apply Hs].
    destruct first; [apply IH | eapply growsFrom_trans; [apply Hr | apply IH]].
  - unfold close. destruct (closed _); simpl;
      (split; [exists []; simpl; rewrite app_nil_r; reflexivity | eexists; reflexivity]).
Qed.

Lemma growsFrom_same l l' :
  tokenStream l' = tokenStream l -> handled l' = handled l -> growsFrom l l'.
Proof. intros H G. split; exists []; rewrite app_nil_r; assumption. Qed.

Lemma growsFrom_consume l : growsFrom l (consume l).
Proof.
  unfold consume, readRune; simpl.
  destruct (closed l); [apply growsFrom_same; reflexivity|].
  match goal with |- context [readLoop ?s ?f ?x] =>
    pose proof (growsFrom_readLoop s f x) as H; destruct (readLoop s f x) as [r l2] end.
  simpl in H. eapply growsFrom_trans; [|eapply growsFrom_trans; [exact H|]];
    apply growsFrom_same; reflexivity.
Qed.

Lemma growsFrom_emit t l : growsFrom l (emit t l).
Proof.
  split; [|exists []; unfold emit, send; destruct (decide _); simpl;
           destruct (closed l); simpl; rewrite app_nil_r; reflexivity].
  rewrite emit_stream. destruct (closed l); [exists []; rewrite app_nil_r|eexists];
    reflexivity.
Qed.

Lemma grown_lex l0 n : forall l, growsFrom l0 l -> growsFrom l0 (fst (lex T n l)).
Proof.
  intros l H.
  apply (kept_lex T (grown l0)) with (c := 0); [..|split; [lia | exact H]].
  - intros c l1 H1; apply H1.
  - intros c c' l1 Hc [_ H1]. split; [lia | exact H1].
  - intros c p e l1 [Hc H1]. split; [exact Hc|].
    eapply growsFrom_trans; [exact H1|].
    split; [exists []; simpl; rewrite app_nil_r; reflexivity | eexists; reflexivity].
  - intros c l1 Hc [_ H1]. split; [exact Hc|].
    eapply growsFrom_trans; [exact H1 | apply growsFrom_consume].
  - intros c l1 _ [Hc H1]. split; [lia|].
    eapply growsFrom_trans; [exact H1 | apply growsFrom_consume].
  - intros c l1 [Hc H1]. split; [exact Hc|]. unfold close. destruct (closed l1); exact H1.
  - intros c l1 H1. exact H1.
  - intros c t l1 [Hc H1]. split; [exact Hc|].
    eapply growsFrom_trans; [exact H1 | apply growsFrom_emit].
Qed.

Lemma lex_add n m : forall l,
  lex T (n + m) l = if snd (lex T n l) then lex T n l else lex T m (fst (lex T n l)).
Proof.
  induction n as [|n IH]; intros l; [reflexivity|].
  change (S n + m)%nat with (S (n + m)). rewrite !lex_S.
  destruct (lexOnce T l) as [l' [|]]; [reflexivity | apply IH].
Qed.

(** X7: tokens are never revised and errors never withdrawn: the tokens
    sent and the errors handled after [n] turns of the loop are an initial
    part of those after [n + m] turns. *)
Theorem sent_and_reported_only_grow :
  forall src n m,
    growsFrom (fst (lex T n (Lex src))) (fst (lex T (n + m) (Lex src))).
Proof.
  intros src n m. rewrite lex_add.
  destruct (snd (lex T n (Lex src))); [apply growsFrom_refl|].
  apply grown_lex, growsFrom_refl.
Qed.

End Invariants.

(** ** A turn of the loop, apart from the end of the source *)

Section Turn.

Variable T : unicode.Tables.
Variable P : Z -> Lexer -> Prop.

Hypothesis P_nonneg : forall c l, P c l -> 0 <= c.
Hypothesis P_weaken : forall c c' l, 0 <= c' <= c -> P c l -> P c' l.
Hypothesis P_raiseAt : forall c p e l, P c l -> P c (raiseAt p e l).
Hypothesis P_consume : forall c l, 0 <= c -> P (c + 1) l -> P c (consume l).
Hypothesis P_consume_rune : forall c l, current l <> eof -> P c l -> P (c + 1) (consume l).
Hypothesis P_discard : forall c l, P c l -> P c (discard l).
Hypothesis P_emit : forall c t l, P c l -> P c (emit t l).

(** A turn either finds the end marker and closes, or runs one of the
    scanning functions, none of which closes by itself. *)
Lemma kept_turn c l :
  P c l ->
  (current l = eof /\ lexOnce T l = (close l, true))
  \/ (current l <> eof
      /\ exists l', P c l' /\ lexOnce T l = (l', panicked l')).
Proof.
  intros H. pose proof (P_nonneg _ _ H) as Hc.
  destruct (current l =? eof) eqn:E5.
  { apply Z.eqb_eq in E5. left. split; [exact E5 | apply lexOnce_eof, E5]. }
  assert (current l <> eof) as Hne by (intros E; rewrite E in E5; discriminate E5).
  right. split; [exact Hne|].
  unfold lexOnce. cbv zeta. rewrite E5.
  destruct (unicode.IsLetter T (current l)).
  { eexists; split; [|reflexivity].
    apply (kept_lexIdentifier T P P_nonneg P_weaken P_consume_rune P_emit), H. }
  destruct (current l =? rn "_").
  { eexists; split; [|reflexivity].
    apply P_emit, (kept_step P P_nonneg P_weaken P_consume_rune); assumption. }
  destruct (current l =? rn "\").
  { eexists; split; [|reflexivity].
    apply P_emit, P_consume; [exact Hc|].
    apply (kept_consumeIdentifier T P P_nonneg P_weaken P_consume_rune).
    apply P_consume_rune; assumption. }
  destruct (unicode.IsDigit T (current l)).
  { eexists; split; [|reflexivity].
    apply (kept_lexNumber T P P_nonneg P_weaken P_raiseAt P_consume_rune P_emit), H. }
  destruct (current l =? rn "'").
  { eexists; split; [|reflexivity].
    apply (kept_lexRune P P_nonneg P_weaken P_raiseAt P_consume P_consume_rune P_emit);
      assumption. }
  destruct (current l =? dquote).
  { eexists; split; [|reflexivity].
    apply (kept_lexString P P_nonneg P_weaken P_raiseAt P_consume P_consume_rune P_emit);
      assumption. }
  destruct (token.IsOperator _).
  { eexists; split; [|reflexivity].
    apply (kept_lexOperator P P_nonneg P_weaken P_consume_rune P_emit), H. }
  destruct (current l =? rn "#").
  { eexists; split; [|reflexivity].
    apply (kept_lexComment P P_nonneg P_weaken P_consume_rune P_emit), H. }
  destruct (_ && _).
  { eexists; split; [|reflexivity]. apply P_emit, H. }
  destruct (_ || _).
  { eexists; split; [|reflexivity].
    apply (kept_discardWhitespace T P P_nonneg P_weaken P_consume_rune P_discard), H. }
  eexists; split; [|reflexivity].
  apply P_emit, (kept_step P P_nonneg P_weaken P_consume_rune); [exact Hne|].
  apply P_raiseAt, H.
Qed.

End Turn.

Section Failures.

Variable T : unicode.Tables.

Lemma readLoop_source (Q : ReadResult -> Prop) src : forall first l,
  Forall Q src -> Forall Q (source (snd (readLoop src first l))).
Proof.
  induction src as [|[c size|msg] rest IH]; intros first l Hall; simpl.
  - constructor.
  - inversion Hall; subst.
    destruct (_ && _); [apply IH; assumption|].
    destruct (c =? bom); [apply IH; assumption | assumption].
  - inversion Hall; subst. unfold close. destruct (closed _); assumption.
Qed.

Lemma consume_source (Q : ReadResult -> Prop) l :
  Forall Q (source l) -> Forall Q (source (consume l)).
Proof.
  intros Hall. unfold consume, readRune; simpl.
  destruct (closed l); [exact Hall|].
  match goal with |- context [readLoop ?s ?f ?x] =>
    pose proof (readLoop_source Q s f x Hall) as H;
    destruct (readLoop s f x) as [r l2] end.
  exact H.
Qed.

Lemma sound_consume c l : sound c l -> sound c (consume l).
Proof.
  intros (Hc & Ho & Hp & Hall). split; [exact Hc|]. split; [|split].
  - apply consume_no_failure; assumption.
  - destruct (consume_window l) as (_ & _ & _ & _ & _ & H). rewrite H. exact Hp.
  - apply consume_source, Hall.
Qed.

Lemma sound_emit c t l : sound c l -> sound c (emit t l).
Proof.
  intros (Hc & Ho & Hp & Hall). unfold emit, send.
  destruct (decide _); simpl; rewrite Ho; simpl; repeat split; assumption.
Qed.

Lemma sound_turn l :
  sound 0 l ->
  (lexOnce T l = (close l, true))
  \/ (exists l', sound 0 l' /\ lexOnce T l = (l', false)).
Proof.
  intros H.
  destruct (kept_turn T sound) with (c := 0) (l := l)
    as [[_ E]|[_ (l' & H' & E)]]; try exact H.
  - intros c l0 H0; apply H0.
  - intros c c' l0 Hc (_ & H0). split; [lia | exact H0].
  - intros c p e l0 H0. exact H0.
  - intros c l0 Hc (_ & H0). apply sound_consume. split; [exact Hc | exact H0].
  - intros c l0 _ (Hc & H0). apply sound_consume. split; [lia | exact H0].
  - intros c l0 H0. exact H0.
  - apply sound_emit.
  - left; exact E.
  - right. exists l'. split; [exact H'|]. rewrite E.
    destruct H' as (_ & _ & Hp & _). rewrite Hp. reflexivity.
Qed.

Lemma sound_Lex src : Forall notFailure src -> sound 0 (Lex src).
Proof.
  intros Hall. unfold Lex, readRune. cbn [closed source].
  match goal with |- context [readLoop ?s ?f ?x] =>
    pose proof (readLoop_no_failure s f x Hall eq_refl) as Hc;
    pose proof (readLoop_source notFailure s f x Hall) as Hs;
    destruct (readLoop s f x) as [r l2] eqn:E end.
  apply readLoop_window in E. destruct E as (_ & _ & _ & _ & _ & Hp).
  split; [lia|]. repeat split; assumption.
Qed.

(** X8: as long as no read fails, the scan never sends on the closed
    channel, and the channel is closed exactly when the loop has ended. *)
Theorem no_panic_without_read_failure :
  forall src n,
    Forall notFailure src ->
    panicked (fst (lex T n (Lex src))) = false
    /\ closed (fst (lex T n (Lex src))) = snd (lex T n (Lex src)).
Proof.
  intros src n Hall. apply sound_Lex in Hall.
  revert Hall. generalize (Lex src).
  induction n as [|n IH]; intros l H; [split; apply H|].
  rewrite lex_S.
  destruct (sound_turn l H) as [E|(l' & H' & E)]; rewrite E.
  - destruct H as (_ & Ho & Hp & _). unfold close. rewrite Ho. split; [exact Hp | reflexivity].
  - apply IH, H'.
Qed.

End Failures.

Lemma no_panic_without_read_failure_witness :
  Forall notFailure (NewReader "x = 1")
  /\ panicked (fst (lex latin1Tables 4 (Lex (NewReader "x = 1")))) = false.
Proof.
  assert (Forall notFailure (NewReader "x = 1")) as H
    by (vm_compute; repeat constructor).
  split; [exact H|].
  exact (proj1 (no_panic_without_read_failure latin1Tables (NewReader "x = 1") 4 H)).
Defined.

(** ** What the reader hands over *)

Section Reader.

Variable T : unicode.Tables.

Lemma readLoop_not_bom src : forall first l, fst (readLoop src first l) <> bom.
Proof.
  induction src as [|[c size|msg] rest IH]; intros first l; simpl;
    [discriminate| |discriminate].
  destruct (_ && _); [apply IH|].
  destruct (c =? bom) eqn:E; [apply IH|].
  simpl. intros H. rewrite H in E. discriminate E.
Qed.

Lemma noMark_consume c l : 0 <= c -> noMark c (consume l).
Proof.
  intros Hc. split; [exact Hc|]. split; [|apply consume_closed].
  unfold consume, readRune; simpl.
  destruct (closed l); [discriminate|].
  match goal with |- context [readLoop ?s ?f ?x] =>
    pose proof (readLoop_not_bom s f x) as H; destruct (readLoop s f x) as [r l2] end.
  exact H.
Qed.

Lemma noMark_Lex src : noMark 0 (Lex src).
Proof.
  split; [lia|]. unfold Lex, readRune. cbn [closed source].
  match goal with |- context [readLoop ?s ?f ?x] =>
    pose proof (readLoop_not_bom s f x) as H;
    destruct (readLoop s f x) as [r l2] eqn:E end.
  split; [exact H|]. intros Hc. apply (readLoop_closed _ _ _ _ _ E) in Hc.
  - exact Hc.
  - reflexivity.
Qed.

(** X9: the scanner never sees a byte-order mark: whatever the reader
    delivers, the current rune is no byte-order mark at any point of the
    scan; and once the channel is closed it is the end marker. *)
Theorem mark_never_current :
  forall src n,
    let l := fst (lex T n (Lex src)) in
    current l <> bom /\ (closed l = true -> current l = eof).
Proof.
  intros src n l.
  assert (noMark 0 l) as [_ H]; [|exact H].
  apply (kept_lex T noMark); [..|apply noMark_Lex].
  - intros c l0 H; apply H.
  - intros c c' l0 Hc (_ & H). split; [lia | exact H].
  - intros c p e l0 H. exact H.
  - intros c l0 Hc _. apply noMark_consume, Hc.
  - intros c l0 _ (Hc & _). apply noMark_consume. lia.
  - intros c l0 (Hc & Hb & He). split; [exact Hc|]. unfold close.
    destruct (closed l0) eqn:E; simpl; [rewrite E; split; assumption|].
    split; [discriminate | reflexivity].
  - intros c l0 H. exact H.
  - intros c t l0 (Hc & Hb & He). split; [exact Hc|]. unfold emit, send.
    destruct (decide _); simpl; destruct (closed l0) eqn:E; simpl; rewrite ?E;
      split; assumption.
Qed.

End Reader.

Ltac at_eof H :=
  let E := fresh "E" in
  intros E; rewrite E in H; try rewrite IsOperator_eof in H; cbv in H; discriminate H.

(** ** The tokens that are sent *)

Section Sent.

Variable T : unicode.Tables.

Lemma typed_Lookup s : typed (token.Lookup s) s.
Proof.
  unfold token.Lookup.
  destruct (token.stringToType !! s) as [t|] eqn:E; [|left; reflexivity].
  destruct (token.IsKeyword t) eqn:Ek; [|left; reflexivity].
  do 4 right. split; [right; exact Ek|]. symmetry. apply stringToType_lookup, E.
Qed.

Lemma typed_NewTokenType s :
  token.IsOperator s = true -> typed (token.NewTokenType s) s.
Proof.
  intros H. do 4 right. split; [left; exact H|].
  unfold token.IsOperator, token.NewTokenType in *.
  destruct (token.stringToType !! s) as [t|] eqn:E; [|discriminate H].
  symmetry. apply stringToType_lookup, E.
Qed.

(** The loop of [lexOperator] ends on an operator, if it starts on one
    or on a state from which it takes a step. *)
Lemma operator_consumeWhile fuel : forall l,
  token.IsOperator (tokenLiteral l) = true
  \/ (fuel <> O
      /\ token.IsOperator (tokenLiteral l ++ utf8.string_of_rune (current l)) = true) ->
  token.IsOperator
    (tokenLiteral
       (consumeWhile
          (fun l => token.IsOperator (tokenLiteral l ++ utf8.string_of_rune (current l)))
          fuel l)) = true.
Proof.
  induction fuel as [|fuel IH]; intros l H; cbn [consumeWhile].
  - destruct H as [H | [H _]]; [exact H | contradiction].
  - destruct (token.IsOperator (_ ++ _)) eqn:E.
    + apply IH. left. destruct (consume_window l) as (_ & _ & _ & _ & W5 & _).
      rewrite W5. exact E.
    + destruct H as [H | [_ H]]; [exact H | discriminate H].
Qed.

Lemma wellTyped_emit t l :
  typed t (tokenLiteral l) ->
  Forall wellTyped (tokenStream l) -> Forall wellTyped (tokenStream (emit t l)).
Proof.
  intros Ht H. rewrite emit_stream. destruct (closed l); [exact H|].
  apply Forall_app; split; [exact H|]. constructor; [exact Ht | constructor].
Qed.

Lemma wellTyped_lexOnce l :
  Top l -> Forall wellTyped (tokenStream l) ->
  Forall wellTyped (tokenStream (fst (lexOnce T l))).
Proof.
  intros HT H. unfold lexOnce.
  destruct (unicode.IsLetter T (current l)).
  { apply wellTyped_emit; [apply typed_Lookup|].
    rewrite (stream_consumeIdentifier T _ l eq_refl). exact H. }
  destruct (current l =? rn "_") eqn:E1.
  { apply Z.eqb_eq in E1. apply wellTyped_emit; [|rewrite stream_consume; exact H].
    destruct (consume_window l) as (_ & _ & _ & _ & W5 & _).
    rewrite W5, E1. destruct HT as [-> | [HT | HT]];
      [| rewrite E1 in HT; discriminate HT ..].
    do 4 right. split; [right|]; reflexivity. }
  destruct (current l =? rn "\").
  { apply wellTyped_emit; [left; reflexivity|].
    rewrite stream_consume, (stream_consumeIdentifier T _ _ (stream_consume l)). exact H. }
  destruct (unicode.IsDigit T (current l)).
  { simpl. unfold lexNumber.
    destruct (numberPrefix l) as [[base cantBe0] l1] eqn:E.
    apply wellTyped_emit; [left; reflexivity|].
    rewrite (stream_number T _ _ _ _ _ E eq_refl). exact H. }
  destruct (current l =? rn "'").
  { simpl. unfold lexRune.
    pose proof (stream_runeChars _ (turns (consume l)) 0 _ (stream_consume l)) as Hs.
    destruct (runeChars _ _ _) as [[k|] l2]; simpl in Hs; [|rewrite Hs; exact H].
    apply wellTyped_emit; [left; reflexivity|].
    repeat (destruct (_ <? _); [simpl; rewrite stream_consume, Hs; exact H|]).
    rewrite stream_consume, Hs; exact H. }
  destruct (current l =? dquote).
  { simpl. unfold lexString.
    pose proof (stream_stringChars _ (turns (consume l)) _ (stream_consume l)) as Hs.
    destruct (stringChars _ _) as [[|] l2]; simpl in Hs; [|rewrite Hs; exact H].
    apply wellTyped_emit; [left; reflexivity|].
    rewrite stream_consume, Hs; exact H. }
  destruct (token.IsOperator _) eqn:Eo.
  { apply wellTyped_emit.
    - apply typed_NewTokenType.
      assert (tokenLiteral l = EmptyString) as El.
      { destruct HT as [HT | [HT | HT]]; [exact HT | |]; rewrite HT in Eo;
          vm_compute in Eo; discriminate Eo. }
      apply operator_consumeWhile. right. split; [discriminate|].
      rewrite El. exact Eo.
    - rewrite (stream_consumeWhile (tokenStream l) _ _ l); [exact H | | reflexivity].
      intros l' H'. at_eof H'. }
  destruct (current l =? rn "#").
  { apply wellTyped_emit; [right; right; left; reflexivity|].
    rewrite (stream_consumeWhile (tokenStream l) _ _ l); [exact H | | reflexivity].
    intros l' H' E. rewrite E in H'. discriminate H'. }
  destruct (_ && _).
  { apply wellTyped_emit; [do 3 right; left; reflexivity | exact H]. }
  destruct (_ || _).
  { change (Forall wellTyped
              (tokenStream (consumeWhile (fun l0 => unicode.IsSpace T (current l0))
                              (turns l) l))).
    rewrite (stream_consumeWhile (tokenStream l) _ _ l); [exact H | | reflexivity].
    intros l' H'. at_eof H'. }
  destruct (current l =? eof).
  { simpl. unfold close. destruct (closed l); exact H. }
  apply wellTyped_emit; [right; left; reflexivity|].
  rewrite stream_consume. exact H.
Qed.

(** X10: the type of every token sent tells its text where the language
    fixes it: a token of an operator or keyword type carries the literal
    of its type, except the semicolon; the other tokens are identifiers,
    numbers, runes, strings, comments and illegal runes.  No token sent
    has the end-of-stream type or a boundary value for type. *)
Theorem tokens_well_typed :
  forall src n,
    Forall wellTyped (tokenStream (fst (lex T n (Lex src))))
    /\ Forall (fun tk => ~ In (token.Type_ tk)
                              [token.EOF; token.literalBeg; token.literalEnd;
                               token.operatorBeg; token.operatorEnd;
                               token.keywordBeg; token.keywordEnd])
         (tokenStream (fst (lex T n (Lex src)))).
Proof.
  intros src n.
  assert (Forall wellTyped (tokenStream (fst (lex T n (Lex src))))) as H.
  { assert (forall l, Top l -> Forall wellTyped (tokenStream l) ->
                      Forall wellTyped (tokenStream (fst (lex T n l)))) as Hn.
    { induction n as [|n IH]; intros l HT H; simpl; [exact H|].
      pose proof (wellTyped_lexOnce l HT H) as H1.
      destruct (lexOnce T l) as [l' [|]] eqn:E; [exact H1|].
      apply IH; [eapply Top_lexOnce; exact E | exact H1]. }
    apply Hn; [apply Top_Lex|].
    destruct (Lex_window src) as (-> & _). constructor. }
  split; [exact H|].
  eapply Forall_impl; [exact H|].
  intros [t lit p]. unfold wellTyped, typed. cbn [token.Type_ token.Literal].
  intros Ht Hin. simpl in Hin.
  unfold token.IsLiteral, token.IsOperatorType, token.IsKeyword in Ht.
  destruct Hin as [<-|[<-|[<-|[<-|[<-|[<-|[<-|[]]]]]]]]; simpl in Ht;
    intuition discriminate.
Qed.

End Sent.

(** ** The end of the scan *)

Section Ending.

Variable T : unicode.Tables.

Lemma tame_eof : tame T eof.
Proof. intros H. discriminate H. Qed.

Lemma readLoop_tame src : forall first l,
  Forall (tameRead T) src -> tame T (fst (readLoop src first l)).
Proof.
  induction src as [|[c size|msg] rest IH]; intros first l Hall; simpl;
    [apply tame_eof | | apply tame_eof].
  inversion Hall; subst.
  destruct (_ && _); [apply IH; assumption|].
  destruct (c =? bom); [apply IH; assumption | assumption].
Qed.

Lemma consume_tame l :
  Forall (tameRead T) (source l) ->
  tame T (current (consume l)) /\ Forall (tameRead T) (source (consume l)).
Proof.
  intros Hall. split; [|apply consume_source, Hall].
  unfold consume, readRune; simpl.
  destruct (closed l); [apply tame_eof|].
  match goal with |- context [readLoop ?s ?f ?x] =>
    pose proof (readLoop_tame s f x Hall) as H; destruct (readLoop s f x) as [r l2] end.
  exact H.
Qed.

Lemma consume_stays_closed l : closed l = true -> closed (consume l) = true.
Proof.
  intros H. unfold consume, readRune; simpl. rewrite H. reflexivity.
Qed.

Lemma ebbs_consume K c l : ebbs T K c l -> ebbs T K c (consume l).
Proof.
  intros (Hc & Hk & _ & Hall & Hp).
  destruct (consume_tame l Hall) as [Ht Hs].
  pose proof (left_consume l). pose proof (avail_left l).
  repeat split; try assumption; [lia|].
  destruct (consume_window l) as (_ & _ & _ & _ & _ & W6). rewrite W6.
  intros Hpan. apply consume_stays_closed, Hp, Hpan.
Qed.

Lemma ebbs_consume_rune K c l :
  current l <> eof -> ebbs T K c l -> ebbs T K (c + 1) (consume l).
Proof.
  intros Hne (Hc & Hk & _ & Hall & Hp).
  destruct (consume_tame l Hall) as [Ht Hs].
  pose proof (left_consume l). pose proof (avail_lt_left l Hne).
  repeat split; try assumption; [lia | lia|].
  destruct (consume_window l) as (_ & _ & _ & _ & _ & W6). rewrite W6.
  intros Hpan. apply consume_stays_closed, Hp, Hpan.
Qed.

Lemma ebbs_nonneg K c l : ebbs T K c l -> 0 <= c.
Proof. intros H; apply H. Qed.

Lemma ebbs_weaken K c c' l : 0 <= c' <= c -> ebbs T K c l -> ebbs T K c' l.
Proof.
  intros Hc (_ & Hk & H). split; [lia|]. split; [lia | exact H].
Qed.

Lemma ebbs_raiseAt K c p e l : ebbs T K c l -> ebbs T K c (raiseAt p e l).
Proof. intros H. exact H. Qed.

Lemma ebbs_consume_credit K c l : 0 <= c -> ebbs T K (c + 1) l -> ebbs T K c (consume l).
Proof.
  intros Hc H. apply ebbs_consume, (ebbs_weaken K (c + 1)); [lia | exact H].
Qed.

Lemma ebbs_discard K c l : ebbs T K c l -> ebbs T K c (discard l).
Proof. intros H. exact H. Qed.

Lemma ebbs_emit K c t l : ebbs T K c l -> ebbs T K c (emit t l).
Proof.
  intros (Hc & Hk & Ht & Hall & Hp). unfold emit, send.
  unfold ebbs, left, avail in *.
  destruct (decide _); simpl; destruct (closed l) eqn:E; simpl; rewrite ?E;
    repeat split; auto.
Qed.

Lemma consumeWhile_S cond fuel l :
  consumeWhile cond (S fuel) l = if cond l then consumeWhile cond fuel (consume l) else l.
Proof. reflexivity. Qed.

(** A loop that starts on a rune of its class consumes it. *)
Lemma ebbs_consumeWhile K cond l :
  (forall l, cond l = true -> current l <> eof) ->
  cond l = true -> ebbs T K 0 l -> ebbs T K 1 (consumeWhile cond (turns l) l).
Proof.
  intros Hcond E H. unfold turns. rewrite consumeWhile_S, E.
  apply (kept_consumeWhile (ebbs T K) (ebbs_nonneg K) (ebbs_weaken K) (ebbs_consume_rune K)
           cond Hcond).
  apply (ebbs_consume_rune K 0), H. apply Hcond, E.
Qed.

Lemma consumeDigits_first base l :
  token.IsDigit (current l) base = true ->
  consumeDigits base false l = consumeDigits base false (consume l).
Proof.
  intros H. unfold consumeDigits. rewrite !andb_false_r.
  unfold turns at 1. rewrite consumeWhile_S, H.
  apply consumeWhile_fuel.
  - intros l' H' E. rewrite E, IsDigit_eof in H'. discriminate H'.
  - pose proof (left_consume l). unfold avail in *. destruct (closed l); lia.
  - apply left_turns.
Qed.

Lemma numberBody_first base l :
  token.IsDigit (current l) base = true ->
  numberBody T base false l = numberBody T base false (consume l).
Proof.
  intros H. unfold numberBody. rewrite (consumeDigits_first base l H). reflexivity.
Qed.

Lemma insertSemi_emit t l :
  t <> token.Comment -> insertSemi (emit t l) = token.InsertSemiAfter t.
Proof.
  intros Ht. unfold emit, send. destruct (decide _) as [Hd|_]; [contradiction|].
  cbn. destruct (closed l); reflexivity.
Qed.

(** A turn that does not end the loop consumes a rune, or inserts the
    semicolon that was due. *)
Lemma ebbs_turn l l' :
  Top l -> ebbs T (Z.of_nat (left l)) 0 l -> lexOnce T l = (l', false) ->
  ebbs T (Z.of_nat (left l)) 1 l'
  \/ (insertSemi l = true /\ insertSemi l' = false /\ ebbs T (Z.of_nat (left l)) 0 l').
Proof.
  set (K := Z.of_nat (left l)). intros HT H.
  assert (forall x, ebbs T K 1 x -> (x, panicked x) = (l', false) ->
            ebbs T K 1 l'
            \/ (insertSemi l = true /\ insertSemi l' = false /\ ebbs T K 0 l')) as Hnext.
  { intros x Hx E. inversion E; subst. left. exact Hx. }
  unfold lexOnce. cbv zeta.
  destruct (unicode.IsLetter T (current l)) eqn:E0.
  { apply Hnext, ebbs_emit, ebbs_consumeWhile; [|unfold identifierRune; rewrite E0|exact H].
    - intros l0 H0. at_eof H0.
    - reflexivity. }
  destruct (current l =? rn "_") eqn:E1.
  { apply Hnext, ebbs_emit, (ebbs_consume_rune K 0); [at_eof E1 | exact H]. }
  destruct (current l =? rn "\") eqn:E2.
  { apply Hnext, ebbs_emit, ebbs_consume.
    apply (kept_consumeIdentifier T (ebbs T K) (ebbs_nonneg K) (ebbs_weaken K)
             (ebbs_consume_rune K)).
    apply (ebbs_consume_rune K 0); [at_eof E2 | exact H]. }
  destruct (unicode.IsDigit T (current l)) eqn:E3.
  { apply Hnext. unfold lexNumber, numberPrefix.
    pose proof (kept_numberBody T (ebbs T K) (ebbs_nonneg K) (ebbs_weaken K)
                  (ebbs_raiseAt K) (ebbs_consume_rune K) 1) as Hbody.
    destruct (current l =? rn "0") eqn:E30.
    - assert (ebbs T K 1 (consume l)) as H1
          by (apply (ebbs_consume_rune K 0); [at_eof E30 | exact H]).
      repeat (destruct (_ || _); [apply ebbs_emit, Hbody, ebbs_consume, H1|]).
      apply ebbs_emit, Hbody, H1.
    - assert (token.IsDigit (current l) 10 = true) as Hd by (apply H, E3).
      rewrite (numberBody_first 10 l Hd).
      apply ebbs_emit, Hbody, (ebbs_consume_rune K 0); [|exact H].
      intros E. rewrite E in E3. discriminate E3. }
  destruct (current l =? rn "'") eqn:E4.
  { apply Hnext. unfold lexRune.
    assert (ebbs T K 1 (consume l)) as H1
        by (apply (ebbs_consume_rune K 0); [at_eof E4 | exact H]).
    pose proof (kept_runeChars (ebbs T K) (ebbs_nonneg K) (ebbs_weaken K) (ebbs_raiseAt K)
                  (ebbs_consume_credit K) (ebbs_consume_rune K)
                  (turns (consume l)) 0 1 (consume l) H1) as H2.
    destruct (runeChars _ _ _) as [[k|] l2]; simpl in H2; [|exact H2].
    apply ebbs_emit. apply ebbs_consume in H2.
    repeat (destruct (_ <? _); [exact H2|]). exact H2. }
  destruct (current l =? dquote) eqn:E5.
  { apply Hnext. unfold lexString.
    assert (ebbs T K 1 (consume l)) as H1
        by (apply (ebbs_consume_rune K 0); [at_eof E5 | exact H]).
    pose proof (kept_stringChars (ebbs T K) (ebbs_nonneg K) (ebbs_weaken K) (ebbs_raiseAt K)
                  (ebbs_consume_credit K) (ebbs_consume_rune K)
                  (turns (consume l)) 1 (consume l) H1) as H2.
    destruct (stringChars _ _) as [[|] l2]; simpl in H2; [|exact H2].
    apply ebbs_emit, ebbs_consume, H2. }
  destruct (token.IsOperator _) eqn:E6.
  { apply Hnext, ebbs_emit, ebbs_consumeWhile; [| |exact H].
    - intros l0 H0. at_eof H0.
    - assert (tokenLiteral l = EmptyString) as El.
      { destruct HT as [HT | [HT | HT]]; [exact HT | |]; rewrite HT in E6;
          vm_compute in E6; discriminate E6. }
      rewrite El. exact E6. }
  destruct (current l =? rn "#") eqn:E7.
  { apply Hnext, ebbs_emit, ebbs_consumeWhile; [| |exact H].
    - intros l0 H0 E. rewrite E in H0. discriminate H0.
    - apply Z.eqb_eq in E7. rewrite E7. reflexivity. }
  destruct ((current l =? newline) && insertSemi l) eqn:E8.
  { intros E. injection E as El Ep. subst l'. right.
    apply andb_true_iff in E8 as [_ E8]. split; [exact E8|].
    split; [|apply ebbs_emit, H].
    apply insertSemi_emit. discriminate. }
  destruct ((current l =? newline) || unicode.IsSpace T (current l)) eqn:E9.
  { apply Hnext, ebbs_discard, ebbs_consumeWhile; [| |exact H].
    - intros l0 H0. at_eof H0.
    - apply orb_true_iff in E9 as [E9|E9]; [|exact E9].
      apply Z.eqb_eq in E9. rewrite E9. reflexivity. }
  destruct (current l =? eof) eqn:E10; [discriminate|].
  apply Hnext, ebbs_emit, (ebbs_consume_rune K 0); [|exact H].
  simpl. intros E. rewrite E in E10. discriminate E10.
Qed.

Lemma over_closed l l' :
  ebbs T (Z.of_nat (left l)) 0 l -> lexOnce T l = (l', true) -> closed l' = true.
Proof.
  intros H E.
  destruct (kept_turn T (ebbs T (Z.of_nat (left l))) (ebbs_nonneg _) (ebbs_weaken _)
              (ebbs_raiseAt _) (ebbs_consume_credit _) (ebbs_consume_rune _)
              (ebbs_discard _) (ebbs_emit _) 0 l H)
    as [[_ E']|[_ (x & Hx & E')]]; rewrite E' in E.
  - injection E as El. subst l'.
    unfold close. destruct (closed l) eqn:Ec; [exact Ec | reflexivity].
  - injection E as El Ep. subst l'. apply Hx, Ep.
Qed.

Lemma ends_within m : forall l,
  Top l -> ebbs T (Z.of_nat (left l)) 0 l -> (toDo l < m)%nat ->
  snd (lex T m l) = true /\ closed (fst (lex T m l)) = true.
Proof.
  induction m as [|m IH]; intros l HT H Hm; [lia|].
  rewrite lex_S. destruct (lexOnce T l) as [l' [|]] eqn:E.
  - split; [reflexivity | exact (over_closed l l' H E)].
  - assert (ebbs T (Z.of_nat (left l')) 0 l' /\ (toDo l' < toDo l)%nat) as [H' Hlt].
    { unfold toDo.
      destruct (ebbs_turn l l' HT H E) as [(_ & Hk & Hr)|(E1 & E2 & _ & Hk & Hr)].
      - split; [split; [lia|]; split; [lia | exact Hr]|].
        destruct (insertSemi l'), (insertSemi l); lia.
      - split; [split; [lia|]; split; [lia | exact Hr]|].
        rewrite E1, E2. lia. }
    apply IH; [eapply Top_lexOnce; exact E | exact H' | lia].
Qed.

(** X11: the scan of an input with no decimal digit outside ASCII comes
    to its end: over [k] reads the loop takes [2 * k] turns at most and
    one more to see the end, after which the goroutine is over and the
    channel closed, so that no consumer waits for ever. *)
Theorem scan_ends :
  forall src n,
    Forall (tameRead T) src -> (2 * length src < n)%nat ->
    snd (lex T n (Lex src)) = true /\ closed (fst (lex T n (Lex src))) = true.
Proof.
  intros src n Hall Hn.
  destruct (Lex_window src) as (_ & _ & _ & Hleft).
  fold (left (Lex src)) in Hleft.
  assert (insertSemi (Lex src) = false /\ panicked (Lex src) = false
          /\ tame T (current (Lex src)) /\ Forall (tameRead T) (source (Lex src)))
    as (Hi & Hp & Ht & Hs).
  { unfold Lex, readRune. cbn [closed source].
    match goal with |- context [readLoop ?s ?f ?x] =>
      pose proof (readLoop_tame s f x Hall) as Ht;
      pose proof (readLoop_source (tameRead T) s f x Hall) as Hs;
      destruct (readLoop s f x) as [r l2] eqn:E end.
    apply readLoop_window in E. destruct E as (_ & W2 & _ & _ & _ & W6).
    simpl in *. repeat split; assumption. }
  apply ends_within.
  - apply Top_Lex.
  - split; [lia|]. split; [lia|]. split; [exact Ht|]. split; [exact Hs|].
    rewrite Hp. discriminate.
  - unfold toDo. rewrite Hi. lia.
Qed.

End Ending.

Lemma scan_ends_witness :
  Forall (tameRead latin1Tables) (NewReader "a1") /\ (2 * length (NewReader "a1") < 5)%nat
  /\ snd (lex latin1Tables 5 (Lex (NewReader "a1"))) = true.
Proof.
  assert (Forall (tameRead latin1Tables) (NewReader "a1")) as H1.
  { vm_compute. repeat constructor; intros H; first [discriminate H | reflexivity]. }
  assert (2 * length (NewReader "a1") < 5)%nat as H2 by (vm_compute; lia).
  split; [exact H1|]. split; [exact H2|].
  exact (proj1 (scan_ends latin1Tables (NewReader "a1") 5 H1 H2)).
Defined.

(** ** Runs of runes *)

Section Runs.

Variable T : unicode.Tables.

Lemma emit_open t l :
  closed l = false -> t <> token.Comment ->
  emit t l = sent t (token.InsertSemiAfter t) l.
Proof.
  intros Hc Ht. unfold emit, send, sent.
  destruct (decide _) as [Hd|_]; [contradiction|]. cbn. rewrite Hc. reflexivity.
Qed.

Lemma emit_comment l :
  closed l = false -> emit token.Comment l = sent token.Comment (insertSemi l) l.
Proof.
  intros Hc. unfold emit, send, sent.
  destruct (decide _) as [_|Hd]; [|contradiction]. cbn. rewrite Hc. reflexivity.
Qed.

Lemma consume_ends p l tail :
  closed l = false -> source l = tail -> endsRun p tail ->
  consume l = consumed l (headRune tail) (tl tail).
Proof.
  intros Hc Hs Hend. destruct tail as [|[c size|msg] rest]; simpl in *.
  - apply consume_end; assumption.
  - eapply consume_plain; [exact Hc | exact Hs | apply Hend].
  - destruct Hend.
Qed.

Lemma headRune_ends p tail : p eof = false -> endsRun p tail -> p (headRune tail) = false.
Proof.
  intros He Hend. destruct tail as [|[c size|msg] rest]; simpl in *;
    [exact He | apply Hend | destruct Hend].
Qed.

(** A loop [for p(current) { consume() }] over a run of the class [p]
    consumes the run and stops on what ends it. *)
Lemma consumeWhile_run p tail :
  p eof = false ->
  forall run l fuel,
    closed l = false -> source l = run ++ tail ->
    Forall (runOf p) run -> endsRun p tail ->
    p (current l) = true ->
    (length run < fuel)%nat ->
    consumeWhile (fun l => p (current l)) fuel l = after l run tail.
Proof.
  intros He.
  induction run as [|[c size|msg] run IH]; intros l fuel Hc Hs Hrun Hend Hp Hf;
    (destruct fuel as [|fuel]; [simpl in Hf; lia|]); rewrite consumeWhile_S, Hp.
  - rewrite (consume_ends p l tail Hc Hs Hend).
    assert (consumeWhile (fun l => p (current l)) fuel
              (consumed l (headRune tail) (tl tail))
            = consumed l (headRune tail) (tl tail)) as ->.
    { destruct fuel; [reflexivity|]. rewrite consumeWhile_S.
      cbn [current consumed]. rewrite (headRune_ends p tail He Hend). reflexivity. }
    unfold after, consumed. cbn [runes runText]. rewrite append_nil_r. reflexivity.
  - inversion Hrun as [|? ? Hr Hrest]; subst. destruct Hr as [Hpl Hpc].
    rewrite (consume_plain l c size (run ++ tail) Hc Hs Hpl).
    rewrite (IH (consumed l c (run ++ tail)) fuel); try assumption; try reflexivity;
      [|simpl in Hf; lia].
    unfold after, consumed. cbn [runes runText current tokenEnd tokenLiteral
      tokenStream closed Errors handled insertSemi tokenStart panicked].
    rewrite append_assoc. reflexivity.
  - inversion Hrun as [|? ? Hr ?]. destruct Hr.
Qed.

Lemma Lookup_not_Comment s : token.Lookup s <> token.Comment.
Proof.
  unfold token.Lookup. destruct (token.stringToType !! s) as [t|]; [|discriminate].
  destruct (token.IsKeyword t) eqn:E; [|discriminate].
  intros ->. discriminate E.
Qed.

Lemma run_turns (run tail : list ReadResult) l :
  source l = run ++ tail -> (length run < turns l)%nat.
Proof. intros H. unfold turns. rewrite H, length_app. lia. Qed.

(** X12: on a letter, a turn of the loop consumes the letter and the
    whole run of letters, digits and underscores behind it, and sends
    one token: its text is the run, its type what [Lookup] answers on the
    text, its position the start cursor.  The turn reports nothing, stops
    on the rune that ended the run, and leaves an empty window at the end
    of the run. *)
Theorem identifier_token :
  forall l run tail,
    unicode.IsLetter T (current l) = true -> closed l = false ->
    source l = run ++ tail ->
    Forall (runOf (identifierRune T)) run -> endsRun (identifierRune T) tail ->
    let text := tokenLiteral (after l run tail) in
    lexOnce T l =
    (sent (token.Lookup text) (token.InsertSemiAfter (token.Lookup text))
       (after l run tail), false).
Proof.
  intros l run tail Hl Hc Hs Hrun Hend text.
  unfold lexOnce. cbv zeta. rewrite Hl.
  unfold lexIdentifier, consumeIdentifier.
  rewrite (consumeWhile_run (identifierRune T) tail eq_refl run l (turns l) Hc Hs Hrun Hend).
  - fold text. rewrite emit_open; [reflexivity | exact Hc | apply Lookup_not_Comment].
  - unfold identifierRune. rewrite Hl. reflexivity.
  - apply (run_turns run tail), Hs.
Qed.

(** X13: on the number sign, a turn consumes the rest of the line and
    sends it as one comment token, the newline left out; the comment
    leaves the pending semicolon as it was. *)
Theorem comment_token :
  forall l run tail,
    let inLine c := negb (c =? newline) && negb (c =? eof) in
    current l = rn "#" -> closed l = false ->
    source l = run ++ tail ->
    Forall (runOf inLine) run -> endsRun inLine tail ->
    lexOnce T l = (sent token.Comment (insertSemi l) (after l run tail), false).
Proof.
  intros l run tail inLine Hl Hc Hs Hrun Hend.
  assert (lexOnce T l = (lexComment l, panicked (lexComment l))) as ->.
  { unfold lexOnce. cbv zeta. rewrite Hl.
    repeat match goal with
           | |- (if ?b then _ else _) = _ =>
             let v := eval vm_compute in b in
             replace b with v by (vm_compute; reflexivity); cbv iota
           end.
    reflexivity. }
  unfold lexComment.
  pose proof (consumeWhile_run inLine tail eq_refl run l (turns l) Hc Hs Hrun Hend) as E.
  subst inLine. cbv beta in E. rewrite E.
  - rewrite emit_comment; [reflexivity | exact Hc].
  - rewrite Hl. reflexivity.
  - apply (run_turns run tail), Hs.
Qed.

(** X14: [discardWhitespace] on white space consumes the whole run of
    white space, newlines among them, sends nothing and reports nothing,
    and drops what it consumed: the window is empty and stands where the
    run ends. *)
Theorem whitespace_skipped :
  forall l run tail,
    unicode.IsSpace T (current l) = true -> closed l = false ->
    source l = run ++ tail ->
    Forall (runOf (unicode.IsSpace T)) run -> endsRun (unicode.IsSpace T) tail ->
    discardWhitespace T l = discard (after l run tail).
Proof.
  intros l run tail Hl Hc Hs Hrun Hend. unfold discardWhitespace.
  rewrite (consumeWhile_run (unicode.IsSpace T) tail eq_refl run l (turns l)
             Hc Hs Hrun Hend); [reflexivity | exact Hl | apply (run_turns run tail), Hs].
Qed.

End Runs.

Ltac reads :=
  simpl;
  repeat first
    [ reflexivity | discriminate | constructor
    | (let E := fresh in intros [E _]; discriminate E) ].

Lemma identifier_token_witness :
  tokenStream (fst (lexOnce latin1Tables (Lex (NewReader "if x"))))
  = [tok token.If "if" 1 1].
Proof.
  rewrite (identifier_token latin1Tables (Lex (NewReader "if x"))
             [RuneRead (rn "f") 1] [RuneRead (rn " ") 1; RuneRead (rn "x") 1]).
  - vm_compute. reflexivity.
  - reflexivity.
  - reflexivity.
  - reflexivity.
  - reads.
  - reads.
Defined.

Lemma comment_token_witness :
  tokenStream (fst (lexOnce latin1Tables (Lex (NewReader (line "#a")))))
  = [tok token.Comment "#a" 1 1].
Proof.
  rewrite (comment_token latin1Tables (Lex (NewReader (line "#a")))
             [RuneRead (rn "a") 1] [RuneRead newline 1]).
  - vm_compute. reflexivity.
  - reflexivity.
  - reflexivity.
  - reflexivity.
  - reads.
  - reads.
Defined.

Lemma whitespace_skipped_witness :
  current (discardWhitespace latin1Tables (Lex (NewReader (line " " ++ "x")))) = rn "x".
Proof.
  rewrite (whitespace_skipped latin1Tables (Lex (NewReader (line " " ++ "x")))
             [RuneRead newline 1] [RuneRead (rn "x") 1]).
  - reflexivity.
  - reflexivity.
  - reflexivity.
  - reflexivity.
  - reads.
  - reads.
Defined.

(** ** A read that fails *)

Section Failing.

Variable T : unicode.Tables.

Lemma consume_fails l msg rest :
  closed l = false -> source l = ReadFailure msg :: rest ->
  consume l = failed l [] msg rest.
Proof.
  intros Hc Hs. unfold consume, readRune; simpl. rewrite Hc, Hs. simpl.
  unfold failed, close, raise, raiseAt, withCurrent, withSource, advanceAll, advance; simpl.
  rewrite append_nil_r. reflexivity.
Qed.

Lemma consumeWhile_fails p msg rest :
  p eof = false ->
  forall run l fuel,
    closed l = false -> source l = run ++ ReadFailure msg :: rest ->
    Forall (runOf p) run ->
    p (current l) = true ->
    (length run < fuel)%nat ->
    consumeWhile (fun l => p (current l)) fuel l = failed l run msg rest.
Proof.
  intros He.
  induction run as [|[c size|m] run IH]; intros l fuel Hc Hs Hrun Hp Hf;
    (destruct fuel as [|fuel]; [simpl in Hf; lia|]); rewrite consumeWhile_S, Hp.
  - rewrite (consume_fails l msg rest Hc Hs).
    destruct fuel; [reflexivity|]. rewrite consumeWhile_S.
    cbn [current failed]. rewrite He. reflexivity.
  - inversion Hrun as [|? ? Hr Hrest]; subst. destruct Hr as [Hpl Hpc].
    rewrite (consume_plain l c size (run ++ ReadFailure msg :: rest) Hc Hs Hpl).
    rewrite (IH (consumed l c (run ++ ReadFailure msg :: rest)) fuel);
      try assumption; try reflexivity; [|simpl in Hf; lia].
    unfold failed, consumed. cbn [runes runText current tokenEnd tokenLiteral
      tokenStream closed Errors handled insertSemi tokenStart panicked].
    rewrite append_assoc. reflexivity.
  - inversion Hrun as [|? ? Hr ?]. destruct Hr.
Qed.

(** X15: when the reader fails in the middle of an identifier, the
    failure is reported once, at the end cursor, and the channel closed;
    the loop that consumes the identifier stops there, and the [emit]
    that follows sends on the closed channel: the goroutine panics and
    the identifier is never sent. *)
Theorem read_failure_in_identifier :
  forall l run msg rest,
    unicode.IsLetter T (current l) = true -> closed l = false ->
    source l = run ++ ReadFailure msg :: rest ->
    Forall (runOf (identifierRune T)) run ->
    let l' := fst (lexOnce T l) in
    snd (lexOnce T l) = true
    /\ panicked l' = true /\ closed l' = true
    /\ tokenStream l' = tokenStream l
    /\ handled l' =
       handled l ++
         [{| pos := advanceAll (tokenEnd l) (current l :: runes run);
             err := ErrRead msg |}].
Proof.
  intros l run msg rest Hl Hc Hs Hrun l'. subst l'.
  unfold lexOnce. cbv zeta. rewrite Hl.
  unfold lexIdentifier, consumeIdentifier.
  rewrite (consumeWhile_fails (identifierRune T) msg rest eq_refl run l (turns l)
             Hc Hs Hrun).
  - unfold emit, send. destruct (decide _); repeat split; reflexivity.
  - unfold identifierRune. rewrite Hl. reflexivity.
  - unfold turns. rewrite Hs, length_app. simpl. lia.
Qed.

End Failing.

Lemma read_failure_in_identifier_witness :
  panicked
    (fst (lexOnce latin1Tables
            (Lex [RuneRead (rn "a") 1; RuneRead (rn "b") 1; ReadFailure "disk"])))
  = true.
Proof.
  exact (proj1 (proj2
    (read_failure_in_identifier latin1Tables
       (Lex [RuneRead (rn "a") 1; RuneRead (rn "b") 1; ReadFailure "disk"])
       [RuneRead (rn "b") 1] "disk" [] eq_refl eq_refl eq_refl
       ltac:(reads)))).
Defined.

(** ** Literals that are closed *)

Section Literals.

Variable T : unicode.Tables.

Lemma runes_snoc run c size :
  Forall notFailure run -> runes (run ++ [RuneRead c size]) = runes run ++ [c].
Proof.
  induction run as [|[d sz|msg] run IH]; intros H; [reflexivity| |].
  - inversion H; subst. simpl. rewrite IH by assumption. reflexivity.
  - inversion H as [|? ? Hf ?]. destruct Hf.
Qed.

Lemma runText_snoc run c size :
  Forall notFailure run ->
  runText (run ++ [RuneRead c size]) = (runText run ++ utf8.string_of_rune c)%string.
Proof.
  induction run as [|[d sz|msg] run IH]; intros H.
  - simpl. rewrite append_nil_r. reflexivity.
  - inversion H; subst. simpl. rewrite IH by assumption.
    rewrite append_assoc. reflexivity.
  - inversion H as [|? ? Hf ?]. destruct Hf.
Qed.

Lemma after_cons l c size src run tail :
  after (consumed l c src) run tail = after l (RuneRead c size :: run) tail.
Proof.
  unfold after, consumed. cbn [runes runText current tokenEnd tokenLiteral
    tokenStream closed Errors handled insertSemi tokenStart panicked].
  rewrite append_assoc. reflexivity.
Qed.

Lemma after_snoc l run c size tail :
  Forall notFailure run ->
  consumed (after l run (RuneRead c size :: tail)) (headRune tail) (tl tail)
  = after l (run ++ [RuneRead c size]) tail.
Proof.
  intros H. unfold after, consumed, advanceAll.
  cbn [current tokenEnd tokenLiteral tokenStream closed Errors handled insertSemi
       tokenStart panicked headRune].
  rewrite (runes_snoc run c size H), (runText_snoc run c size H).
  change (current l :: runes run ++ [c]) with ((current l :: runes run) ++ [c]).
  rewrite fold_left_app, !append_assoc. reflexivity.
Qed.

Lemma ordinary_notFailure body : Forall ordinary body -> Forall notFailure body.
Proof.
  intros H. eapply Forall_impl; [exact H|].
  intros [c size|msg] Ho; [exact I | destruct Ho].
Qed.

(** The loop of [lexString] over ordinary text up to the closing
    quote. *)
Lemma stringChars_body size tail : forall body l fuel,
  closed l = false -> source l = body ++ RuneRead dquote size :: tail ->
  Forall ordinary body -> (length body < fuel)%nat ->
  stringChars fuel (consume l) = (true, after l body (RuneRead dquote size :: tail)).
Proof.
  assert (plain dquote size) as Hq.
  { split; [discriminate|]. intros [E _]. discriminate E. }
  induction body as [|[c sz|msg] body IH]; intros l fuel Hc Hs Hall Hf;
    (destruct fuel as [|fuel]; [simpl in Hf; lia|]).
  - rewrite (consume_plain l dquote size tail Hc Hs Hq).
    cbn [stringChars current consumed]. change (dquote =? dquote) with true. cbv iota.
    unfold after, consumed. cbn [runes runText headRune tl advanceAll fold_left].
    rewrite append_nil_r. reflexivity.
  - inversion Hall as [|? ? Ho Hrest]; subst.
    destruct Ho as (Hp & O1 & O2 & O3 & O4).
    rewrite (consume_plain l c sz (body ++ RuneRead dquote size :: tail) Hc Hs Hp).
    cbn [stringChars]. cbn [current consumed].
    apply Z.eqb_neq in O1, O2, O3, O4. rewrite O1, O3, O4. cbn [orb]. cbv iota.
    unfold consumeRune. cbn [current consumed]. rewrite O2.
    rewrite (IH (consumed l c (body ++ RuneRead dquote size :: tail)) fuel);
      try assumption; try reflexivity; [|simpl in Hf; lia].
    rewrite (after_cons l c sz). reflexivity.
  - inversion Hall as [|? ? Ho ?]. destruct Ho.
Qed.

(** X16: on a double quote followed by ordinary text and a second double
    quote, a turn sends one string token whose text runs from quote to
    quote, both included, positioned at the start cursor; it reports
    nothing and stops on the rune behind the closing quote. *)
Theorem string_token :
  forall l body size tail,
    current l = dquote -> closed l = false ->
    source l = body ++ RuneRead dquote size :: tail ->
    Forall ordinary body -> readable tail ->
    lexOnce T l =
    (sent token.String true (after l (body ++ [RuneRead dquote size]) tail), false).
Proof.
  intros l body size tail Hl Hc Hs Hall Htail.
  rewrite (lexOnce_dquote T l Hl). unfold lexString.
  rewrite (stringChars_body size tail body l (turns (consume l)) Hc Hs Hall).
  - rewrite (consume_ends (fun _ => false) _ tail); [|exact Hc|reflexivity|exact Htail].
    rewrite (after_snoc l body dquote size tail (ordinary_notFailure body Hall)).
    rewrite emit_open; [reflexivity | exact Hc | discriminate].
  - assert (length (source (consume l)) = (length body + length tail)%nat) as E.
    { destruct body as [|[c sz|msg] body].
      - rewrite (consume_plain l dquote size tail Hc Hs); [reflexivity|].
        split; [discriminate|]. intros [E _]. discriminate E.
      - inversion Hall as [|? ? Ho ?]; subst. destruct Ho as (Hp & _).
        rewrite (consume_plain l c sz _ Hc Hs Hp). simpl.
        rewrite length_app. simpl. lia.
      - inversion Hall as [|? ? Ho ?]. destruct Ho. }
    unfold turns. rewrite E. lia.
Qed.

End Literals.

Lemma string_token_witness :
  tokenStream (fst (lexOnce latin1Tables (Lex (NewReader (quoted "hi" ++ quoted ";")))))
  = [tok token.String (quoted "hi" ++ quoted "") 1 1].
Proof.
  rewrite (string_token latin1Tables (Lex (NewReader (quoted "hi" ++ quoted ";")))
             [RuneRead (rn "h") 1; RuneRead (rn "i") 1] 1 [RuneRead (rn ";") 1]).
  - vm_compute. reflexivity.
  - reflexivity.
  - reflexivity.
  - reflexivity.
  - reads.
  - reads.
Defined.

(** ** Decimal integers *)

Section Numbers.

Variable T : unicode.Tables.

(** X17: on a decimal digit other than zero, [lexNumber] consumes the
    whole run of decimal digits and, when what follows is no point and no
    exponent mark, sends that run as one number token, positioned at the
    start cursor, and reports nothing. *)
Theorem decimal_token :
  forall l run tail,
    decimal (current l) = true -> current l <> rn "0" -> closed l = false ->
    source l = run ++ tail ->
    Forall (runOf decimal) run -> endsRun decimal tail ->
    headRune tail <> rn "." ->
    unicode.ToLower T (headRune tail) <> rn "e" ->
    unicode.ToLower T (headRune tail) <> rn "p" ->
    lexNumber T l = sent token.Number true (after l run tail).
Proof.
  intros l run tail Hd H0 Hc Hs Hrun Hend Hdot He Hp.
  apply Z.eqb_neq in H0, Hdot, He, Hp.
  unfold lexNumber, numberPrefix. rewrite H0.
  unfold numberBody, consumeDigits. rewrite !andb_false_r.
  fold decimal.
  change (fun l0 : Lexer => token.IsDigit (current l0) 10)
    with (fun l0 : Lexer => decimal (current l0)).
  rewrite (consumeWhile_run decimal tail eq_refl run l (turns l) Hc Hs Hrun Hend Hd
             (run_turns run tail l Hs)).
  change (10 <? 10) with false. cbv iota.
  change (current (after l run tail)) with (headRune tail). rewrite Hdot.
  unfold exponentIndicator.
  change (current (after l run tail)) with (headRune tail).
  rewrite He, Hp. change (10 =? 16) with false. change (10 =? 10) with true.
  cbn [andb orb]. rewrite emit_open; [reflexivity | exact Hc | discriminate].
Qed.

End Numbers.

Lemma decimal_token_witness :
  tokenStream (lexNumber latin1Tables (Lex (NewReader "42;"))) = [tok token.Number "42" 1 1].
Proof.
  rewrite (decimal_token latin1Tables (Lex (NewReader "42;"))
             [RuneRead (rn "2") 1] [RuneRead (rn ";") 1]).
  - vm_compute. reflexivity.
  - reflexivity.
  - discriminate.
  - reflexivity.
  - reflexivity.
  - reads.
  - reads.
  - discriminate.
  - discriminate.
  - discriminate.
Defined.

(** ** Operators *)

Lemma open_consumeWhile cond fuel : forall l,
  closed l = false -> Forall notFailure (source l) ->
  let l1 := consumeWhile cond fuel l in
  closed l1 = false /\ tokenStream l1 = tokenStream l /\ tokenStart l1 = tokenStart l.
Proof.
  induction fuel as [|fuel IH]; intros l Hc Hall; cbn [consumeWhile]; [repeat split; assumption|].
  destruct (cond l); [|repeat split; assumption].
  destruct (IH (consume l)) as (E1 & E2 & E3);
    [apply consume_no_failure; assumption | apply consume_source, Hall|].
  destruct (consume_window l) as (W1 & _ & W3 & _).
  cbv zeta in *. rewrite E2, E3, W1, W3. repeat split. exact E1.
Qed.

Lemma current_emit t l : current (emit t l) = current l.
Proof.
  unfold emit, send. destruct (decide _); cbn; destruct (closed l); reflexivity.
Qed.

(** X18: [lexOperator], called on a rune that is an operator, sends one
    token whose text is an operator and whose type is the type of that
    operator; the text is the longest there is: with the rune the scan
    stopped on, it is an operator no more.  The reads are taken not to
    fail. *)
Theorem operator_longest_match :
  forall l,
    tokenLiteral l = EmptyString ->
    token.IsOperator (utf8.string_of_rune (current l)) = true ->
    closed l = false -> Forall notFailure (source l) ->
    let l' := lexOperator l in
    exists s,
      tokenStream l' =
      tokenStream l ++
        [{| token.Type_ := token.NewTokenType s; token.Literal := s;
            token.Pos := tokenStart l |}]
      /\ token.IsOperator s = true
      /\ token.IsOperator (s ++ utf8.string_of_rune (current l')) = false.
Proof.
  intros l Hl Hop Hc Hall l'. subst l'. unfold lexOperator.
  set (cond := fun l0 : Lexer =>
                 token.IsOperator (tokenLiteral l0 ++ utf8.string_of_rune (current l0))).
  destruct (open_consumeWhile cond (turns l) l Hc Hall) as (E1 & E2 & E3).
  pose proof (lexOperator_longest l) as Hlong.
  assert (token.IsOperator (tokenLiteral (consumeWhile cond (turns l) l)) = true) as Hs.
  { apply operator_consumeWhile. right. split; [discriminate|]. rewrite Hl. exact Hop. }
  cbv zeta in *. fold cond in Hlong.
  set (l1 := consumeWhile cond (turns l) l) in *.
  exists (tokenLiteral l1).
  rewrite emit_stream, E1, E2, E3. split; [reflexivity|].
  split; [exact Hs|].
  rewrite current_emit. exact Hlong.
Qed.

Lemma operator_longest_match_witness :
  exists s,
    tokenStream (lexOperator (Lex (NewReader "<<=1"))) =
    [{| token.Type_ := token.NewTokenType s; token.Literal := s;
        token.Pos := file.Origin |}]
    /\ token.IsOperator s = true.
Proof.
  destruct (operator_longest_match (Lex (NewReader "<<=1")))
    as (s & E & Hs & _).
  - reflexivity.
  - vm_compute. reflexivity.
  - reflexivity.
  - vm_compute. repeat constructor.
  - exists s. split; [exact E | exact Hs].
Defined.

(** ** Rune literals *)

Section Runes.

Variable T : unicode.Tables.

Lemma countFrom_length body : forall z,
  countFrom (wrap_int z) body = wrap_int (z + Z.of_nat (length body)).
Proof.
  induction body as [|r body IH]; intros z.
  - simpl. f_equal. lia.
  - cbn [countFrom fold_left length]. rewrite wrap_incr.
    change (fold_left (fun k _ => incr k) body (wrap_int (z + 1)))
      with (countFrom (wrap_int (z + 1)) body).
    rewrite IH. f_equal. lia.
Qed.

Lemma runeChar_notFailure body : Forall runeChar body -> Forall notFailure body.
Proof.
  intros H. eapply Forall_impl; [exact H|].
  intros [c size|msg] Ho; [exact I | destruct Ho].
Qed.

Lemma lexOnce_quote l :
  current l = rn "'" -> lexOnce T l = (lexRune l, panicked (lexRune l)).
Proof.
  intros H. unfold lexOnce. cbv zeta. rewrite H.
  repeat match goal with
         | |- (if ?b then _ else _) = _ =>
           let v := eval vm_compute in b in
           replace b with v by (vm_compute; reflexivity); cbv iota
         end.
  reflexivity.
Qed.

(** The loop of [lexRune] over plain characters up to the closing
    quote. *)
Lemma runeChars_body size tail : forall body l fuel k,
  closed l = false -> source l = body ++ RuneRead (rn "'") size :: tail ->
  Forall runeChar body -> (length body < fuel)%nat ->
  runeChars fuel k (consume l)
  = (Some (countFrom k body), after l body (RuneRead (rn "'") size :: tail)).
Proof.
  assert (plain (rn "'") size) as Hq.
  { split; [discriminate|]. intros [E _]. discriminate E. }
  induction body as [|[c sz|msg] body IH]; intros l fuel k Hc Hs Hall Hf;
    (destruct fuel as [|fuel]; [simpl in Hf; lia|]).
  - rewrite (consume_plain l (rn "'") size tail Hc Hs Hq).
    cbn [runeChars current consumed]. change (rn "'" =? rn "'") with true. cbv iota.
    unfold after, consumed. cbn [runes runText headRune tl advanceAll fold_left countFrom].
    rewrite append_nil_r. reflexivity.
  - inversion Hall as [|? ? Ho Hrest]; subst.
    destruct Ho as (Hp & O1 & O2 & O3 & O4).
    rewrite (consume_plain l c sz (body ++ RuneRead (rn "'") size :: tail) Hc Hs Hp).
    cbn [runeChars]. cbn [current consumed].
    apply Z.eqb_neq in O1, O2, O3, O4. rewrite O1, O3, O4. cbn [orb]. cbv iota.
    unfold consumeRune. cbn [current consumed]. rewrite O2.
    rewrite (IH (consumed l c (body ++ RuneRead (rn "'") size :: tail)) fuel (incr k));
      try assumption; try reflexivity; [|simpl in Hf; lia].
    rewrite (after_cons l c sz). reflexivity.
  - inversion Hall as [|? ? Ho ?]. destruct Ho.
Qed.

(** X19: on a single quote, plain characters and a second single quote,
    a turn sends one rune token whose text runs from quote to quote,
    whatever the number of characters between them; when that number,
    counted as an [int], is not one, it first reports the literal as empty
    or as too long, at the start of the literal. *)
Theorem rune_token :
  forall l body size tail,
    current l = rn "'" -> closed l = false ->
    source l = body ++ RuneRead (rn "'") size :: tail ->
    Forall runeChar body -> readable tail ->
    lexOnce T l =
    (sent token.Rune true
       (judged (wrap_int (Z.of_nat (length body)))
          (after l (body ++ [RuneRead (rn "'") size]) tail)),
     false).
Proof.
  intros l body size tail Hl Hc Hs Hall Htail.
  rewrite (lexOnce_quote l Hl). unfold lexRune.
  rewrite (runeChars_body size tail body l (turns (consume l)) 0 Hc Hs Hall).
  - rewrite (consume_ends (fun _ => false) _ tail); [|exact Hc|reflexivity|exact Htail].
    rewrite (after_snoc l body (rn "'") size tail (runeChar_notFailure body Hall)).
    assert (countFrom 0 body = wrap_int (Z.of_nat (length body))) as ->.
    { change 0 with (wrap_int 0). rewrite countFrom_length. reflexivity. }
    fold (judged (wrap_int (Z.of_nat (length body)))
            (after l (body ++ [RuneRead (rn "'") size]) tail)).
    rewrite emit_open; [reflexivity | | discriminate].
    unfold judged. repeat (destruct (_ <? _); [exact Hc|]). exact Hc.
  - assert (length (source (consume l)) = (length body + length tail)%nat) as E.
    { destruct body as [|[c sz|msg] body].
      - rewrite (consume_plain l (rn "'") size tail Hc Hs); [reflexivity|].
        split; [discriminate|]. intros [E _]. discriminate E.
      - inversion Hall as [|? ? Ho ?]; subst. destruct Ho as (Hp & _).
        rewrite (consume_plain l c sz _ Hc Hs Hp). simpl.
        rewrite length_app. simpl. lia.
      - inversion Hall as [|? ? Ho ?]. destruct Ho. }
    unfold turns. rewrite E. lia.
Qed.

End Runes.

Lemma rune_token_witness :
  handled (fst (lexOnce latin1Tables (Lex (NewReader "''"))))
  = [at_ 1 1 ErrEmptyRuneLiteral].
Proof.
  rewrite (rune_token latin1Tables (Lex (NewReader "''")) [] 1 []).
  - vm_compute. reflexivity.
  - reflexivity.
  - reflexivity.
  - reflexivity.
  - reads.
  - reads.
Defined.

(** ** The pending semicolon *)

Section Flag.

Variable T : unicode.Tables.

Lemma flagged_consume c l : flagged c l -> flagged c (consume l).
Proof.
  intros (Hc & Hp & Hf).
  destruct (consume_window l) as (W1 & W2 & _ & _ & _ & W6).
  split; [exact Hc|]. rewrite W1, W2, W6. split; [|exact Hf].
  intros H. apply consume_stays_closed, Hp, H.
Qed.

Lemma flagged_emit c t l : flagged c l -> flagged c (emit t l).
Proof.
  intros (Hc & Hp & Hf). split; [exact Hc|].
  unfold emit, send.
  destruct (closed l) eqn:E.
  - destruct (decide _); cbn; rewrite E; cbn; rewrite ?E;
      (split; [reflexivity | discriminate]).
  - assert (panicked l = false) as Hn.
    { destruct (panicked l) eqn:Ep; [|reflexivity].
      specialize (Hp eq_refl). congruence. }
    specialize (Hf Hn).
    destruct (decide (t = token.Comment)) as [->|Hne]; cbn; rewrite E; cbn;
      (split; [discriminate|]); intros _; unfold pending; rewrite fold_left_app; cbn.
    + destruct (decide _) as [_|Hd]; [exact Hf | contradiction].
    + destruct (decide _) as [Hd|_]; [contradiction | reflexivity].
Qed.

(** X20: between any two turns the flag that makes a newline a
    semicolon says what the last token sent that is no comment asks for,
    and is down while nothing but comments was sent; so the comments sent
    in between never change what a newline does.  After a panic the flag
    stands for the token that could not be sent. *)
Theorem flag_tracks_stream :
  forall src n,
    let l := fst (lex T n (Lex src)) in
    panicked l = false -> insertSemi l = pending (tokenStream l).
Proof.
  intros src n l.
  assert (flagged 0 l) as (_ & _ & H); [|exact H].
  apply (kept_lex T flagged).
  - intros c l0 H; apply H.
  - intros c c' l0 Hc (_ & H). split; [lia | exact H].
  - intros c p e l0 H. exact H.
  - intros c l0 Hc (_ & H). apply flagged_consume. split; [exact Hc | exact H].
  - intros c l0 _ (Hc & H). apply flagged_consume. split; [lia | exact H].
  - intros c l0 (Hc & Hp & Hf). split; [exact Hc|]. unfold close.
    destruct (closed l0) eqn:E; cbn; rewrite ?E; split; auto.
  - intros c l0 H. exact H.
  - apply flagged_emit.
  - split; [lia|]. unfold Lex, readRune. cbn [closed source].
    match goal with |- context [readLoop ?s ?f ?x] =>
      destruct (readLoop s f x) as [r l2] eqn:E end.
    apply readLoop_window in E. destruct E as (W1 & W2 & _ & _ & _ & W6).
    cbn in *. rewrite W1, W2, W6. split; [discriminate | reflexivity].
Qed.

End Flag.

Lemma flag_tracks_stream_witness :
  insertSemi (fst (lex latin1Tables 3 (Lex (NewReader "a #b")))) = true.
Proof.
  rewrite (flag_tracks_stream latin1Tables (NewReader "a #b") 3).
  - vm_compute. reflexivity.
  - vm_compute. reflexivity.
Defined.

(** ** Reads that are skipped *)

Lemma readLoop_readable rest first l :
  readable rest -> readLoop rest first l = (headRune rest, withSource (tl rest) l).
Proof.
  intros H. destruct rest as [|[c size|msg] rest]; [reflexivity| |destruct H].
  apply readLoop_plain, H.
Qed.

(** X21: [readRune] drops what is no text.  A byte-order mark at the
    very start of the input is dropped in silence: the scan is that of
    the input without it.  Anywhere else the mark is dropped and reported
    as out of place, and a byte that is no UTF-8 is dropped and reported,
    each at the end cursor behind the rune being consumed; the current
    rune is then the next one read. *)
Theorem reader_skips :
  (forall size rest, readable rest -> Lex (RuneRead bom size :: rest) = Lex rest)
  /\ (forall l size rest,
         closed l = false -> source l = RuneRead bom size :: rest -> readable rest ->
         consume l = raise ErrIllegalBOM (consumed l (headRune rest) (tl rest)))
  /\ (forall l rest,
         closed l = false -> source l = RuneRead utf8.RuneError 1 :: rest ->
         readable rest ->
         consume l = raise ErrIllegalUTF8 (consumed l (headRune rest) (tl rest))).
Proof.
  split; [|split].
  - intros size rest H. unfold Lex, readRune. cbn [closed source readLoop].
    change (bom =? utf8.RuneError) with false. change (bom =? bom) with true.
    cbn [andb]. cbv iota.
    rewrite !(readLoop_readable rest) by exact H. reflexivity.
  - intros l size rest Hc Hs H. unfold consume, readRune. cbn [closed source].
    rewrite Hc, Hs. cbn [readLoop].
    change (bom =? utf8.RuneError) with false. change (bom =? bom) with true.
    cbn [andb]. cbv iota.
    rewrite (readLoop_readable rest) by exact H.
    unfold raise, raiseAt, consumed, withCurrent, withSource, advance. cbn.
    rewrite Hc. reflexivity.
  - intros l rest Hc Hs H. unfold consume, readRune. cbn [closed source].
    rewrite Hc, Hs. cbn [readLoop].
    change (utf8.RuneError =? utf8.RuneError) with true. change (1 =? 1) with true.
    cbn [andb]. cbv iota.
    rewrite (readLoop_readable rest) by exact H.
    unfold raise, raiseAt, consumed, withCurrent, withSource, advance. cbn.
    rewrite Hc. reflexivity.
Qed.

Lemma reader_skips_witness :
  readable [RuneRead (rn "a") 1]
  /\ Lex [RuneRead bom 3; RuneRead (rn "a") 1] = Lex [RuneRead (rn "a") 1].
Proof.
  assert (readable [RuneRead (rn "a") 1]) as H by reads.
  split; [exact H|].
  exact (proj1 reader_skips 3 [RuneRead (rn "a") 1] H).
Defined.

(** ** Escapes of one byte *)

Lemma hex_rune c :
  token.IsDigit c 16 = true ->
  exists b, utf8.string_of_rune c = String b EmptyString /\ hexByte b.
Proof.
  intros H. destruct (IsDigit_ranges c) as (_ & _ & _ & E). rewrite E in H. clear E.
  change (rn "0") with 48 in H. change (rn "9") with 57 in H.
  change (rn "a") with 97 in H. change (rn "f") with 102 in H.
  change (rn "A") with 65 in H. change (rn "F") with 70 in H.
  assert (In c [48; 49; 50; 51; 52; 53; 54; 55; 56; 57;
                97; 98; 99; 100; 101; 102; 65; 66; 67; 68; 69; 70]) as Hin.
  { rewrite !orb_true_iff, !andb_true_iff, !Z.leb_le in H. simpl. lia. }
  simpl in Hin.
  repeat (destruct Hin as [<-|Hin];
          [eexists; split; [reflexivity | unfold hexByte; vm_compute; intuition discriminate]|]).
  destruct Hin.
Qed.

Lemma consumeHexDigits_Some prefix digits : forall todo acc l h l',
  consumeHexDigits prefix digits todo acc l = (Some h, l') ->
  exists ds, h = (acc ++ ds)%string
             /\ length (list_ascii_of_string ds) = todo
             /\ Forall hexByte (list_ascii_of_string ds).
Proof.
  induction todo as [|todo IH]; intros acc l h l' E; cbn [consumeHexDigits] in E.
  - inversion E; subst. exists EmptyString.
    rewrite append_nil_r. repeat split. constructor.
  - destruct (negb (token.IsDigit (current l) 16)) eqn:Ed; [discriminate E|].
    apply negb_false_iff in Ed. destruct (hex_rune _ Ed) as (b & Eb & Hb).
    rewrite Eb in E. apply IH in E as (ds & -> & Hlen & Hall).
    exists (String b ds). rewrite append_assoc. split; [reflexivity|].
    split; [simpl; rewrite Hlen; reflexivity | constructor; assumption].
Qed.

(** X22: an escape of one byte, [\x] and two hexadecimal digits, is
    never reported as an invalid code point: after the backslash and the
    [x], [consumeEscape] is the loop over the digits and nothing more. *)
Theorem byte_escape_always_valid :
  forall quote l,
    quote <> rn "x" -> current (consume l) = rn "x" ->
    consumeEscape quote l
    = snd (consumeHexDigits "x" 2 2 "" (consume (consume l))).
Proof.
  intros quote l Hq Hx. apply not_eq_sym in Hq. apply Z.eqb_neq in Hq.
  unfold consumeEscape. cbv zeta. rewrite Hx, Hq.
  change (utf8.string_of_rune (rn "x")) with "x"%string.
  cbn [orb]. change (rn "x" =? rn "\") with false. change (rn "x" =? rn "v") with false.
  change (rn "x" =? rn "t") with false. change (rn "x" =? rn "r") with false.
  change (rn "x" =? rn "n") with false. change (rn "x" =? rn "f") with false.
  change (rn "x" =? rn "b") with false. change (rn "x" =? rn "a") with false.
  change (rn "x" =? rn "x") with true. cbn [orb]. cbv iota.
  change (0 <? 2) with true. change (Z.to_nat 2) with 2%nat. cbv iota.
  destruct (consumeHexDigits "x" 2 2 "" (consume (consume l))) as [[h|] l4] eqn:E;
    [|reflexivity].
  apply consumeHexDigits_Some in E as (ds & -> & Hlen & Hall).
  destruct ds as [|b1 [|b2 [|b3 ds]]]; try discriminate Hlen.
  inversion Hall as [|? ? H1 Hall']; subst. inversion Hall' as [|? ? H2 _]; subst.
  unfold hexByte in H1, H2.
  change (EmptyString ++ String b1 (String b2 EmptyString))%string
    with (String b1 (String b2 EmptyString)).
  assert (utf8.ValidRune (ParseInt16 (String b1 (String b2 EmptyString))) = true) as ->;
    [|reflexivity].
  unfold ParseInt16. cbn [list_ascii_of_string fold_left append].
  set (v := (0 * 16 + hexValue b1) * 16 + hexValue b2).
  assert (0 <= v <= 255) as Hv by (subst v; lia).
  destruct (Z.leb_spec (2 ^ 31) v); [lia|].
  unfold utf8.ValidRune, utf8.surrogateMin.
  destruct (Z.leb_spec 0 v); [|lia]. destruct (Z.ltb_spec v 0xD800); [reflexivity | lia].
Qed.

Lemma byte_escape_always_valid_witness :
  handled (consumeEscape dquote (Lex (NewReader "\x41;"))) = [].
Proof.
  rewrite (byte_escape_always_valid dquote (Lex (NewReader "\x41;"))).
  - vm_compute. reflexivity.
  - discriminate.
  - reflexivity.
Defined.

(** ** The window between two turns *)

Section Window.

Variable T : unicode.Tables.

Lemma settled_emit t l : panicked (emit t l) = false -> settled (emit t l).
Proof.
  unfold emit, send, settled. destruct (decide _); cbn; destruct (closed l) eqn:E; cbn;
    rewrite ?E; cbn; intros H; try discriminate H; split; reflexivity.
Qed.

Lemma settled_lexOnce l l' :
  lexOnce T l = (l', false) ->
  settled l' \/ current l' = eof \/ current l' = newline.
Proof.
  assert (forall x : Lexer, (x, panicked x) = (l', false) -> panicked x = false /\ x = l')
    as Hnext by (intros x H; injection H as H1 H2; auto).
  assert (forall t x, (emit t x, panicked (emit t x)) = (l', false) ->
                      settled l' \/ current l' = eof \/ current l' = newline) as Hemit.
  { intros t x H. apply Hnext in H as [H <-]. left. apply settled_emit, H. }
  unfold lexOnce.
  destruct (unicode.IsLetter T (current l)); [apply Hemit|].
  destruct (current l =? rn "_"); [apply Hemit|].
  destruct (current l =? rn "\"); [apply Hemit|].
  destruct (unicode.IsDigit T (current l)).
  { unfold lexNumber. destruct (numberPrefix l) as [[base cantBe0] l1]. apply Hemit. }
  destruct (current l =? rn "'").
  { intros H; apply Hnext in H as [H <-]. unfold lexRune in *.
    destruct (runeChars _ _ _) as [[k|] l2] eqn:E; [left; apply settled_emit, H|].
    right. destruct (runeChars_open _ _ _ _ (left_turns _) E) as (l3 & -> & Hcur).
    exact Hcur. }
  destruct (current l =? dquote).
  { intros H; apply Hnext in H as [H <-]. unfold lexString in *.
    destruct (stringChars _ _) as [[|] l2] eqn:E; [left; apply settled_emit, H|].
    right. destruct (stringChars_open _ _ _ (left_turns _) E) as (l3 & -> & Hcur).
    exact Hcur. }
  destruct (token.IsOperator _); [apply Hemit|].
  destruct (current l =? rn "#"); [apply Hemit|].
  destruct (_ && _); [apply Hemit|].
  destruct (_ || _).
  { intros H; apply Hnext in H as [H <-]. left. split; reflexivity. }
  destruct (current l =? eof); [discriminate|].
  apply Hemit.
Qed.

(** X24: a turn of the loop starts with an empty window, no text held
    and both cursors together, unless it starts on a newline or on the end
    of the input.  So the text of a token is what its own turn consumed;
    only on a newline or at the end of the input can text be left over,
    that of a quoted literal left open. *)
Theorem window_empty_between_turns :
  forall src n l,
    lex T n (Lex src) = (l, false) ->
    settled l \/ current l = eof \/ current l = newline.
Proof.
  intros src n.
  assert (settled (Lex src) \/ current (Lex src) = eof \/ current (Lex src) = newline)
    as H0.
  { left. destruct (Lex_window src) as (_ & W2 & W3 & _). split; [|congruence].
    unfold Lex, readRune. cbn [closed source].
    match goal with |- context [readLoop ?s ?f ?x] =>
      destruct (readLoop s f x) as [r l2] eqn:E end.
    apply readLoop_window in E. destruct E as (_ & _ & _ & _ & W5 & _). exact W5. }
  revert H0. generalize (Lex src).
  induction n as [|n IH]; intros l0 H0 l E.
  - injection E as <-. exact H0.
  - rewrite lex_S in E. destruct (lexOnce T l0) as [l1 [|]] eqn:E1; [discriminate E|].
    apply (IH l1); [|exact E]. apply (settled_lexOnce l0), E1.
Qed.

End Window.

Lemma window_empty_between_turns_witness :
  settled (fst (lex latin1Tables 1 (Lex (NewReader "a+b")))).
Proof.
  assert (lex latin1Tables 1 (Lex (NewReader "a+b"))
          = (fst (lex latin1Tables 1 (Lex (NewReader "a+b"))), false)) as E
    by (vm_compute; reflexivity).
  destruct (window_empty_between_turns latin1Tables (NewReader "a+b") 1 _ E)
    as [H | [H | H]]; [exact H | vm_compute in H; discriminate H ..].
Defined.

(** ** The end cursor *)

(** X23: consuming runes moves the end cursor as a reader of the text
    expects: over runes that are no newline it stays on its line and
    goes one column right for each; over a newline it goes to the first
    column of the next line.  Line and column are [int] counters: the
    statement holds while they do not wrap around. *)
Theorem cursor_moves :
  (forall rs p,
      Forall (fun r => r <> newline) rs ->
      - 2 ^ 63 <= file.Col p -> file.Col p + Z.of_nat (length rs) < 2 ^ 63 ->
      advanceAll p rs
      = {| file.Line := file.Line p; file.Col := file.Col p + Z.of_nat (length rs) |})
  /\ (forall p,
         - 2 ^ 63 <= file.Line p + 1 < 2 ^ 63 ->
         advance p newline = {| file.Line := file.Line p + 1; file.Col := 1 |})
  /\ (forall l, tokenEnd (consume l) = advance (tokenEnd l) (current l)).
Proof.
  split; [|split].
  - induction rs as [|r rs IH]; intros p Hall H1 H2.
    + destruct p as [ln col]. cbn. f_equal. lia.
    + inversion Hall as [|? ? Hr Hrest]; subst.
      cbn [advanceAll fold_left length] in *.
      change (fold_left advance rs (advance p r)) with (advanceAll (advance p r) rs).
      assert (advance p r = {| file.Line := file.Line p; file.Col := file.Col p + 1 |}) as ->.
      { unfold advance. apply Z.eqb_neq in Hr. rewrite Hr.
        unfold file.NextCharacter. rewrite incr_small by lia. reflexivity. }
      rewrite IH; [|exact Hrest|cbn; lia|cbn; lia].
      cbn. f_equal. lia.
  - intros p H. unfold advance. change (newline =? newline) with true. cbv iota.
    unfold file.NextLine, file.NextCharacter. cbn. rewrite incr_small by exact H.
    reflexivity.
  - intros l. apply consume_window.
Qed.

Lemma cursor_moves_witness :
  advanceAll file.Origin [rn "a"; rn "b"] = {| file.Line := 1; file.Col := 3 |}.
Proof.
  rewrite (proj1 cursor_moves [rn "a"; rn "b"] file.Origin).
  - reflexivity.
  - repeat constructor; discriminate.
  - vm_compute. discriminate.
  - vm_compute. reflexivity.
Defined.

(** ** Numbers are sent whatever they look like *)

Section Deferred.

Variable T : unicode.Tables.

Lemma steady_consume ts p c l : steady ts p c l -> steady ts p c (consume l).
Proof.
  intros (Hc & Ho & Hall & Hs & Hp).
  destruct (consume_window l) as (W1 & _ & W3 & _).
  split; [exact Hc|]. split; [apply consume_no_failure; assumption|].
  split; [apply consume_source, Hall|]. split; congruence.
Qed.

(** X25: [lexNumber] sends its token whatever it finds: on the open
    channel and with reads that do not fail, it sends exactly one number
    token, at the start cursor, and raises the insert-semicolon flag, even
    when it reports digits as missing or an exponent mark as wrong. *)
Theorem number_always_sent :
  forall l,
    closed l = false -> Forall notFailure (source l) ->
    exists text,
      tokenStream (lexNumber T l) =
      tokenStream l ++
        [{| token.Type_ := token.Number; token.Literal := text;
            token.Pos := tokenStart l |}]
      /\ insertSemi (lexNumber T l) = true
      /\ panicked (lexNumber T l) = false.
Proof.
  intros l Hc Hall. unfold lexNumber.
  destruct (numberPrefix l) as [[base cantBe0] l1] eqn:E.
  set (P := steady (tokenStream l) (tokenStart l)).
  assert (forall c l0, P c l0 -> 0 <= c) as Pn by (intros c l0 H; apply H).
  assert (forall c c' l0, 0 <= c' <= c -> P c l0 -> P c' l0) as Pw.
  { intros c c' l0 Hcc (_ & H). split; [lia | exact H]. }
  assert (forall c p e l0, P c l0 -> P c (raiseAt p e l0)) as Pr
      by (intros c p e l0 H; exact H).
  assert (forall c l0, current l0 <> eof -> P c l0 -> P (c + 1) (consume l0)) as Pu.
  { intros c l0 _ (H0 & H). apply steady_consume. split; [lia | exact H]. }
  assert (P 0 l) as H0 by (repeat split; try assumption; lia).
  pose proof (kept_numberPrefix P Pn Pw Pu 0 l base cantBe0 l1 E H0) as H1.
  pose proof (kept_numberBody T P Pn Pw Pr Pu 0 base cantBe0 l1 H1)
    as (_ & Ho & _ & Hs & Hp).
  set (l2 := numberBody T base cantBe0 l1) in *.
  exists (tokenLiteral l2).
  rewrite emit_open; [|exact Ho|discriminate].
  cbn. rewrite Hs, Hp. repeat split.
Qed.

End Deferred.

Lemma number_always_sent_witness :
  exists text,
    tokenStream (lexNumber latin1Tables (Lex (NewReader "0x"))) =
    [{| token.Type_ := token.Number; token.Literal := text; token.Pos := file.Origin |}].
Proof.
  destruct (number_always_sent latin1Tables (Lex (NewReader "0x")))
    as (text & E & _).
  - reflexivity.
  - vm_compute. repeat constructor.
  - exists text. exact E.
Defined.

(** ** A zero before 8 or 9 *)

Section LeadingZero.

Variable T : unicode.Tables.

Lemma lexOnce_digit c l :
  c = rn "0" \/ c = rn "8" \/ c = rn "9" -> current l = c ->
  lexOnce T l = (lexNumber T l, panicked (lexNumber T l)).
Proof.
  intros Hc H. unfold lexOnce. cbv zeta. rewrite H.
  destruct Hc as [-> | [-> | ->]];
    repeat match goal with
           | |- (if ?b then _ else _) = _ =>
             let v := eval vm_compute in b in
             replace b with v by (vm_compute; reflexivity); cbv iota
           end;
    reflexivity.
Qed.

(** [lexNumber] on a zero before 8 or 9: the zero is a number by
    itself. *)
Lemma lexNumber_zero l d size rest :
  current l = rn "0" -> closed l = false ->
  d = rn "8" \/ d = rn "9" -> source l = RuneRead d size :: rest ->
  lexNumber T l = sent token.Number true (consumed l d rest).
Proof.
  intros Hcur Hc Hd Hs.
  assert (plain d size) as Hp.
  { destruct Hd as [-> | ->]; (split; [discriminate | intros [E _]; discriminate E]). }
  assert (numberPrefix l = (8, false, consumed l d rest)) as E.
  { unfold numberPrefix. rewrite Hcur. change (rn "0" =? rn "0") with true. cbv iota.
    rewrite (consume_plain l d size rest Hc Hs Hp). cbn [current consumed].
    destruct Hd as [-> | ->]; reflexivity. }
  unfold lexNumber. rewrite E.
  unfold numberBody, consumeDigits. rewrite andb_false_r.
  unfold turns. rewrite consumeWhile_S. cbn [current consumed].
  assert (token.IsDigit d 8 = false) as -> by (destruct Hd as [-> | ->]; reflexivity).
  change (8 <? 10) with true. cbv iota.
  rewrite emit_open; [reflexivity | exact Hc | discriminate].
Qed.

(** [lexNumber] on a run of decimal digits that nothing continues. *)
Lemma lexNumber_run l run tail :
  decimal (current l) = true -> current l <> rn "0" -> closed l = false ->
  source l = run ++ tail ->
  Forall (runOf decimal) run -> endsRun decimal tail ->
  headRune tail <> rn "." ->
  unicode.ToLower T (headRune tail) <> rn "e" ->
  unicode.ToLower T (headRune tail) <> rn "p" ->
  lexNumber T l = sent token.Number true (after l run tail).
Proof.
  intros Hd H0 Hc Hs Hrun Hend Hdot He Hp.
  apply Z.eqb_neq in H0, Hdot, He, Hp.
  unfold lexNumber, numberPrefix. rewrite H0.
  unfold numberBody, consumeDigits. rewrite !andb_false_r.
  change (fun l0 : Lexer => token.IsDigit (current l0) 10)
    with (fun l0 : Lexer => decimal (current l0)).
  rewrite (consumeWhile_run decimal tail eq_refl run l (turns l) Hc Hs Hrun Hend Hd
             (run_turns run tail l Hs)).
  change (10 <? 10) with false. cbv iota.
  change (current (after l run tail)) with (headRune tail). rewrite Hdot.
  unfold exponentIndicator.
  change (current (after l run tail)) with (headRune tail).
  rewrite He, Hp. change (10 =? 16) with false. change (10 =? 10) with true.
  cbn [andb orb]. rewrite emit_open; [reflexivity | exact Hc | discriminate].
Qed.

(** C9: a zero followed by 8 or 9, the decimal digits that are no octal
    digits, splits in two and is no error.  Whatever comes behind the
    digit, the turn on the zero sends the zero by itself as a number token,
    reports nothing and stops on the digit, and the next turn is
    [lexNumber] again, on the digit.  When the digit is followed by decimal
    digits and then by no point and no exponent mark, that turn sends the
    digit and those digits as a second number token, one column behind the
    first, and nothing is reported.  So the input [08] gives a number token
    [0] and then a number token [8], and the handler is never called. *)
Theorem zero_then_high_digit :
  (forall l d size rest,
      current l = rn "0" -> closed l = false ->
      d = rn "8" \/ d = rn "9" ->
      source l = RuneRead d size :: rest ->
      let first := sent token.Number true (consumed l d rest) in
      lexOnce T l = (first, false)
      /\ tokenStream first =
         tokenStream l ++
           [{| token.Type_ := token.Number;
               token.Literal := (tokenLiteral l ++ "0")%string;
               token.Pos := tokenStart l |}]
      /\ handled first = handled l /\ current first = d
      /\ lexOnce T first = (lexNumber T first, panicked (lexNumber T first)))
  /\ (forall l d size run tail,
        current l = rn "0" -> closed l = false ->
        d = rn "8" \/ d = rn "9" ->
        source l = RuneRead d size :: run ++ tail ->
        Forall (runOf decimal) run -> endsRun decimal tail ->
        headRune tail <> rn "." ->
        unicode.ToLower T (headRune tail) <> rn "e" ->
        unicode.ToLower T (headRune tail) <> rn "p" ->
        snd (lex T 2 l) = false
        /\ tokenStream (fst (lex T 2 l)) =
           tokenStream l ++
             [{| token.Type_ := token.Number;
                 token.Literal := (tokenLiteral l ++ "0")%string;
                 token.Pos := tokenStart l |};
              {| token.Type_ := token.Number;
                 token.Literal := (utf8.string_of_rune d ++ runText run)%string;
                 token.Pos := file.NextCharacter (tokenEnd l) |}]
        /\ handled (fst (lex T 2 l)) = handled l
        /\ Errors (fst (lex T 2 l)) = Errors l)
  /\ (forall more,
        let final := scan T (3 + more) "08" in
        over T (3 + more) "08" = true
        /\ tokenStream final = [tok token.Number "0" 1 1; tok token.Number "8" 1 2]
        /\ handled final = [] /\ Errors final = 0).
Proof.
  assert (forall l d size rest,
             current l = rn "0" -> closed l = false ->
             d = rn "8" \/ d = rn "9" ->
             source l = RuneRead d size :: rest ->
             lexOnce T l = (sent token.Number true (consumed l d rest), false)) as Hfirst.
  { intros l d size rest Hcur Hc Hd Hs.
    rewrite (lexOnce_digit (rn "0") l (or_introl eq_refl) Hcur).
    rewrite (lexNumber_zero l d size rest Hcur Hc Hd Hs). reflexivity. }
  split; [|split; [|exact (scan_zero_eight T)]].
  - intros l d size rest Hcur Hc Hd Hs first.
    split; [exact (Hfirst l d size rest Hcur Hc Hd Hs)|].
    subst first. unfold sent, consumed.
    cbn [tokenStream tokenLiteral tokenStart handled current].
    rewrite Hcur. repeat split.
    apply (lexOnce_digit d); [right; exact Hd | reflexivity].
  - intros l d size run tail Hcur Hc Hd Hs Hrun Hend Hdot He Hp.
    set (first := sent token.Number true (consumed l d (run ++ tail))).
    pose proof (Hfirst l d size (run ++ tail) Hcur Hc Hd Hs) as E1. fold first in E1.
    assert (lexOnce T first = (sent token.Number true (after first run tail), false))
      as E2.
    { rewrite (lexOnce_digit d first (or_intror Hd) eq_refl).
      rewrite (lexNumber_run first run tail); try assumption; try reflexivity.
      - destruct Hd as [-> | ->]; reflexivity.
      - destruct Hd as [-> | ->]; discriminate. }
    change 2%nat with (S (S O)). rewrite lex_S, E1. cbv iota. rewrite lex_S, E2. cbv iota.
    cbn [lex fst snd]. subst first. unfold sent, after, consumed, advanceAll.
    cbn [tokenStream tokenLiteral tokenStart tokenEnd current handled Errors fold_left].
    rewrite Hcur. split; [reflexivity|]. split; [|split; reflexivity].
    rewrite <- app_assoc. reflexivity.
Qed.

End LeadingZero.

Lemma zero_then_high_digit_witness :
  tokenStream (fst (lex latin1Tables 2 (Lex (NewReader "09;"))))
  = [tok token.Number "0" 1 1; tok token.Number "9" 1 2].
Proof.
  destruct (proj1 (proj2 (zero_then_high_digit latin1Tables))
              (Lex (NewReader "09;")) (rn "9") 1 [] [RuneRead (rn ";") 1])
    as (_ & E & _).
  - reflexivity.
  - reflexivity.
  - right. reflexivity.
  - reflexivity.
  - constructor.
  - reads.
  - discriminate.
  - discriminate.
  - discriminate.
  - rewrite E. vm_compute. reflexivity.
Defined.
